(** * WildMIDI player: audio output drivers

    A shallow embedding of three output back ends of the WildMIDI player,

    - [out_dossb.c]  (DOS SoundBlaster, cyclic DMA buffer),
    - [out_dart.c]   (OS/2 DART, four mix buffers and a completion callback),
    - [out_alsa.c]   (ALSA, blocking interleaved writes),

    together with the properties their design document states about them.
    C integers are integers of [Z] with the conversions of the C code written
    out; byte buffers are lists of byte values; calls into the hardware layer
    and the operating system are recorded in a log. *)

From stdpp Require Import base numbers list.

Local Open Scope Z_scope.

(** ** C integer conversions *)

Module CInt.

(** Conversion to [unsigned int] / [ULONG] (32 bits). *)
Definition uint32 (z : Z) : Z := z mod 2 ^ 32.

(** Conversion to [int] (32 bits, two's complement). *)
Definition sint32 (z : Z) : Z := (z + 2 ^ 31) mod 2 ^ 32 - 2 ^ 31.

(** Conversion to [short] / [int16_t]. *)
Definition sint16 (z : Z) : Z := (z + 2 ^ 15) mod 2 ^ 16 - 2 ^ 15.

(** Conversion to [uint8_t]. *)
Definition uint8 (z : Z) : Z := z mod 2 ^ 8.

(** A C condition: non-zero is true. *)
Definition truthy (z : Z) : bool := negb (z =? 0).

Lemma sint32_small z : - 2 ^ 31 <= z < 2 ^ 31 -> sint32 z = z.
Proof. intros H. unfold sint32. rewrite Z.mod_small; lia. Qed.

Lemma sint16_small z : - 2 ^ 15 <= z < 2 ^ 15 -> sint16 z = z.
Proof. intros H. unfold sint16. rewrite Z.mod_small; lia. Qed.

Lemma sint16_range z : - 2 ^ 15 <= sint16 z < 2 ^ 15.
Proof.
  unfold sint16.
  pose proof (Z.mod_pos_bound (z + 2 ^ 15) (2 ^ 16)). lia.
Qed.

Lemma uint8_small z : 0 <= z < 2 ^ 8 -> uint8 z = z.
Proof. intros H. unfold uint8. now apply Z.mod_small. Qed.

End CInt.
Import CInt.

(** Case analysis on the integer comparisons of a goal. *)
Ltac case_compare :=
  repeat match goal with
  | |- context [Z.ltb ?a ?b] => destruct (Z.ltb_spec a b)
  | |- context [Z.eqb ?a ?b] => destruct (Z.eqb_spec a b)
  | |- context [Z.gtb ?a ?b] => rewrite (Z.gtb_ltb a b); destruct (Z.ltb_spec b a)
  | |- context [Z.geb ?a ?b] => rewrite (Z.geb_leb a b); destruct (Z.leb_spec b a)
  | |- context [Z.leb ?a ?b] => destruct (Z.leb_spec a b)
  end.

(** Boolean tests among the hypotheses, turned into (in)equalities. *)
Ltac norm_tests :=
  repeat match goal with
  | H : truthy _ = true |- _ => apply negb_true_iff, Z.eqb_neq in H
  | H : truthy _ = false |- _ => apply negb_false_iff, Z.eqb_eq in H
  | H : Z.eqb _ _ = true |- _ => apply Z.eqb_eq in H
  | H : Z.eqb _ _ = false |- _ => apply Z.eqb_neq in H
  | H : Z.leb _ _ = true |- _ => apply Z.leb_le in H
  | H : Z.leb _ _ = false |- _ => apply Z.leb_gt in H
  end.

(** ** The DOS SoundBlaster driver ([out_dossb.c]) *)

Module DosSB.

(** [memcpy (dst + doff, src + soff, n)] on byte lists. *)
Definition memcpy (dst : list Z) (doff : Z) (src : list Z) (soff n : Z) : list Z :=
  take (Z.to_nat doff) dst
    ++ take (Z.to_nat n) (drop (Z.to_nat soff) src)
    ++ drop (Z.to_nat (doff + n)) dst.

(** [memset (dst, v, n)]. *)
Definition memset (dst : list Z) (v n : Z) : list Z :=
  replicate (Z.to_nat n `min` length dst) v ++ drop (Z.to_nat n) dst.

(** The DMA buffer of [dossb.h]: its memory and its size in bytes. *)
Record dma_buffer := { linear : list Z; size : Z }.

(** The fields of the global [sb] the driver reads or writes. *)
Record sb_state := {
  caps : Z;
  maxfreq_mono : Z;
  maxfreq_stereo : Z;
  dma_buff : dma_buffer;
  timer_callback : bool
}.

(** Calls into the hardware layer [dossb.c]; [sb_query_dma] is recorded
    with the size and the position it reported. *)
Inductive hw_call :=
| Sb_open
| Sb_query_dma (dma_size dma_pos : Z)
| Sb_output (enable : bool)
| Sb_start_dma (mode freq : Z)
| Sb_stop_dma
| Sb_close.

(** One [memcpy] into the DMA buffer: [len] bytes from offset [src_off] of
    the caller's data to offset [dst_off] of the buffer. *)
Record copy_op := { dst_off : Z; src_off : Z; len : Z }.

(** The driver's state: the global [sb], the static [buff_tail], and the
    hardware calls made so far. *)
Record driver := {
  sb : sb_state;
  buff_tail : Z;
  hw_log : list hw_call
}.

Definition set_linear (s : sb_state) (m : list Z) : sb_state :=
  {| caps := caps s; maxfreq_mono := maxfreq_mono s;
     maxfreq_stereo := maxfreq_stereo s;
     dma_buff := {| linear := m; size := size (dma_buff s) |};
     timer_callback := timer_callback s |}.

Definition set_timer_callback (s : sb_state) (b : bool) : sb_state :=
  {| caps := caps s; maxfreq_mono := maxfreq_mono s;
     maxfreq_stereo := maxfreq_stereo s; dma_buff := dma_buff s;
     timer_callback := b |}.

(** What one call of [write_sb_common] does. *)
Record common_result := {
  ret : Z;               (* the value returned *)
  tail' : Z;             (* [buff_tail] afterwards *)
  copies : list copy_op  (* the [memcpy] calls, in order *)
}.

(** [dma_pos &= ~255] on an [unsigned int]. *)
Definition round256 (dma_pos : Z) : Z := Z.land dma_pos (uint32 (Z.lnot 255)).

(** [write_sb_common]: [dma_size] and [dma_pos] are what [sb_query_dma]
    reported, [tail] is [buff_tail] on entry, [siz] the [int] argument. *)
Definition write_sb_common (dma_size dma_pos tail siz : Z) : common_result :=
  let dma_pos := round256 dma_pos in
  if tail =? dma_pos then {| ret := 0; tail' := tail; copies := [] |}
  else if dma_pos >? tail then
    let cnt := uint32 (dma_pos - tail) in
    let cnt := if cnt >? uint32 siz then uint32 siz else cnt in
    let c1 := {| dst_off := tail; src_off := 0; len := cnt |} in
    let tail := uint32 (tail + cnt) in
    let tail := if tail >=? dma_size then 0 else tail in
    {| ret := sint32 cnt; tail' := tail; copies := [c1] |}
  else
    let cnt := uint32 (dma_size - tail) in
    let cnt := if cnt >? uint32 siz then uint32 siz else cnt in
    let c1 := {| dst_off := tail; src_off := 0; len := cnt |} in
    let tail := uint32 (tail + cnt) in
    let siz := sint32 (uint32 siz - cnt) in
    if siz =? 0 then {| ret := sint32 cnt; tail' := tail; copies := [c1] |}
    else
      let dma_pos := if dma_pos >? uint32 siz then uint32 siz else dma_pos in
      let c2 := {| dst_off := 0; src_off := cnt; len := dma_pos |} in
      let cnt := uint32 (cnt + dma_pos) in
      {| ret := sint32 cnt; tail' := dma_pos; copies := [c1; c2] |}.

(** The effect of the recorded copies on the DMA memory. *)
Definition do_copy (data : list Z) (mem : list Z) (c : copy_op) : list Z :=
  memcpy mem (dst_off c) data (src_off c) (len c).

Definition do_copies (data : list Z) (mem : list Z) (cs : list copy_op) : list Z :=
  foldl (do_copy data) mem cs.

(** [write_sb_common] on the driver state; [dma_pos] is the position the
    hardware reports at this call. *)
Definition write_sb_common_st (dma_pos : Z) (d : driver) (data : list Z) (siz : Z)
  : Z * driver :=
  let r := write_sb_common (size (dma_buff (sb d))) dma_pos (buff_tail d) siz in
  (ret r,
   {| sb := set_linear (sb d) (do_copies data (linear (dma_buff (sb d))) (copies r));
      buff_tail := tail' r;
      hw_log := hw_log d ++ [Sb_query_dma (size (dma_buff (sb d))) dma_pos] |}).

(** The span the design document calls free: from the write tail up to the
    read position, around the end of the buffer when the position is behind. *)
Definition free_span (dma_size dma_pos tail : Z) : Z :=
  if dma_pos >? tail then dma_pos - tail else (dma_size - tail) + dma_pos.

(** The offsets not yet played: [[dma_pos, tail)] modulo [dma_size]. *)
Definition unread (dma_size dma_pos tail o : Z) : Prop :=
  if dma_pos <=? tail then dma_pos <= o < tail
  else dma_pos <= o < dma_size \/ 0 <= o < tail.

Definition written (c : copy_op) (o : Z) : Prop :=
  dst_off c <= o < dst_off c + len c.

Definition copied (cs : list copy_op) : Z := foldr (fun c n => len c + n) 0 cs.

(** Little-endian memory of the DOS target: byte [i] of the memory that
    starts at a pointer, and the [k]-th [int16_t] of it.  A list stands for
    that memory as far as the model knows it: the bytes of the caller's buffer
    and, where a statement needs them, the bytes that follow it.  [byte_at] is
    total for convenience only; its value past the end of the list is not a
    value of the program, and every statement below about a byte that was
    read carries the hypothesis that the byte lies inside the list. *)
Definition byte_at (mem : list Z) (i : nat) : Z := nth i mem 0.

Definition read_s16 (mem : list Z) (k : nat) : Z :=
  sint16 (Z.lor (byte_at mem (2 * k)) (Z.shiftl (byte_at mem (2 * k + 1)) 8)).

(** The loop [for (; i >= 0; --i) *dst++ = ( *src++ >> 8) + 128;] with [n]
    iterations to go; [src] and [dst] both started at [data] and have both
    been advanced [k] times, [src] by two bytes and [dst] by one. *)
Fixpoint conv_stereo (n k : nat) (mem : list Z) : list Z :=
  match n with
  | O => mem
  | S n' =>
      conv_stereo n' (S k)
        (<[k := uint8 (Z.shiftr (read_s16 mem k) 8 + 128)]> mem)
  end.

(** The loop of the mono branch: [val = *src++; val += *src++;
    *dst++ = (val >> 9) + 128;]. *)
Fixpoint conv_mono (n k : nat) (mem : list Z) : list Z :=
  match n with
  | O => mem
  | S n' =>
      let val := read_s16 mem (2 * k) in
      let val := sint32 (val + read_s16 mem (2 * k + 1)) in
      conv_mono n' (S k) (<[k := uint8 (Z.shiftr val 9 + 128)]> mem)
  end.

Section Modes.

(** The capability bits of [dossb.h]. *)
Variables SBMODE_16BITS SBMODE_STEREO SBMODE_SIGNED : Z.

(** The first half of [write_sb_output]: the conversion of the caller's
    buffer in place, and the new value of [siz]. *)
Definition sb_convert (caps : Z) (data : list Z) (siz : Z) : list Z * Z :=
  if truthy (Z.land caps SBMODE_16BITS) then (data, siz)
  else if truthy (Z.land caps SBMODE_STEREO) then
    let siz := Z.quot siz 2 in
    (conv_stereo (Z.to_nat (siz + 1)) 0 data, siz)
  else
    let siz := Z.quot siz 4 in
    (conv_mono (Z.to_nat (siz + 1)) 0 data, siz).

(** The second half: [while (1)] around [write_sb_common].  Each pass reads
    the hardware position once; [hw] lists the positions the coming passes
    will read, and the loop is still spinning when they are used up. *)
Fixpoint write_sb_loop (hw : list Z) (d : driver) (data : list Z) (siz : Z)
  : option (Z * driver) :=
  match hw with
  | [] => None
  | dma_pos :: hw' =>
      let '(i, d') := write_sb_common_st dma_pos d data siz in
      let siz := sint32 (siz - i) in
      if siz <=? 0 then Some (0, d')
      else write_sb_loop hw' d' (drop (Z.to_nat i) data) siz
  end.

Definition write_sb_output (hw : list Z) (d : driver) (data : list Z) (siz : Z)
  : option (Z * driver) :=
  let '(data, siz) := sb_convert (caps (sb d)) data siz in
  write_sb_loop hw d data siz.

Definition pause_sb_output (d : driver) : driver :=
  let buf := dma_buff (sb d) in
  let fill := if truthy (Z.land (caps (sb d)) SBMODE_16BITS) then 0 else 128 in
  {| sb := set_linear (sb d) (memset (linear buf) fill (size buf));
     buff_tail := buff_tail d;
     hw_log := hw_log d |}.

Definition resume_sb_output (d : driver) : driver := d.

Definition close_sb_output (d : driver) : driver :=
  {| sb := set_timer_callback (sb d) false;
     buff_tail := buff_tail d;
     hw_log := hw_log d ++ [Sb_output false; Sb_stop_dma; Sb_close] |}.

(** [open_sb_output].  [detected] is the outcome of [sb_open ()]: [None] when
    it fails, otherwise the global [sb] as the probe left it; [dma_ok] is the
    outcome of [sb_start_dma].  The result is the return value, the caller's
    [*rate] afterwards, and the driver state. *)
Definition open_sb_output (detected : option sb_state) (dma_ok : bool)
    (d : driver) (rate : Z) : Z * Z * driver :=
  match detected with
  | None =>
      (-1, rate,
       {| sb := sb d; buff_tail := buff_tail d; hw_log := hw_log d ++ [Sb_open] |})
  | Some s =>
      let rate := if rate <? 4000 then 4000 else rate in
      let rate :=
        if truthy (Z.land (caps s) SBMODE_STEREO)
        then (if rate >? maxfreq_stereo s then maxfreq_stereo s else rate)
        else (if rate >? maxfreq_mono s then maxfreq_mono s else rate) in
      let mode :=
        Z.lor (if truthy (Z.land (caps s) SBMODE_16BITS)
               then Z.lor SBMODE_16BITS SBMODE_SIGNED else 0)
              (Z.land (caps s) SBMODE_STEREO) in
      let s := set_timer_callback s false in
      let log := hw_log d ++ [Sb_open; Sb_output true; Sb_start_dma mode rate] in
      if dma_ok
      then (0, rate, {| sb := s; buff_tail := 0; hw_log := log |})
      else (-1, rate,
            {| sb := s; buff_tail := 0;
               hw_log := log ++ [Sb_output false; Sb_close] |})
  end.

(** The maximum the device supports in the channel mode it negotiated. *)
Definition maxfreq (s : sb_state) : Z :=
  if truthy (Z.land (caps s) SBMODE_STEREO) then maxfreq_stereo s
  else maxfreq_mono s.

End Modes.

(** The copies of a list take their bytes from the caller's data one after
    the other: the first at source offset [start], each of the others where
    the one before it ended. *)
Fixpoint consecutive (start : Z) (cs : list copy_op) : Prop :=
  match cs with
  | [] => True
  | c :: cs' => src_off c = start /\ 0 <= len c /\ consecutive (start + len c) cs'
  end.

(** A copy as seen from [i] bytes earlier in the caller's data: the loop of
    [write_sb_output] advances [data] by what each pass has copied. *)
Definition shift (i : Z) (c : copy_op) : copy_op :=
  {| dst_off := dst_off c; src_off := i + src_off c; len := len c |}.

(** The hardware calls a write makes: it only asks for the DMA position. *)
Definition is_query (c : hw_call) : Prop :=
  match c with Sb_query_dma _ _ => True | _ => False end.

(** A copy that stays inside a buffer of [n] bytes. *)
Definition inside (n : Z) (c : copy_op) : Prop :=
  0 <= dst_off c /\ 0 <= len c /\ dst_off c + len c <= n.

(** The state the copy routine relies on: the DMA memory is as long as the
    hardware layer says, and [buff_tail] lies within it. *)
Definition well_formed (d : driver) : Prop :=
  let buf := dma_buff (sb d) in
  Z.of_nat (length (linear buf)) = size buf /\ size buf < 2 ^ 32 /\
  0 <= buff_tail d <= size buf.

(** *** The copy routine stays inside the free span *)

Lemma round256_spec p : 0 <= p < 2 ^ 32 -> round256 p = 256 * (p / 256).
Proof.
  intros Hp. unfold round256, uint32.
  rewrite <- (Z.land_ones (Z.lnot 255) 32) by lia.
  rewrite (Z.land_comm (Z.lnot 255)), Z.land_assoc, (Z.land_ones p 32) by lia.
  rewrite (Z.mod_small p) by lia.
  rewrite <- Z.ldiff_land.
  change 255 with (Z.ones 8).
  rewrite Z.ldiff_ones_r, Z.shiftr_div_pow2, Z.shiftl_mul_pow2 by lia.
  change (2 ^ 8) with 256. lia.
Qed.

Lemma round256_bounds p : 0 <= p < 2 ^ 32 -> 0 <= round256 p <= p.
Proof.
  intros Hp. rewrite round256_spec by done.
  pose proof (Z.mul_div_le p 256). pose proof (Z.div_pos p 256). lia.
Qed.

(** The three shapes a call can take: nothing to copy; one copy from the
    tail on; or, with the read position behind the tail, one copy up to the
    end of the buffer and one from its start. *)
Lemma write_sb_common_cases dma_size dma_pos tail siz :
  0 <= dma_pos <= dma_size -> dma_size < 2 ^ 32 ->
  0 <= tail <= dma_size ->
  - 2 ^ 31 <= siz < 2 ^ 31 ->
  let r := write_sb_common dma_size dma_pos tail siz in
  let pos := round256 dma_pos in
  0 <= tail' r <= dma_size /\
  match copies r with
  | [] => tail = pos /\ ret r = 0
  | [c] =>
      dst_off c = tail /\ src_off c = 0 /\ 0 <= len c /\ tail <> pos /\
      len c <= (if pos >? tail then pos else dma_size) - tail /\
      (0 <= siz -> len c <= siz /\ ret r = len c)
  | [c1; c2] =>
      pos < tail /\
      dst_off c1 = tail /\ src_off c1 = 0 /\ len c1 = dma_size - tail /\
      dst_off c2 = 0 /\ src_off c2 = len c1 /\ 0 <= len c2 <= pos /\
      (0 <= siz -> len c1 + len c2 <= siz /\ ret r = len c1 + len c2)
  | _ => False
  end.
Proof.
  intros Hpos Hsize Htail Hsiz r pos.
  pose proof (round256_bounds dma_pos ltac:(lia)) as Hr.
  subst r. unfold write_sb_common. fold pos.
  unfold uint32, sint32.
  change (2 ^ 32) with 4294967296 in *. change (2 ^ 31) with 2147483648 in *.
  case_compare; simpl.
  all: repeat match goal with |- _ /\ _ => split end.
  all: try done.
  all: try match goal with |- (_ <= _) -> _ => intro end.
  all: repeat match goal with |- _ /\ _ => split end.
  all: repeat match goal with
              | H : context [Z.gtb ?a ?b] |- _ =>
                  rewrite (Z.gtb_ltb a b) in H; revert H;
                  destruct (Z.ltb_spec b a); intro
              end.
  all: Z.div_mod_to_equations; lia.
Qed.

(** C1: whatever position within the buffer the hardware reports, one call
    of the copy routine issues at most two copies, copies no more bytes than
    the span between the write tail and the (rounded) read position, and
    writes no offset of the region [[dma_pos, buff_tail)] that is still to be
    played.  The tail stays within the buffer, so the same holds call after
    call. *)
Theorem write_sb_common_within_free_span dma_size dma_pos tail siz :
  0 <= dma_pos <= dma_size -> dma_size < 2 ^ 32 ->
  0 <= tail <= dma_size ->
  - 2 ^ 31 <= siz < 2 ^ 31 ->
  let r := write_sb_common dma_size dma_pos tail siz in
  let pos := round256 dma_pos in
  (length (copies r) <= 2)%nat /\
  0 <= copied (copies r) <= free_span dma_size pos tail /\
  (0 <= siz -> ret r = copied (copies r) /\ copied (copies r) <= siz) /\
  (forall c o, c ∈ copies r -> written c o ->
     0 <= o < dma_size /\ ~ unread dma_size pos tail o) /\
  (tail = pos -> copies r = []) /\
  0 <= tail' r <= dma_size.
Proof.
  intros Hpos Hsize Htail Hsiz r pos.
  pose proof (round256_bounds dma_pos ltac:(lia)) as Hr. fold pos in Hr.
  destruct (write_sb_common_cases dma_size dma_pos tail siz Hpos Hsize Htail Hsiz)
    as [Hnew Hshape].
  fold r pos in Hnew, Hshape.
  unfold free_span, unread, written.
  destruct (copies r) as [|c1 [|c2 [|c3 cs]]]; simpl in *; [| | |done];
    destruct_and?; split_and!; try done; try lia.
  all: try (intros c o Hc Hw;
            repeat (apply elem_of_cons in Hc as [->|Hc]);
            try (by apply elem_of_nil in Hc)).
  all: intros.
  all: repeat match goal with
              | H : context [Z.gtb ?a ?b] |- _ =>
                  rewrite (Z.gtb_ltb a b) in H; revert H;
                  destruct (Z.ltb_spec b a); intro
              end.
  all: try match goal with
           | H : 0 <= ?s -> _, H' : 0 <= ?s |- _ => specialize (H H')
           end.
  all: destruct_and?; case_compare; lia.
Qed.

(** *** The same on the DMA memory *)

Lemma memcpy_length dst doff src soff n :
  0 <= doff -> 0 <= n -> 0 <= soff ->
  doff + n <= Z.of_nat (length dst) -> soff + n <= Z.of_nat (length src) ->
  length (memcpy dst doff src soff n) = length dst.
Proof.
  intros. unfold memcpy.
  rewrite !length_app, !length_take, !length_drop. lia.
Qed.

Lemma memcpy_outside dst doff src soff n (o : nat) :
  0 <= doff -> 0 <= n -> 0 <= soff ->
  doff + n <= Z.of_nat (length dst) -> soff + n <= Z.of_nat (length src) ->
  ~ (doff <= Z.of_nat o < doff + n) ->
  memcpy dst doff src soff n !! o = dst !! o.
Proof.
  intros Hd Hn Hs Hfit Hsrc Hout. unfold memcpy.
  destruct (decide (Z.of_nat o < doff)) as [Hlt|Hge].
  - rewrite lookup_app_l by (rewrite length_take; lia).
    apply lookup_take_lt. lia.
  - rewrite lookup_app_r by (rewrite length_take; lia).
    rewrite lookup_app_r by (rewrite !length_take, length_drop; lia).
    rewrite lookup_drop. f_equal.
    rewrite !length_take, length_drop. lia.
Qed.

(** The bytes of the region still to be played are the same before and
    after a call, and the buffer keeps its length. *)
Lemma write_sb_common_keeps_unread dma_pos d data siz :
  let buf := dma_buff (sb d) in
  let d' := (write_sb_common_st dma_pos d data siz).2 in
  Z.of_nat (length (linear buf)) = size buf ->
  0 <= dma_pos <= size buf -> size buf < 2 ^ 32 ->
  0 <= buff_tail d <= size buf ->
  0 <= siz < 2 ^ 31 -> siz <= Z.of_nat (length data) ->
  length (linear (dma_buff (sb d'))) = length (linear buf) /\
  forall o : nat,
    unread (size buf) (round256 dma_pos) (buff_tail d) (Z.of_nat o) ->
    linear (dma_buff (sb d')) !! o = linear buf !! o.
Proof.
  intros buf d' Hlen Hpos Hsize Htail Hsiz Hdata.
  pose proof (round256_bounds dma_pos ltac:(lia)) as Hr.
  destruct (write_sb_common_cases (size buf) dma_pos (buff_tail d) siz
              Hpos Hsize Htail ltac:(lia)) as [_ Hshape].
  subst d'. unfold write_sb_common_st. simpl. fold buf.
  unfold unread.
  destruct (copies _) as [|c1 [|c2 [|c3 cs]]]; simpl in *; [done| | |done].
  - destruct Hshape as (Hd & Hs & Hl & Hne & Hfit & Hret).
    specialize (Hret ltac:(lia)). unfold do_copy.
    assert (dst_off c1 + len c1 <= size buf) by (revert Hfit; case_compare; lia).
    split; [apply memcpy_length; lia|].
    intros o Ho. apply memcpy_outside; try lia.
    revert Ho Hfit. case_compare; lia.
  - destruct Hshape as (Hlt & Hd1 & Hs1 & Hl1 & Hd2 & Hs2 & Hl2 & Hret).
    specialize (Hret ltac:(lia)). unfold do_copy.
    assert (Hlen1 : length (memcpy (linear buf) (dst_off c1) data (src_off c1) (len c1))
                    = length (linear buf)) by (apply memcpy_length; lia).
    split; [rewrite memcpy_length; lia|].
    intros o Ho.
    rewrite memcpy_outside by (revert Ho; case_compare; lia).
    apply memcpy_outside; try lia.
    revert Ho. case_compare; lia.
Qed.

(** *** The down-conversion is exact *)

Lemma byte_at_insert_ne mem (k i : nat) v :
  k <> i -> byte_at (<[k := v]> mem) i = byte_at mem i.
Proof.
  intros Hne. unfold byte_at.
  rewrite !nth_lookup, list_lookup_insert_ne; done.
Qed.

Lemma read_s16_insert_below mem (k j : nat) v :
  (k < 2 * j)%nat -> read_s16 (<[k := v]> mem) j = read_s16 mem j.
Proof.
  intros Hlt. unfold read_s16. rewrite !byte_at_insert_ne by lia. done.
Qed.

Lemma conv_stereo_length n k mem : length (conv_stereo n k mem) = length mem.
Proof.
  revert k mem. induction n as [|n IH]; intros k mem; simpl; [done|].
  rewrite IH. apply length_insert.
Qed.

Lemma conv_mono_length n k mem : length (conv_mono n k mem) = length mem.
Proof.
  revert k mem. induction n as [|n IH]; intros k mem; simpl; [done|].
  rewrite IH. apply length_insert.
Qed.

(** The loops never go back: what lies before [dst] stays. *)
Lemma conv_stereo_before n k mem (j : nat) :
  (j < k)%nat -> conv_stereo n k mem !! j = mem !! j.
Proof.
  revert k mem. induction n as [|n IH]; intros k mem Hj; simpl; [done|].
  rewrite IH by lia. apply list_lookup_insert_ne. lia.
Qed.

Lemma conv_mono_before n k mem (j : nat) :
  (j < k)%nat -> conv_mono n k mem !! j = mem !! j.
Proof.
  revert k mem. induction n as [|n IH]; intros k mem Hj; simpl; [done|].
  rewrite IH by lia. apply list_lookup_insert_ne. lia.
Qed.

(** Each iteration reads its sample before any byte of it is overwritten. *)
Lemma conv_stereo_at n k mem (j : nat) :
  (k <= j < k + n)%nat -> (j < length mem)%nat ->
  conv_stereo n k mem !! j = Some (uint8 (Z.shiftr (read_s16 mem j) 8 + 128)).
Proof.
  revert k mem. induction n as [|n IH]; intros k mem Hj Hlen; simpl; [lia|].
  destruct (decide (j = k)) as [->|Hne].
  - rewrite conv_stereo_before by lia.
    apply list_lookup_insert_eq. lia.
  - rewrite IH by (rewrite ?length_insert; lia).
    rewrite read_s16_insert_below by lia. done.
Qed.

Lemma conv_mono_at n k mem (j : nat) :
  (k <= j < k + n)%nat -> (j < length mem)%nat ->
  conv_mono n k mem !! j =
    Some (uint8 (Z.shiftr (sint32 (read_s16 mem (2 * j) + read_s16 mem (2 * j + 1))) 9
                 + 128)).
Proof.
  revert k mem. induction n as [|n IH]; intros k mem Hj Hlen; simpl; [lia|].
  destruct (decide (j = k)) as [->|Hne].
  - rewrite conv_mono_before by lia.
    apply list_lookup_insert_eq. lia.
  - rewrite IH by (rewrite ?length_insert; lia).
    rewrite !read_s16_insert_below by lia. done.
Qed.

Lemma stereo_byte_exact s :
  - 2 ^ 15 <= s < 2 ^ 15 ->
  uint8 (Z.shiftr s 8 + 128) = Z.shiftr s 8 + 128 /\ 0 <= Z.shiftr s 8 + 128 < 256.
Proof.
  intros Hs. rewrite Z.shiftr_div_pow2 by lia.
  change (2 ^ 8) with 256. change (2 ^ 15) with 32768 in Hs.
  assert (0 <= s / 256 + 128 < 256) by (Z.div_mod_to_equations; lia).
  split; [apply uint8_small; change (2 ^ 8) with 256|]; lia.
Qed.

Lemma mono_byte_exact l r :
  - 2 ^ 15 <= l < 2 ^ 15 -> - 2 ^ 15 <= r < 2 ^ 15 ->
  uint8 (Z.shiftr (sint32 (l + r)) 9 + 128) = Z.shiftr (l + r) 9 + 128 /\
  0 <= Z.shiftr (l + r) 9 + 128 < 256.
Proof.
  intros Hl Hr. change (2 ^ 15) with 32768 in *.
  rewrite sint32_small by (change (2 ^ 31) with 2147483648; lia).
  rewrite Z.shiftr_div_pow2 by lia. change (2 ^ 9) with 512.
  assert (0 <= (l + r) / 512 + 128 < 256) by (Z.div_mod_to_equations; lia).
  split; [apply uint8_small; change (2 ^ 8) with 256|]; lia.
Qed.

Section ModeProperties.

Variables SBMODE_16BITS SBMODE_STEREO : Z.

(** C3: the conversion done by [write_sb_output] before it copies.  In
    16-bit mode buffer and size are untouched.  In 8-bit stereo mode the size
    is halved and byte [j] of the output is [(s >> 8) + 128] for the [j]-th
    16-bit sample [s] of the input; in 8-bit mono mode the size is quartered
    and byte [j] is [((left + right) >> 9) + 128] for the [j]-th pair.  The
    bytes are unsigned 8-bit values, with no wrap-around. *)
Theorem sb_convert_exact caps data siz out n :
  0 <= siz <= Z.of_nat (length data) ->
  sb_convert SBMODE_16BITS SBMODE_STEREO caps data siz = (out, n) ->
  (Z.land caps SBMODE_16BITS <> 0 -> out = data /\ n = siz) /\
  (Z.land caps SBMODE_16BITS = 0 -> Z.land caps SBMODE_STEREO <> 0 ->
     n = siz / 2 /\
     forall j : nat, Z.of_nat j < n ->
       let s := read_s16 data j in
       out !! j = Some (Z.shiftr s 8 + 128) /\ 0 <= Z.shiftr s 8 + 128 < 256) /\
  (Z.land caps SBMODE_16BITS = 0 -> Z.land caps SBMODE_STEREO = 0 ->
     n = siz / 4 /\
     forall j : nat, Z.of_nat j < n ->
       let left := read_s16 data (2 * j) in
       let right := read_s16 data (2 * j + 1) in
       out !! j = Some (Z.shiftr (left + right) 9 + 128) /\
       0 <= Z.shiftr (left + right) 9 + 128 < 256).
Proof.
  intros Hsiz. unfold sb_convert, truthy.
  rewrite !Z.quot_div_nonneg by lia.
  destruct (Z.eqb_spec (Z.land caps SBMODE_16BITS) 0) as [H16|H16]; simpl.
  - destruct (Z.eqb_spec (Z.land caps SBMODE_STEREO) 0) as [Hst|Hst]; simpl;
      intros [= <- <-]; (split; [done|split; [intros _ ?|intros _ ?]]); try done.
    + split; [done|]. intros j Hj.
      assert (Z.of_nat j < siz) by (Z.div_mod_to_equations; lia).
      rewrite conv_mono_at by lia.
      destruct (mono_byte_exact (read_s16 data (2 * j)) (read_s16 data (2 * j + 1)))
        as [-> ?]; [apply sint16_range..|done].
    + split; [done|]. intros j Hj.
      assert (Z.of_nat j < siz) by (Z.div_mod_to_equations; lia).
      rewrite conv_stereo_at by lia.
      destruct (stereo_byte_exact (read_s16 data j)) as [-> ?];
        [apply sint16_range|done].
  - intros [= <- <-]. done.
Qed.

(** C9: [pause_sb_output] overwrites every byte of the DMA buffer with the
    silence value of the sample width in use: 0 for 16-bit samples, the
    midpoint 0x80 for unsigned 8-bit samples. *)
Theorem pause_sb_output_silences_buffer d :
  let buf := dma_buff (sb d) in
  let d' := pause_sb_output SBMODE_16BITS d in
  let silence := if truthy (Z.land (caps (sb d)) SBMODE_16BITS) then 0 else 128 in
  Z.of_nat (length (linear buf)) = size buf ->
  linear (dma_buff (sb d')) = replicate (length (linear buf)) silence /\
  size (dma_buff (sb d')) = size buf /\
  (forall o : nat, Z.of_nat o < size buf ->
     linear (dma_buff (sb d')) !! o = Some silence) /\
  silence = (if truthy (Z.land (caps (sb d)) SBMODE_16BITS) then 0 else 0x80).
Proof.
  intros buf d' silence Hlen.
  assert (Hmem : linear (dma_buff (sb d')) = replicate (length (linear buf)) silence).
  { subst d'. unfold pause_sb_output, memset. simpl. fold buf. fold silence.
    rewrite <- Hlen, Nat2Z.id, Nat.min_id, drop_all. apply app_nil_r. }
  split; [done|]. split; [done|]. split; [|done].
  intros o Ho. rewrite Hmem. apply lookup_replicate_2. lia.
Qed.

Variable SBMODE_SIGNED : Z.

(** C7: when the card is found and the DMA transfer starts,
    [open_sb_output] returns 0 and leaves in [*rate] the requested rate
    clamped to the range from 4000 Hz to the maximum of the negotiated channel
    mode; that clamped rate is the one the transfer was started with. *)
Theorem open_sb_output_clamps_rate s d rate :
  let maxf := maxfreq SBMODE_STEREO s in
  let res := open_sb_output SBMODE_16BITS SBMODE_STEREO SBMODE_SIGNED (Some s) true d rate in
  let rate' := res.1.2 in
  4000 <= maxf ->
  res.1.1 = 0 /\
  (rate < 4000 -> rate' = 4000) /\
  (rate > maxf -> rate' = maxf) /\
  (4000 <= rate <= maxf -> rate' = rate) /\
  4000 <= rate' <= maxf /\
  (exists mode, last (hw_log res.2) = Some (Sb_start_dma mode rate')).
Proof.
  intros maxf res rate' Hmax. subst rate' res maxf.
  unfold open_sb_output, maxfreq in *. simpl.
  rewrite last_app_cons. simpl.
  destruct (truthy (Z.land (caps s) SBMODE_STEREO)); simpl.
  all: case_compare; repeat split; eauto; lia.
Qed.

End ModeProperties.

(** The sequence [1000, -1000, 2000, -2000] of the design document, as eight
    little-endian bytes, through the 8-bit stereo branch (capability bits 1
    and 2 standing for 16-bit and stereo), with the bytes 52, 18 behind the
    buffer in memory: four output bytes, and a fifth byte written by the last
    pass of the loop, which runs for [i = siz/2] down to [0] inclusive and
    reads the two bytes behind the buffer for it. *)
Example sb_convert_stereo_1000 :
  sb_convert 1 2 2 [232; 3; 24; 252; 208; 7; 48; 248; 52; 18] 8
  = ([131; 124; 135; 120; 146; 7; 48; 248; 52; 18], 4).
Proof. reflexivity. Qed.

Example sb_convert_mono_1000 :
  sb_convert 1 2 0 [232; 3; 24; 252; 208; 7; 48; 248; 52; 18; 52; 18] 8
  = ([128; 128; 146; 252; 208; 7; 48; 248; 52; 18; 52; 18], 2).
Proof. reflexivity. Qed.

(** A 1 KiB DMA buffer with the tail at 768 and the hardware at 520 (rounded
    to 512): 300 bytes go to the end of the buffer and on from its start, and
    the tail ends at 44. *)
Example write_sb_output_wraps :
  let d := {| sb := {| caps := 3; maxfreq_mono := 45454; maxfreq_stereo := 45454;
                       dma_buff := {| linear := replicate 1024 0; size := 1024 |};
                       timer_callback := false |};
              buff_tail := 768; hw_log := [] |} in
  exists d',
    write_sb_output 1 2 [520] d (replicate 300 7) 300 = Some (0, d') /\
    buff_tail d' = 44 /\
    linear (dma_buff (sb d'))
    = replicate 44 7 ++ replicate 724 0 ++ replicate 256 7.
Proof. eexists. vm_compute. repeat split. Qed.

Lemma write_sb_common_within_free_span_witness :
  let r := write_sb_common 4096 1000 3000 2000 in
  copies r = [ {| dst_off := 3000; src_off := 0; len := 1096 |};
               {| dst_off := 0; src_off := 1096; len := 768 |} ] /\
  0 <= copied (copies r) <= free_span 4096 (round256 1000) 3000.
Proof.
  split; [reflexivity|].
  apply (write_sb_common_within_free_span 4096 1000 3000 2000); lia.
Defined.

Lemma sb_convert_exact_witness :
  [131; 124; 135; 120; 128; 7; 48; 248] !! 1%nat
  = Some (Z.shiftr (read_s16 [232; 3; 24; 252; 208; 7; 48; 248] 1) 8 + 128).
Proof.
  refine (proj1 (proj2 (proj1 (proj2
    (sb_convert_exact 1 2 2 [232; 3; 24; 252; 208; 7; 48; 248] 8 _ 4 _ eq_refl))
    eq_refl _) 1%nat _)).
  - simpl. lia.
  - discriminate.
  - lia.
Defined.

Lemma pause_sb_output_silences_buffer_witness :
  let d := {| sb := {| caps := 2; maxfreq_mono := 45454; maxfreq_stereo := 22727;
                       dma_buff := {| linear := [7; 9; 11; 13]; size := 4 |};
                       timer_callback := false |};
              buff_tail := 0; hw_log := [] |} in
  linear (dma_buff (sb (pause_sb_output 1 d))) = [128; 128; 128; 128].
Proof.
  intros d.
  exact (proj1 (pause_sb_output_silences_buffer 1 d eq_refl)).
Defined.

Lemma open_sb_output_clamps_rate_witness :
  let s := {| caps := 2; maxfreq_mono := 45454; maxfreq_stereo := 22727;
              dma_buff := {| linear := []; size := 0 |};
              timer_callback := false |} in
  let d := {| sb := s; buff_tail := 0; hw_log := [] |} in
  (open_sb_output 1 2 4 (Some s) true d 3000).1 = (0, 4000).
Proof.
  intros s d.
  pose proof (open_sb_output_clamps_rate 1 2 4 s d 3000 ltac:(vm_compute; discriminate))
    as (Hret & Hlow & _).
  specialize (Hlow ltac:(lia)).
  destruct (open_sb_output 1 2 4 (Some s) true d 3000) as [[r q] d'].
  simpl in *. congruence.
Defined.

(** *** The tail, call after call *)

(** With a size that is not negative no conversion of the routine wraps:
    it returns a number of bytes between 0 and [siz], moves the tail on by
    that number around the end of the buffer, and copies nothing only when
    there is nothing to copy or the tail has caught up with the read
    position. *)
Lemma write_sb_common_tail dma_size dma_pos tail siz :
  0 <= dma_pos <= dma_size -> dma_size < 2 ^ 32 ->
  0 <= tail <= dma_size -> 0 <= siz < 2 ^ 31 ->
  let r := write_sb_common dma_size dma_pos tail siz in
  let pos := round256 dma_pos in
  0 <= ret r <= siz /\
  (tail' r = tail + ret r \/ tail' r = tail + ret r - dma_size) /\
  (ret r = 0 <-> siz = 0 \/ tail = pos \/ (tail = dma_size /\ pos = 0)) /\
  (0 < siz -> ret r = 0 -> tail' r = pos).
Proof.
  intros Hpos Hsize Htail Hsiz r pos.
  pose proof (round256_bounds dma_pos ltac:(lia)) as Hr.
  subst r. unfold write_sb_common. fold pos.
  unfold uint32, sint32.
  change (2 ^ 32) with 4294967296 in *. change (2 ^ 31) with 2147483648 in *.
  case_compare; simpl.
  all: split_and!; try split; intros.
  all: repeat match goal with
              | H : context [Z.gtb ?a ?b] |- _ =>
                  rewrite (Z.gtb_ltb a b) in H; revert H;
                  destruct (Z.ltb_spec b a); intro
              end.
  all: Z.div_mod_to_equations; lia.
Qed.

(** X1: the ring arithmetic of [write_sb_common].  For a size that is not
    negative the value returned lies between 0 and [siz], and the new tail is
    the old tail plus the value returned, modulo the size of the DMA buffer:
    the tail runs around the ring by exactly the bytes copied. *)
Theorem write_sb_common_advances_tail dma_size dma_pos tail siz :
  0 <= dma_pos <= dma_size -> 0 < dma_size < 2 ^ 32 ->
  0 <= tail <= dma_size -> 0 <= siz < 2 ^ 31 ->
  let r := write_sb_common dma_size dma_pos tail siz in
  0 <= ret r <= siz /\
  (tail' r = tail + ret r \/ tail' r = tail + ret r - dma_size) /\
  tail' r mod dma_size = (tail + ret r) mod dma_size.
Proof.
  intros Hpos Hsize Htail Hsiz r.
  destruct (write_sb_common_tail dma_size dma_pos tail siz Hpos ltac:(lia) Htail Hsiz)
    as (Hret & Hadv & _).
  fold r in Hret, Hadv. split; [done|]. split; [done|].
  destruct Hadv as [->| ->]; [done|].
  replace (tail + ret r - dma_size) with (tail + ret r + (-1) * dma_size) by lia.
  apply Z.mod_add. lia.
Qed.

(** X2: progress of [write_sb_common].  Given at least one byte, the
    routine returns 0 exactly when the tail has caught up with the rounded
    read position: either the two are equal, or the tail stands at the end of
    the buffer and the position at its start.  After such a call the tail is
    that position; in every other case at least one byte is copied. *)
Theorem write_sb_common_stalls_when_caught_up dma_size dma_pos tail siz :
  0 <= dma_pos <= dma_size -> dma_size < 2 ^ 32 ->
  0 <= tail <= dma_size -> 0 < siz < 2 ^ 31 ->
  let r := write_sb_common dma_size dma_pos tail siz in
  let pos := round256 dma_pos in
  (ret r = 0 <-> tail = pos \/ (tail = dma_size /\ pos = 0)) /\
  (ret r = 0 -> tail' r = pos) /\
  (ret r <> 0 -> 1 <= ret r <= siz).
Proof.
  intros Hpos Hsize Htail Hsiz r pos.
  destruct (write_sb_common_tail dma_size dma_pos tail siz Hpos Hsize Htail
              ltac:(lia)) as (Hret & _ & Hzero & Hstay).
  fold r pos in Hret, Hzero, Hstay.
  split; [|split; [apply Hstay; lia|lia]].
  rewrite Hzero. split; [intros [?|H]; [lia|done]|intros H; by right].
Qed.

(** *** The loop of [write_sb_output] *)

Lemma memcpy_drop dst doff src i soff n :
  0 <= i -> 0 <= soff ->
  memcpy dst doff (drop (Z.to_nat i) src) soff n = memcpy dst doff src (i + soff) n.
Proof.
  intros Hi Hs. unfold memcpy. by rewrite drop_drop, (Z2Nat.inj_add i soff).
Qed.

Lemma do_copies_drop data i cs : forall mem,
  0 <= i -> Forall (fun c => 0 <= src_off c) cs ->
  do_copies (drop (Z.to_nat i) data) mem cs = do_copies data mem (shift i <$> cs).
Proof.
  induction cs as [|c cs IH]; intros mem Hi Hall; [done|].
  apply Forall_cons in Hall as [Hc Hall].
  unfold do_copies in *. simpl. rewrite IH by done.
  f_equal. unfold do_copy. simpl. by apply memcpy_drop.
Qed.

Lemma do_copies_app data mem cs1 cs2 :
  do_copies data mem (cs1 ++ cs2) = do_copies data (do_copies data mem cs1) cs2.
Proof. apply foldl_app. Qed.

Lemma copied_app cs1 cs2 : copied (cs1 ++ cs2) = copied cs1 + copied cs2.
Proof.
  unfold copied. induction cs1 as [|c cs1 IH]; simpl; [done|]. rewrite IH. lia.
Qed.

Lemma copied_shift i cs : copied (shift i <$> cs) = copied cs.
Proof.
  unfold copied. induction cs as [|c cs IH]; simpl; [done|]. f_equal. exact IH.
Qed.

Lemma consecutive_nonneg cs : forall start,
  0 <= start -> consecutive start cs -> Forall (fun c => 0 <= src_off c) cs.
Proof.
  induction cs as [|c cs IH]; intros start Hs Hc; [done|].
  destruct Hc as (Hsrc & Hlen & Hrest).
  constructor; [lia|]. apply (IH (start + len c)); [lia|done].
Qed.

Lemma consecutive_shift i cs : forall start,
  consecutive start cs -> consecutive (i + start) (shift i <$> cs).
Proof.
  induction cs as [|c cs IH]; intros start Hc; [done|].
  destruct Hc as (Hsrc & Hlen & Hrest). simpl.
  split; [lia|]. split; [done|].
  rewrite <- Z.add_assoc. by apply IH.
Qed.

Lemma consecutive_app cs1 cs2 : forall start,
  consecutive start cs1 -> consecutive (start + copied cs1) cs2 ->
  consecutive start (cs1 ++ cs2).
Proof.
  induction cs1 as [|c cs1 IH]; intros start Hc1 Hc2; simpl in *.
  - by rewrite Z.add_0_r in Hc2.
  - destruct Hc1 as (Hsrc & Hlen & Hrest). split; [done|]. split; [done|].
    apply IH; [done|]. by rewrite <- Z.add_assoc.
Qed.

Lemma inside_shift n i cs : Forall (inside n) cs -> Forall (inside n) (shift i <$> cs).
Proof. intros Hall. apply Forall_fmap. by eapply Forall_impl. Qed.

(** One pass of the loop on the driver state. *)
Lemma write_sb_common_pass dma_pos d data siz :
  well_formed d -> 0 <= dma_pos <= size (dma_buff (sb d)) ->
  0 <= siz < 2 ^ 31 -> siz <= Z.of_nat (length data) ->
  let r := write_sb_common (size (dma_buff (sb d))) dma_pos (buff_tail d) siz in
  let d' := (write_sb_common_st dma_pos d data siz).2 in
  (write_sb_common_st dma_pos d data siz).1 = ret r /\
  0 <= ret r <= siz /\ copied (copies r) = ret r /\ consecutive 0 (copies r) /\
  Forall (inside (size (dma_buff (sb d)))) (copies r) /\
  well_formed d' /\ size (dma_buff (sb d')) = size (dma_buff (sb d)) /\
  caps (sb d') = caps (sb d) /\
  hw_log d' = hw_log d ++ [Sb_query_dma (size (dma_buff (sb d))) dma_pos] /\
  linear (dma_buff (sb d')) = do_copies data (linear (dma_buff (sb d))) (copies r).
Proof.
  intros (Hlen & Hsize & Htail) Hpos Hsiz Hdata r d'.
  pose proof (round256_bounds dma_pos ltac:(lia)) as Hr.
  destruct (write_sb_common_cases (size (dma_buff (sb d))) dma_pos (buff_tail d) siz
              Hpos Hsize Htail ltac:(lia)) as [Hnew Hshape].
  destruct (write_sb_common_keeps_unread dma_pos d data siz Hlen Hpos Hsize Htail
              Hsiz Hdata) as [Hkeep _].
  fold r in Hnew, Hshape. fold d' in Hkeep.
  assert (Hd' : d' = {| sb := set_linear (sb d)
                             (do_copies data (linear (dma_buff (sb d))) (copies r));
                       buff_tail := tail' r;
                       hw_log := hw_log d
                                   ++ [Sb_query_dma (size (dma_buff (sb d))) dma_pos] |})
    by reflexivity.
  split; [reflexivity|].
  clearbody d' r. subst d'. unfold well_formed, inside. simpl in *.
  unfold inside.
  destruct (copies r) as [|c1 [|c2 [|c3 cs]]]; simpl in *; [| | |done].
  - destruct Hshape as [_ ->]. split_and!; try done; lia.
  - destruct Hshape as (Hd & Hs & Hl & _ & Hfit & Hret).
    specialize (Hret ltac:(lia)).
    assert (dst_off c1 + len c1 <= size (dma_buff (sb d)))
      by (revert Hfit; case_compare; lia).
    split_and!; try done; try lia. repeat constructor; lia.
  - destruct Hshape as (_ & Hd1 & Hs1 & Hl1 & Hd2 & Hs2 & Hl2 & Hret).
    specialize (Hret ltac:(lia)).
    split_and!; try done; try lia. repeat constructor; lia.
Qed.

(** The loop returns only when every byte has been copied: the copies of all
    its passes, seen from the start of the data, follow one another and add
    up to [siz]. *)
Lemma write_sb_loop_trace hw : forall d data siz v d',
  well_formed d ->
  Forall (fun p => 0 <= p <= size (dma_buff (sb d))) hw ->
  0 <= siz < 2 ^ 31 -> siz <= Z.of_nat (length data) ->
  write_sb_loop hw d data siz = Some (v, d') ->
  v = 0 /\ well_formed d' /\
  size (dma_buff (sb d')) = size (dma_buff (sb d)) /\
  caps (sb d') = caps (sb d) /\
  (exists polls,
     hw_log d' = hw_log d ++ polls /\ Forall is_query polls /\
     (1 <= length polls <= length hw)%nat) /\
  exists cs,
    consecutive 0 cs /\ copied cs = siz /\
    Forall (inside (size (dma_buff (sb d)))) cs /\
    linear (dma_buff (sb d')) = do_copies data (linear (dma_buff (sb d))) cs.
Proof.
  induction hw as [|dma_pos hw IH]; intros d data siz v d' Hwf Hhw Hsiz Hdata;
    [discriminate|].
  apply Forall_cons in Hhw as [Hpos Hhw].
  destruct (write_sb_common_pass dma_pos d data siz Hwf Hpos Hsiz Hdata)
    as (Hi & Hret & Hsum & Hcons & Hin & Hwf1 & Hsize1 & Hcaps1 & Hlog1 & Hmem1).
  cbn [write_sb_loop].
  destruct (write_sb_common_st dma_pos d data siz) as [i d1]. simpl in *. subst i.
  set (r := write_sb_common (size (dma_buff (sb d))) dma_pos (buff_tail d) siz) in *.
  rewrite sint32_small by lia.
  destruct (Z.leb_spec (siz - ret r) 0) as [Hdone|Hmore].
  - intros [= <- <-]. split_and!; try done.
    + eexists. split; [exact Hlog1|]. split; [by repeat constructor|simpl; lia].
    + exists (copies r). split_and!; try done. lia.
  - intros Hrun.
    apply IH in Hrun
      as (-> & Hwf' & Hsize' & Hcaps' & (polls & Hlog' & Hq & Hn) & cs
          & Hc & Hs & Hi' & Hm);
      [|done|by rewrite Hsize1|lia|rewrite length_drop; lia].
    split_and!; try done; try congruence.
    { eexists. rewrite Hlog', Hlog1, <- app_assoc. split; [done|].
      split; [by constructor|simpl; lia]. }
    exists (copies r ++ (shift (ret r) <$> cs)). split_and!.
    + apply consecutive_app; [done|].
      rewrite Z.add_0_l, Hsum.
      pose proof (consecutive_shift (ret r) cs 0 Hc) as Hsh.
      by rewrite Z.add_0_r in Hsh.
    + rewrite copied_app, copied_shift. lia.
    + apply Forall_app. split; [done|]. apply inside_shift. by rewrite <- Hsize1.
    + rewrite Hm, Hmem1, do_copies_app.
      apply do_copies_drop; [lia|]. by apply (consecutive_nonneg cs 0).
Qed.

Lemma conv_stereo_after n k mem (j : nat) :
  (k + n <= j)%nat -> conv_stereo n k mem !! j = mem !! j.
Proof.
  revert k mem. induction n as [|n IH]; intros k mem Hj; simpl; [done|].
  rewrite IH by lia. apply list_lookup_insert_ne. lia.
Qed.

Lemma conv_mono_after n k mem (j : nat) :
  (k + n <= j)%nat -> conv_mono n k mem !! j = mem !! j.
Proof.
  revert k mem. induction n as [|n IH]; intros k mem Hj; simpl; [done|].
  rewrite IH by lia. apply list_lookup_insert_ne. lia.
Qed.

Section RingProperties.

Variables SBMODE_16BITS SBMODE_STEREO SBMODE_SIGNED : Z.

Lemma sb_convert_size caps data siz :
  0 <= siz ->
  let conv := sb_convert SBMODE_16BITS SBMODE_STEREO caps data siz in
  length conv.1 = length data /\ 0 <= conv.2 <= siz.
Proof.
  intros Hsiz. unfold sb_convert.
  destruct (truthy (Z.land caps SBMODE_16BITS)); [simpl; lia|].
  destruct (truthy (Z.land caps SBMODE_STEREO)); simpl;
    rewrite ?conv_stereo_length, ?conv_mono_length, Z.quot_div_nonneg by lia;
    (split; [done|]); Z.div_mod_to_equations; lia.
Qed.

(** X3: [write_sb_output] returns, always with 0, only when the whole
    converted buffer has gone into the DMA buffer.  The copies of all passes
    of its loop take their bytes from the converted data one after the other,
    starting at its first byte, and add up to the converted size ([siz],
    [siz / 2] or [siz / 4] bytes); each stays inside the DMA buffer, whose
    memory afterwards is the result of these copies in order.  The hardware
    layer is called once in every pass, to ask for the DMA position, and not
    otherwise; the tail ends within the buffer, whose size is unchanged. *)
Theorem write_sb_output_delivers hw d data siz ret d' :
  well_formed d ->
  Forall (fun p => 0 <= p <= size (dma_buff (sb d))) hw ->
  0 <= siz < 2 ^ 31 -> siz <= Z.of_nat (length data) ->
  write_sb_output SBMODE_16BITS SBMODE_STEREO hw d data siz = Some (ret, d') ->
  let conv := sb_convert SBMODE_16BITS SBMODE_STEREO (caps (sb d)) data siz in
  ret = 0 /\
  (exists polls,
     hw_log d' = hw_log d ++ polls /\ Forall is_query polls /\
     (1 <= length polls <= length hw)%nat) /\
  0 <= buff_tail d' <= size (dma_buff (sb d)) /\
  size (dma_buff (sb d')) = size (dma_buff (sb d)) /\
  exists cs,
    consecutive 0 cs /\ copied cs = conv.2 /\
    Forall (inside (size (dma_buff (sb d)))) cs /\
    linear (dma_buff (sb d')) = do_copies conv.1 (linear (dma_buff (sb d))) cs.
Proof.
  intros Hwf Hhw Hsiz Hdata Hrun conv.
  destruct (sb_convert_size (caps (sb d)) data siz ltac:(lia)) as [Hlen Hn].
  fold conv in Hlen, Hn. unfold write_sb_output in Hrun. fold conv in Hrun.
  destruct conv as [out n]. simpl in *.
  apply write_sb_loop_trace in Hrun
    as (-> & (_ & _ & Htail) & Hsize & _ & Hlog & cs & Hcs);
    [|done|done|lia|lia].
  split; [done|]. split; [done|]. rewrite Hsize in Htail.
  split; [done|]. split; [done|]. by exists cs.
Qed.

(** X4: what the conversion of [write_sb_output] touches.  [data] lists the
    memory from the caller's pointer on: the [siz] bytes of the buffer and at
    least one byte behind them.  The memory keeps its length; in 16-bit mode
    it is left as it is; in the 8-bit modes the loop runs for [i] from the new
    size [n] down to 0, so it rewrites the bytes 0 to [n] inclusive, one more
    than the [n] bytes that are output, and leaves every byte after index [n]
    as it was.  Byte [j], for [j] up to [n], is computed from the sample (or
    the pair of samples) of index [j], wherever the bytes of that sample lie
    in the memory listed; the last byte read for [j = n] lies behind the
    [siz] bytes of the caller. *)
Theorem sb_convert_footprint caps data siz out n :
  0 <= siz < Z.of_nat (length data) ->
  sb_convert SBMODE_16BITS SBMODE_STEREO caps data siz = (out, n) ->
  length out = length data /\
  (Z.land caps SBMODE_16BITS <> 0 -> out = data) /\
  (forall j : nat, n < Z.of_nat j -> out !! j = data !! j) /\
  (Z.land caps SBMODE_16BITS = 0 -> Z.land caps SBMODE_STEREO <> 0 ->
     n = siz / 2 /\ siz <= 2 * n + 1 /\
     forall j : nat, Z.of_nat j <= n -> (2 * j + 1 < length data)%nat ->
       out !! j = Some (uint8 (Z.shiftr (read_s16 data j) 8 + 128))) /\
  (Z.land caps SBMODE_16BITS = 0 -> Z.land caps SBMODE_STEREO = 0 ->
     n = siz / 4 /\ siz <= 4 * n + 3 /\
     forall j : nat, Z.of_nat j <= n -> (4 * j + 3 < length data)%nat ->
       out !! j =
         Some (uint8 (Z.shiftr (sint32 (read_s16 data (2 * j)
                                        + read_s16 data (2 * j + 1))) 9 + 128))).
Proof.
  intros Hsiz. unfold sb_convert, truthy.
  rewrite !Z.quot_div_nonneg by lia.
  destruct (Z.eqb_spec (Z.land caps SBMODE_16BITS) 0) as [H16|H16]; simpl;
    [|by intros [= <- <-]].
  destruct (Z.eqb_spec (Z.land caps SBMODE_STEREO) 0) as [Hst|Hst]; simpl;
    intros [= <- <-].
  - assert (0 <= siz / 4 <= siz /\ siz <= 4 * (siz / 4) + 3)
      by (Z.div_mod_to_equations; lia).
    split; [apply conv_mono_length|]. split; [done|].
    split; [intros j Hj; apply conv_mono_after; lia|].
    split; [done|]. intros _ _. split; [done|]. split; [lia|].
    intros j Hj Hlen. apply conv_mono_at; lia.
  - assert (0 <= siz / 2 <= siz /\ siz <= 2 * (siz / 2) + 1)
      by (Z.div_mod_to_equations; lia).
    split; [apply conv_stereo_length|]. split; [done|].
    split; [intros j Hj; apply conv_stereo_after; lia|].
    split; [|done]. intros _ _. split; [done|]. split; [lia|].
    intros j Hj Hlen. apply conv_stereo_at; lia.
Qed.

Lemma memset_all mem v :
  length (memset mem v (Z.of_nat (length mem))) = length mem.
Proof.
  unfold memset. rewrite Nat2Z.id, Nat.min_id, drop_all, app_nil_r.
  apply length_replicate.
Qed.

(** X5: what the copy routine relies on is kept.  If the DMA memory is as
    long as its recorded size and [buff_tail] lies within it, the same holds
    after a [write_sb_output] that returns, in each of the three sample
    modes and whatever positions within the buffer the hardware reported, and
    after [pause_sb_output], which leaves the tail where it is. *)
Theorem well_formed_kept d :
  well_formed d ->
  (forall hw data siz ret d',
     Forall (fun p => 0 <= p <= size (dma_buff (sb d))) hw ->
     0 <= siz < 2 ^ 31 -> siz <= Z.of_nat (length data) ->
     write_sb_output SBMODE_16BITS SBMODE_STEREO hw d data siz = Some (ret, d') ->
     well_formed d' /\ size (dma_buff (sb d')) = size (dma_buff (sb d))) /\
  well_formed (pause_sb_output SBMODE_16BITS d) /\
  buff_tail (pause_sb_output SBMODE_16BITS d) = buff_tail d.
Proof.
  intros Hwf. split_and!; try done.
  - intros hw data siz ret d' Hhw Hsiz Hdata Hrun.
    destruct (sb_convert_size (caps (sb d)) data siz ltac:(lia)) as [Hlen Hn].
    unfold write_sb_output in Hrun.
    destruct (sb_convert _ _ _ _ _) as [out n]. simpl in *.
    apply write_sb_loop_trace in Hrun as (_ & Hwf' & Hsize' & _);
      [done|done|done|lia|lia].
  - destruct Hwf as (Hlen & Hsize & Htail).
    unfold well_formed, pause_sb_output. simpl.
    rewrite <- Hlen at 1. rewrite memset_all. done.
Qed.

(** X6: how [open_sb_output] ends.  It returns 0 when the card is found and
    the DMA transfer starts, and -1 otherwise.  When the card is not found,
    nothing but [sb_open] has been called, and [*rate] and the driver's state
    are as before.  When the transfer does not start, the speaker is turned
    off again and the card is closed, these being the last two hardware calls,
    without [sb_stop_dma]; [*rate] has been clamped all the same. *)
Theorem open_sb_output_failure detected dma_ok d rate :
  let res := open_sb_output SBMODE_16BITS SBMODE_STEREO SBMODE_SIGNED
               detected dma_ok d rate in
  (res.1.1 = 0 <-> is_Some detected /\ dma_ok = true) /\
  (res.1.1 <> 0 -> res.1.1 = -1) /\
  (detected = None ->
     res.1.2 = rate /\ sb res.2 = sb d /\ buff_tail res.2 = buff_tail d /\
     hw_log res.2 = hw_log d ++ [Sb_open]) /\
  (forall s, detected = Some s -> dma_ok = false ->
     res.1.2 = (open_sb_output SBMODE_16BITS SBMODE_STEREO SBMODE_SIGNED
                  detected true d rate).1.2 /\
     exists mode,
       hw_log res.2 = hw_log d ++ [Sb_open; Sb_output true;
                                   Sb_start_dma mode res.1.2;
                                   Sb_output false; Sb_close]).
Proof.
  intros res. subst res. unfold open_sb_output.
  destruct detected as [s|], dma_ok; simpl; split_and!; try done.
  all: try (split; [done|]; ((by intros [_ [=]]) || (by intros [[? [=]] _]))).
  intros s' [= <-] _. split; [done|].
  eexists. rewrite <- app_assoc. reflexivity.
Qed.

End RingProperties.

(** *** Where the bytes land, and waiting for the hardware *)

Lemma memcpy_inside dst doff src soff n (o : nat) :
  0 <= doff -> 0 <= n -> 0 <= soff ->
  doff + n <= Z.of_nat (length dst) -> soff + n <= Z.of_nat (length src) ->
  doff <= Z.of_nat o < doff + n ->
  memcpy dst doff src soff n !! o = src !! Z.to_nat (soff + Z.of_nat o - doff).
Proof.
  intros Hd Hn Hs Hfit Hsrc Hin. unfold memcpy.
  rewrite lookup_app_r by (rewrite length_take; lia).
  rewrite lookup_app_l by (rewrite !length_take, length_drop; lia).
  rewrite lookup_take_lt by (rewrite length_take; lia).
  rewrite lookup_drop. f_equal. rewrite length_take. lia.
Qed.

(** X7: where [write_sb_common] puts the caller's bytes.  Byte [k] of the
    data, for every [k] below the value returned, is afterwards found in the
    DMA buffer at offset [buff_tail + k] counted around the ring, with
    [buff_tail] as it was at the call: the bytes lie in the buffer in the
    order of the data, starting at the old tail and continuing at offset 0
    when the end of the buffer is reached. *)
Theorem write_sb_common_st_places_bytes dma_pos d data siz :
  well_formed d -> 0 < size (dma_buff (sb d)) ->
  0 <= dma_pos <= size (dma_buff (sb d)) ->
  0 <= siz < 2 ^ 31 -> siz <= Z.of_nat (length data) ->
  let res := write_sb_common_st dma_pos d data siz in
  forall k : nat, Z.of_nat k < res.1 ->
    linear (dma_buff (sb res.2))
      !! Z.to_nat ((buff_tail d + Z.of_nat k) mod size (dma_buff (sb d)))
    = data !! k.
Proof.
  intros (Hlen & Hsize & Htail) Hbuf Hpos Hsiz Hdata res k.
  pose proof (round256_bounds dma_pos ltac:(lia)) as Hr.
  destruct (write_sb_common_cases (size (dma_buff (sb d))) dma_pos (buff_tail d) siz
              Hpos Hsize Htail ltac:(lia)) as [_ Hshape].
  subst res. unfold write_sb_common_st. simpl.
  set (n := size (dma_buff (sb d))) in *. set (t := buff_tail d) in *.
  set (mem := linear (dma_buff (sb d))) in *.
  destruct (copies _) as [|c1 [|c2 [|c3 cs]]]; simpl in *; [| | |done].
  - destruct Hshape as [_ ->]. lia.
  - destruct Hshape as (Hd & Hs & Hl & _ & Hfit & Hret).
    destruct (Hret ltac:(lia)) as [Hle ->]. intros Hk.
    assert (dst_off c1 + len c1 <= n) by (revert Hfit; case_compare; lia).
    rewrite Z.mod_small by lia. unfold do_copy.
    rewrite memcpy_inside by lia. f_equal. lia.
  - destruct Hshape as (Hlt & Hd1 & Hs1 & Hl1 & Hd2 & Hs2 & Hl2 & Hret).
    destruct (Hret ltac:(lia)) as [Hle ->]. intros Hk. unfold do_copy.
    assert (Hlen1 : length (memcpy mem (dst_off c1) data (src_off c1) (len c1))
                    = length mem) by (apply memcpy_length; lia).
    destruct (Z.lt_ge_cases (Z.of_nat k) (len c1)) as [Hfirst|Hsecond].
    + rewrite Z.mod_small by lia.
      rewrite memcpy_outside by lia.
      rewrite memcpy_inside by lia. f_equal. lia.
    + replace (t + Z.of_nat k) with (t + Z.of_nat k - n + 1 * n) by lia.
      rewrite Z.mod_add, Z.mod_small by lia.
      rewrite memcpy_inside by lia. f_equal. lia.
Qed.

(** X8: the loop of [write_sb_output] waits for the hardware.  While the
    position the hardware reports, rounded down to a multiple of 256, is the
    tail, a pass copies nothing and leaves the tail where it is; so with
    bytes to write the loop does not return, however many times it asks, as
    long as every position it reads rounds to the tail. *)
Theorem write_sb_loop_waits_for_hardware hw : forall d data siz,
  Forall (fun p => round256 p = buff_tail d) hw ->
  0 < siz < 2 ^ 31 ->
  write_sb_loop hw d data siz = None.
Proof.
  induction hw as [|p hw IH]; intros d data siz Hhw Hsiz; [done|].
  apply Forall_cons in Hhw as [Hp Hhw].
  cbn [write_sb_loop]. unfold write_sb_common_st, write_sb_common.
  rewrite Hp, Z.eqb_refl. cbn [ret tail' copies].
  rewrite Z.sub_0_r, sint32_small by lia.
  destruct (Z.leb_spec siz 0); [lia|].
  apply IH; [exact Hhw|done].
Qed.

(** X9: a size below zero.  [write_sb_common] compares the size as
    unsigned, so a negative size counts as a number of at least 2^31: the
    routine then fills the whole span between the tail and the rounded read
    position from the caller's data, whatever the caller's buffer holds, and
    returns the length of that span. *)
Theorem write_sb_common_negative_size dma_size dma_pos tail siz :
  0 <= dma_pos <= dma_size -> dma_size <= 2 ^ 30 ->
  0 <= tail <= dma_size -> - 2 ^ 31 <= siz < 0 ->
  let r := write_sb_common dma_size dma_pos tail siz in
  let pos := round256 dma_pos in
  copied (copies r) = (if tail =? pos then 0 else free_span dma_size pos tail) /\
  ret r = copied (copies r).
Proof.
  intros Hpos Hsize Htail Hsiz r pos.
  pose proof (round256_bounds dma_pos ltac:(lia)) as Hr.
  subst r. unfold write_sb_common, free_span, copied. fold pos.
  unfold uint32, sint32.
  change (2 ^ 32) with 4294967296 in *. change (2 ^ 31) with 2147483648 in *.
  change (2 ^ 30) with 1073741824 in *.
  case_compare; simpl.
  all: repeat match goal with
              | H : context [Z.gtb ?a ?b] |- _ =>
                  rewrite (Z.gtb_ltb a b) in H; revert H;
                  destruct (Z.ltb_spec b a); intro
              end.
  all: split; Z.div_mod_to_equations; lia.
Qed.

(** The card of the examples above, its tail at 768 and the hardware at 520:
    a call with 300 bytes in 16-bit mode. *)
Definition demo_driver : driver :=
  {| sb := {| caps := 3; maxfreq_mono := 45454; maxfreq_stereo := 45454;
              dma_buff := {| linear := replicate 1024 0; size := 1024 |};
              timer_callback := false |};
     buff_tail := 768; hw_log := [] |}.

Definition demo_written : driver :=
  Eval vm_compute in
    default demo_driver
      (snd <$> write_sb_output 1 2 [520] demo_driver (replicate 300 7) 300).

Lemma write_sb_common_advances_tail_witness :
  let r := write_sb_common 4096 1000 3000 2000 in
  ret r = 1864 /\ tail' r = 768 /\
  tail' r mod 4096 = (3000 + ret r) mod 4096.
Proof.
  split; [reflexivity|]. split; [reflexivity|].
  apply (write_sb_common_advances_tail 4096 1000 3000 2000); lia.
Defined.

Lemma write_sb_common_stalls_when_caught_up_witness :
  let r := write_sb_common 4096 100 4096 2000 in
  ret r = 0 /\ tail' r = 0 /\
  (ret r = 0 <-> 4096 = round256 100 \/ (4096 = 4096 /\ round256 100 = 0)).
Proof.
  split; [reflexivity|]. split; [reflexivity|].
  apply (write_sb_common_stalls_when_caught_up 4096 100 4096 2000); lia.
Defined.

Lemma demo_driver_well_formed : well_formed demo_driver.
Proof. vm_compute. repeat split; discriminate. Defined.

Lemma demo_positions :
  Forall (fun p => 0 <= p <= size (dma_buff (sb demo_driver))) [520].
Proof. repeat constructor; vm_compute; discriminate. Defined.

Lemma demo_written_run :
  write_sb_output 1 2 [520] demo_driver (replicate 300 7) 300
  = Some (0, demo_written).
Proof. vm_compute. reflexivity. Defined.

Lemma write_sb_output_delivers_witness :
  buff_tail demo_written = 44 /\
  hw_log demo_written = [Sb_query_dma 1024 520] /\
  exists cs,
    consecutive 0 cs /\ copied cs = 300 /\
    linear (dma_buff (sb demo_written))
    = do_copies (replicate 300 7) (linear (dma_buff (sb demo_driver))) cs.
Proof.
  split; [reflexivity|]. split; [reflexivity|].
  destruct (write_sb_output_delivers 1 2 [520] demo_driver (replicate 300 7) 300 0
              demo_written demo_driver_well_formed demo_positions ltac:(lia)
              ltac:(simpl; lia) demo_written_run)
    as (_ & _ & _ & _ & cs & Hc & Hsum & _ & Hmem).
  exists cs. split; [exact Hc|]. split; [exact Hsum|exact Hmem].
Defined.

Lemma well_formed_kept_witness :
  well_formed demo_written /\
  size (dma_buff (sb demo_written)) = size (dma_buff (sb demo_driver)).
Proof.
  exact (proj1 (well_formed_kept 1 2 demo_driver demo_driver_well_formed)
           [520] (replicate 300 7) 300 0 demo_written demo_positions
           ltac:(lia) ltac:(simpl; lia) demo_written_run).
Defined.

(** The eight bytes of the examples above with the two bytes 52, 18 behind
    them in memory: the last pass reads these two as a sample (0x1234) and
    writes [0x12 + 128] into byte 4 of the caller's buffer. *)
Lemma sb_convert_footprint_witness :
  let data := [232; 3; 24; 252; 208; 7; 48; 248; 52; 18] in
  let out := [131; 124; 135; 120; 146; 7; 48; 248; 52; 18] in
  length out = length data /\
  out !! 4%nat = Some (uint8 (Z.shiftr (read_s16 data 4) 8 + 128)) /\
  out !! 5%nat = data !! 5%nat.
Proof.
  intros data out.
  destruct (sb_convert_footprint 1 2 2 data 8 out 4 ltac:(simpl; lia) eq_refl)
    as (Hlen & _ & Hrest & Hextra & _).
  split; [exact Hlen|]. split.
  - exact (proj2 (proj2 (Hextra eq_refl ltac:(discriminate)))
             4%nat ltac:(lia) ltac:(simpl; lia)).
  - exact (Hrest 5%nat ltac:(lia)).
Defined.

Lemma write_sb_common_st_places_bytes_witness :
  linear (dma_buff (sb demo_written)) !! Z.to_nat ((768 + Z.of_nat 299) mod 1024)
  = replicate 300 7 !! 299%nat.
Proof.
  refine (write_sb_common_st_places_bytes 520 demo_driver (replicate 300 7) 300
            _ _ _ _ _ 299%nat _).
  - vm_compute; repeat split; discriminate.
  - reflexivity.
  - vm_compute; split; discriminate.
  - lia.
  - simpl. lia.
  - vm_compute. reflexivity.
Defined.

Lemma write_sb_loop_waits_for_hardware_witness :
  write_sb_loop [800; 900; 1000] demo_driver (replicate 300 7) 300 = None.
Proof.
  apply write_sb_loop_waits_for_hardware; [|lia].
  repeat constructor.
Defined.

Lemma write_sb_common_negative_size_witness :
  let r := write_sb_common 4096 1000 3000 (-1) in
  ret r = 1864 /\
  copied (copies r)
  = (if 3000 =? round256 1000 then 0 else free_span 4096 (round256 1000) 3000).
Proof.
  split; [reflexivity|].
  apply (write_sb_common_negative_size 4096 1000 3000 (-1)); lia.
Defined.

End DosSB.

(** ** The OS/2 DART driver ([out_dart.c]) *)

Module Dart.

Definition BUFFERCOUNT : Z := 4.

(** Calls into OS/2 and the C library. *)
Inductive os_call :=
| Create_mutex
| Mci_open
| Mci_mixsetup (device : Z)
| Mci_buffer_allocate (device count size : Z)
| Mci_buffer_deallocate (device : Z)
| Mci_close (device : Z)
| Mix_write (first count : Z)       (* [pmixWrite (handle, &MixBuffers[first], count)] *)
| Mem_set (slot len : Z)            (* [memset (MixBuffers[slot].pBuffer, 0, len)] *)
| Mem_copy (slot offset len : Z)    (* [memcpy (&MixBuffers[slot].pBuffer[offset], data, len)] *)
| Dos_sleep (ms : Z)
| Print_shutdown.

(** Where the thread that calls [write_dart_output] stands. *)
Inductive label :=
| L_idle      (* outside [write_dart_output] *)
| L_check     (* [if (idx + output_size > bsize)] *)
| L_poll      (* request mutex, test [ready != 0], release mutex *)
| L_sleep     (* [DosSleep (20)] *)
| L_setlen    (* [MixBuffers[next].ulBufferLength = idx] *)
| L_submit    (* [pmixWrite (handle, &MixBuffers[next], 1)] *)
| L_dec       (* [ready--], first half: the load of [ready] *)
| L_store     (* [ready--], second half: the store of the value loaded, less one *)
| L_inc       (* [next++] *)
| L_reset     (* [idx = 0] *)
| L_wrap      (* [if (next == BUFFERCOUNT) next = 0] *)
| L_copy      (* [memcpy] *)
| L_add.      (* [idx += output_size; return 0] *)

(** The driver's static variables, the writer thread, the callback, and the
    mixer's queue.  [ready] is a plain [short]: [ready--] and [ready++] are
    each a load followed by a store.  [loaded] is what the writer's [ready--]
    has loaded.  [callback] is [Some v] while [OS2_Dart_UpdateBuffers] holds
    [dart_mutex] and has loaded [v] from [ready] without having stored yet.
    [playing] lists the slots handed to [pmixWrite] that DART is not done
    with or whose completion the callback is still counting, oldest first. *)
Record world := {
  DeviceID : Z;
  bsize : Z;
  next : Z;
  ready : Z;
  idx : Z;                 (* the [static int idx] of [write_dart_output] *)
  marker : bool;           (* [MixBuffers[0].pBuffer != NULL] *)
  buflen : list Z;         (* [MixBuffers[i].ulBufferLength] *)
  at_label : label;
  output_size : Z;
  loaded : Z;
  callback : option Z;
  playing : list Z;
  log : list os_call
}.

(** The program before [open_dart_output]: the initialisers of the statics. *)
Definition initial : world :=
  {| DeviceID := 0; bsize := 16; next := 2; ready := 1; idx := 0;
     marker := false; buflen := [0; 0; 0; 0];
     at_label := L_idle; output_size := 0; loaded := 0; callback := None;
     playing := []; log := [] |}.

Definition set_DeviceID (v : Z) (w : world) : world :=
  {| DeviceID := v; bsize := bsize w; next := next w; ready := ready w;
     idx := idx w; marker := marker w; buflen := buflen w;
     at_label := at_label w; output_size := output_size w;
     loaded := loaded w; callback := callback w;
     playing := playing w; log := log w |}.

Definition set_bsize (v : Z) (w : world) : world :=
  {| DeviceID := DeviceID w; bsize := v; next := next w; ready := ready w;
     idx := idx w; marker := marker w; buflen := buflen w;
     at_label := at_label w; output_size := output_size w;
     loaded := loaded w; callback := callback w;
     playing := playing w; log := log w |}.

Definition set_next (v : Z) (w : world) : world :=
  {| DeviceID := DeviceID w; bsize := bsize w; next := v; ready := ready w;
     idx := idx w; marker := marker w; buflen := buflen w;
     at_label := at_label w; output_size := output_size w;
     loaded := loaded w; callback := callback w;
     playing := playing w; log := log w |}.

Definition set_ready (v : Z) (w : world) : world :=
  {| DeviceID := DeviceID w; bsize := bsize w; next := next w; ready := v;
     idx := idx w; marker := marker w; buflen := buflen w;
     at_label := at_label w; output_size := output_size w;
     loaded := loaded w; callback := callback w;
     playing := playing w; log := log w |}.

Definition set_idx (v : Z) (w : world) : world :=
  {| DeviceID := DeviceID w; bsize := bsize w; next := next w; ready := ready w;
     idx := v; marker := marker w; buflen := buflen w;
     at_label := at_label w; output_size := output_size w;
     loaded := loaded w; callback := callback w;
     playing := playing w; log := log w |}.

Definition set_marker (v : bool) (w : world) : world :=
  {| DeviceID := DeviceID w; bsize := bsize w; next := next w; ready := ready w;
     idx := idx w; marker := v; buflen := buflen w;
     at_label := at_label w; output_size := output_size w;
     loaded := loaded w; callback := callback w;
     playing := playing w; log := log w |}.

Definition set_buflen (v : list Z) (w : world) : world :=
  {| DeviceID := DeviceID w; bsize := bsize w; next := next w; ready := ready w;
     idx := idx w; marker := marker w; buflen := v;
     at_label := at_label w; output_size := output_size w;
     loaded := loaded w; callback := callback w;
     playing := playing w; log := log w |}.

Definition goto (l : label) (w : world) : world :=
  {| DeviceID := DeviceID w; bsize := bsize w; next := next w; ready := ready w;
     idx := idx w; marker := marker w; buflen := buflen w;
     at_label := l; output_size := output_size w;
     loaded := loaded w; callback := callback w;
     playing := playing w; log := log w |}.

Definition set_output_size (v : Z) (w : world) : world :=
  {| DeviceID := DeviceID w; bsize := bsize w; next := next w; ready := ready w;
     idx := idx w; marker := marker w; buflen := buflen w;
     at_label := at_label w; output_size := v;
     loaded := loaded w; callback := callback w;
     playing := playing w; log := log w |}.

Definition set_loaded (v : Z) (w : world) : world :=
  {| DeviceID := DeviceID w; bsize := bsize w; next := next w; ready := ready w;
     idx := idx w; marker := marker w; buflen := buflen w;
     at_label := at_label w; output_size := output_size w;
     loaded := v; callback := callback w;
     playing := playing w; log := log w |}.

Definition set_callback (v : option Z) (w : world) : world :=
  {| DeviceID := DeviceID w; bsize := bsize w; next := next w; ready := ready w;
     idx := idx w; marker := marker w; buflen := buflen w;
     at_label := at_label w; output_size := output_size w;
     loaded := loaded w; callback := v;
     playing := playing w; log := log w |}.

Definition set_playing (v : list Z) (w : world) : world :=
  {| DeviceID := DeviceID w; bsize := bsize w; next := next w; ready := ready w;
     idx := idx w; marker := marker w; buflen := buflen w;
     at_label := at_label w; output_size := output_size w;
     loaded := loaded w; callback := callback w;
     playing := v; log := log w |}.

Definition emit (cs : list os_call) (w : world) : world :=
  {| DeviceID := DeviceID w; bsize := bsize w; next := next w; ready := ready w;
     idx := idx w; marker := marker w; buflen := buflen w;
     at_label := at_label w; output_size := output_size w;
     loaded := loaded w; callback := callback w;
     playing := playing w; log := log w ++ cs |}.

(** *** [open_dart_output]: the buffer size *)

(** The loop [for (i = 15; i >= 12; i--) if (bsize & (1 << i)) break;],
    entered with [i]; the result is [i] when the loop is left. *)
Fixpoint scan_bits (passes : nat) (i bsize : Z) : Z :=
  match passes with
  | O => i
  | S passes' =>
      if i >=? 12 then
        if truthy (Z.land bsize (Z.shiftl 1 i)) then i
        else scan_bits passes' (i - 1) bsize
      else i
  end.

(** Lines 82 to 92: the value of [bsize] for the caller's [*rate]. *)
Definition buffer_size (rate : Z) : Z :=
  let bsize := uint32 (Z.shiftr rate 2) in
  let bsize := uint32 (Z.shiftl bsize 1) in
  let bsize := uint32 (Z.shiftl bsize 1) in
  let i := scan_bits 5 15 bsize in
  let bsize := uint32 (Z.shiftl 1 i) in
  if bsize >? 65536 then 65536 else bsize.

(** The size the design document describes: a quarter of a second of 16-bit
    stereo frames in bytes, rounded down to a power of two, at most 64 KiB. *)
Definition buffer_size_spec (rate : Z) : Z :=
  Z.min (2 ^ Z.log2 (rate / 4 * 4)) 65536.

(** What OS/2 answers during [open_dart_output]. *)
Record os_outcome := {
  mutex_ok : bool;            (* [DosCreateMutexSem] *)
  amp_device : option Z;      (* [MCI_OPEN]: the device id on success *)
  mixsetup_ok : bool;         (* [MCI_MIXSETUP] *)
  buffers_ok : bool           (* [MCI_BUFFER] with [MCI_ALLOCATE_MEMORY] *)
}.

Definition open_dart_output (os : os_outcome) (rate : Z) (w : world) : Z * world :=
  let w := emit [Create_mutex] w in
  if negb (mutex_ok os) then (-1, w)
  else
    let w := set_bsize (buffer_size rate) w in
    let w := set_marker false w in
    let w := emit [Mci_open] w in
    match amp_device os with
    | None => (-1, w)
    | Some id =>
        let w := set_DeviceID id w in
        let w := emit [Mci_mixsetup id] w in
        if negb (mixsetup_ok os) then (-1, emit [Mci_close id] w)
        else
          let w := emit [Mci_buffer_allocate id BUFFERCOUNT (bsize w)] w in
          if negb (buffers_ok os) then (-1, emit [Mci_close id] w)
          else
            let w := set_marker true w in
            let w := set_buflen (replicate (Z.to_nat BUFFERCOUNT) (bsize w)) w in
            let w := emit [Mem_set 0 (bsize w); Mem_set 1 (bsize w); Mix_write 0 2] w in
            let w := set_playing (playing w ++ [0; 1]) w in
            (0, w)
    end.

(** *** [close_dart_output] *)

Definition close_dart_output (w : world) : world :=
  let w := emit [Print_shutdown] w in
  let w :=
    if marker w
    then set_marker false (emit [Mci_buffer_deallocate (DeviceID w)] w)
    else w in
  if truthy (DeviceID w)
  then set_DeviceID 0 (emit [Mci_close (DeviceID w)] w)
  else w.

Definition pause_dart_output (w : world) : world := w.
Definition resume_dart_output (w : world) : world := w.

(** *** The completion callback and [write_dart_output] *)

Section Protocol.

(** Flag and status values of the OS/2 multimedia headers. *)
Variables MIX_WRITE_COMPLETE MIX_STREAM_ERROR ERROR_DEVICE_UNDERRUN : Z.

(** The condition under which the callback counts a buffer as played. *)
Definition write_completed (ulStatus ulFlags : Z) : bool :=
  (ulFlags =? MIX_WRITE_COMPLETE)
  || ((ulFlags =? Z.lor MIX_WRITE_COMPLETE MIX_STREAM_ERROR)
      && (ulStatus =? ERROR_DEVICE_UNDERRUN)).

(** [OS2_Dart_UpdateBuffers] for the oldest buffer of the queue, up to the
    load of [ready]: a buffer that does not count is done with at once; for
    one that counts the callback takes [dart_mutex] and loads [ready]. *)
Definition OS2_Dart_UpdateBuffers (ulStatus ulFlags : Z) (w : world) : world :=
  if write_completed ulStatus ulFlags
  then set_callback (Some (ready w)) w
  else set_playing (tail (playing w)) w.

(** The rest of [ready++]: the store of the value loaded, plus one, after
    which the callback releases [dart_mutex] and the buffer is counted. *)
Definition OS2_Dart_UpdateBuffers_store (v : Z) (w : world) : world :=
  set_callback None (set_playing (tail (playing w)) (set_ready (sint16 (v + 1)) w)).

(** The next statement of [write_dart_output].  The test of [ready] between
    [DosRequestMutexSem] and [DosReleaseMutexSem] is one step, which waits
    while the callback holds the mutex.  [ready--] runs without the mutex: it
    is a load and a store, and a step of the callback can fall between
    them. *)
Definition writer_step (w : world) : option world :=
  match at_label w with
  | L_idle => None
  | L_check =>
      if uint32 (sint32 (idx w + output_size w)) >? bsize w
      then Some (goto L_poll w)
      else Some (goto L_copy w)
  | L_poll =>
      match callback w with
      | Some _ => None
      | None =>
          if truthy (ready w) then Some (goto L_setlen w) else Some (goto L_sleep w)
      end
  | L_sleep => Some (goto L_poll (emit [Dos_sleep 20] w))
  | L_setlen =>
      Some (goto L_submit
              (set_buflen (<[Z.to_nat (next w) := uint32 (idx w)]> (buflen w)) w))
  | L_submit =>
      Some (goto L_dec
              (set_playing (playing w ++ [next w]) (emit [Mix_write (next w) 1] w)))
  | L_dec => Some (goto L_store (set_loaded (ready w) w))
  | L_store => Some (goto L_inc (set_ready (sint16 (loaded w - 1)) w))
  | L_inc => Some (goto L_reset (set_next (sint16 (next w + 1)) w))
  | L_reset => Some (goto L_wrap (set_idx 0 w))
  | L_wrap =>
      if next w =? BUFFERCOUNT
      then Some (goto L_copy (set_next 0 w))
      else Some (goto L_copy w)
  | L_copy =>
      Some (goto L_add (emit [Mem_copy (next w) (idx w) (output_size w)] w))
  | L_add => Some (goto L_idle (set_idx (sint32 (idx w + output_size w)) w))
  end.

(** What can happen next: the player calls [write_dart_output (data, size)];
    the writer thread runs one statement; DART is done with the oldest buffer
    it was given and calls the callback with a status and flags, which runs
    up to its load of [ready]; the callback stores [ready] and returns.  DART
    reports one buffer at a time. *)
Inductive event :=
| Call (size : Z)
| Writer
| Mixer (ulStatus ulFlags : Z)
| Callback.

Definition step (e : event) (w : world) : option world :=
  match e with
  | Call size =>
      match at_label w with
      | L_idle => Some (goto L_check (set_output_size size w))
      | _ => None
      end
  | Writer => writer_step w
  | Mixer ulStatus ulFlags =>
      match playing w, callback w with
      | _ :: _, None => Some (OS2_Dart_UpdateBuffers ulStatus ulFlags w)
      | _, _ => None
      end
  | Callback =>
      match callback w with
      | Some v => Some (OS2_Dart_UpdateBuffers_store v w)
      | None => None
      end
  end.

(** A schedule is a list of events; [run] is [None] when the schedule asks
    for an event that cannot happen. *)
Fixpoint run (es : list event) (w : world) : option world :=
  match es with
  | [] => Some w
  | e :: es' =>
      match step e w with
      | Some w' => run es' w'
      | None => None
      end
  end.

(** [write_dart_output (data, size)] called in state [w] and run under the
    schedule [es]: the value returned and the state at the return, or [None]
    when the schedule cannot happen or ends with the call still running. *)
Definition write_dart_output (es : list event) (size : Z) (w : world)
  : option (Z * world) :=
  match run (Call size :: es) w with
  | Some w' =>
      match at_label w' with
      | L_idle => Some (0, w')
      | _ => None
      end
  | None => None
  end.

Definition is_call (e : event) : bool :=
  match e with Call _ => true | _ => false end.

(** The number of completions counted in a schedule: the stores of
    [ready++]. *)
Fixpoint completions (es : list event) : Z :=
  match es with
  | [] => 0
  | Callback :: es' => 1 + completions es'
  | _ :: es' => completions es'
  end.

(** The number of buffers DART reported in a schedule with a status and
    flags under which the callback does not count them. *)
Fixpoint uncounted (es : list event) : Z :=
  match es with
  | [] => 0
  | Mixer ulStatus ulFlags :: es' =>
      (if write_completed ulStatus ulFlags then 0 else 1) + uncounted es'
  | _ :: es' => uncounted es'
  end.

(** The writer is between the load and the store of [ready--] while the
    callback is between the load and the store of [ready++]: whichever
    stores last overwrites what the other has stored. *)
Definition racing (w : world) : bool :=
  match at_label w, callback w with
  | L_store, Some _ => true
  | _, _ => false
  end.

(** A schedule under which [ready--] and [ready++] never overlap. *)
Fixpoint calm (es : list event) (w : world) : bool :=
  negb (racing w) &&
  match es with
  | [] => true
  | e :: es' =>
      match step e w with
      | Some w' => calm es' w'
      | None => true
      end
  end.

(** *** Conservation of buffers *)

(** One buffer is counted twice between [pmixWrite] and the end of the
    [ready--] that follows it. *)
Definition pending (w : world) : Z :=
  match at_label w with L_dec | L_store => 1 | _ => 0 end.

(** The writer has seen [ready != 0] and has not decremented yet. *)
Definition armed (l : label) : bool :=
  match l with L_setlen | L_submit | L_dec | L_store => true | _ => false end.

(** [next] has been incremented and not yet wrapped. *)
Definition bumped (l : label) : bool :=
  match l with L_reset | L_wrap => true | _ => false end.

(** [next] is an index of [MixBuffers], or one more between [next++] and
    the wrap test. *)
Definition indexed (w : world) : Prop :=
  if bumped (at_label w) then 1 <= next w <= BUFFERCOUNT
  else 0 <= next w < BUFFERCOUNT.

(** What holds of [ready] as long as [ready--] and [ready++] have not
    overlapped; [t] is the number of buffers that are ready or with the
    mixer, few enough for the [short] not to wrap. *)
Definition sane (t : Z) (w : world) : Prop :=
  t <= 32766 /\ 0 <= ready w /\
  (armed (at_label w) = true -> 1 <= ready w) /\
  ready w + Z.of_nat (length (playing w)) = t + pending w /\
  (forall v, callback w = Some v -> v = ready w /\ playing w <> []) /\
  (at_label w = L_store -> loaded w = ready w).

(** The ready count between two calls when no update of it has been lost:
    it is not negative, a callback that has loaded it has loaded its current
    value and is reporting a buffer of the queue, and with the buffers of the
    queue it stays below the range of a [short]. *)
Definition settled (w : world) : Prop :=
  0 <= ready w /\ ready w + Z.of_nat (length (playing w)) <= 32766 /\
  forall v, callback w = Some v -> v = ready w /\ playing w <> [].

(** *** One call of [write_dart_output], statement by statement *)

Definition sleeps (k : nat) : list os_call := repeat (Dos_sleep 20) k.

(** The test of line 164 for a call with [size] bytes. *)
Definition overflows (w : world) (size : Z) : bool :=
  uint32 (sint32 (idx w + size)) >? bsize w.

(** The slot after slot [n]. *)
Definition rotate (n : Z) : Z := (n + 1) mod BUFFERCOUNT.

(** The [memcpy] calls of a log, as (slot, offset, length). *)
Fixpoint copies_of (l : list os_call) : list (Z * Z * Z) :=
  match l with
  | [] => []
  | Mem_copy slot offset len :: l' => (slot, offset, len) :: copies_of l'
  | _ :: l' => copies_of l'
  end.

(** The number of [DosSleep] calls of a log. *)
Fixpoint naps (l : list os_call) : nat :=
  match l with
  | [] => O
  | Dos_sleep _ :: l' => S (naps l')
  | _ :: l' => naps l'
  end.

Definition agrees (w : world) (lg : list os_call) (nx ix : Z) (bl : list Z)
    : Prop :=
  log w = lg /\ next w = nx /\ idx w = ix /\ buflen w = bl.

(** Where a call stands: [w0] is the state in which [write_dart_output] was
    called with [size] bytes, [c] the number of completions counted since, and
    [w] the current state.  Each label fixes the log, [next], [idx] and the
    buffer lengths in terms of [w0], up to the number of times the writer has
    slept.  Until the test of [ready] has succeeded, [ready] has changed only
    if a completion was counted; so once it has succeeded after [ready] was 0
    at the call, a completion has been counted. *)
Definition phase (w0 : world) (size c : Z) (w : world) : Prop :=
  let lg := log w0 in
  let nx := next w0 in
  let ix := idx w0 in
  let bl := buflen w0 in
  let bl' := <[Z.to_nat nx := uint32 ix]> bl in
  let nx' := rotate nx in
  let still := (c = 0 -> ready w = ready w0) in
  let woken := (ready w0 = 0 -> 1 <= c) in
  bsize w = bsize w0 /\ output_size w = size /\
  match at_label w with
  | L_check => agrees w lg nx ix bl /\ still
  | L_poll | L_sleep =>
      overflows w0 size = true /\ still /\
      exists k, agrees w (lg ++ sleeps k) nx ix bl
  | L_setlen =>
      overflows w0 size = true /\ woken /\
      exists k, agrees w (lg ++ sleeps k) nx ix bl
  | L_submit =>
      overflows w0 size = true /\ woken /\
      exists k, agrees w (lg ++ sleeps k) nx ix bl'
  | L_dec | L_store | L_inc =>
      overflows w0 size = true /\ woken /\
      exists k, agrees w (lg ++ sleeps k ++ [Mix_write nx 1]) nx ix bl'
  | L_reset =>
      overflows w0 size = true /\ woken /\
      exists k, agrees w (lg ++ sleeps k ++ [Mix_write nx 1]) (nx + 1) ix bl'
  | L_wrap =>
      overflows w0 size = true /\ woken /\
      exists k, agrees w (lg ++ sleeps k ++ [Mix_write nx 1]) (nx + 1) 0 bl'
  | L_copy =>
      if overflows w0 size
      then woken /\
           exists k, agrees w (lg ++ sleeps k ++ [Mix_write nx 1]) nx' 0 bl'
      else agrees w lg nx ix bl
  | L_add =>
      if overflows w0 size
      then woken /\
           exists k,
             agrees w (lg ++ sleeps k ++ [Mix_write nx 1; Mem_copy nx' 0 size])
               nx' 0 bl'
      else agrees w (lg ++ [Mem_copy nx ix size]) nx ix bl
  | L_idle =>
      if overflows w0 size
      then woken /\
           exists k,
             agrees w (lg ++ sleeps k ++ [Mix_write nx 1; Mem_copy nx' 0 size])
               nx' (sint32 (0 + size)) bl'
      else agrees w (lg ++ [Mem_copy nx ix size]) nx (sint32 (ix + size)) bl
  end.

(** The count of ready buffers during a call under a schedule in which
    [ready--] and [ready++] do not overlap: [ready] is its value at the call
    plus the completions counted, less one once [ready--] has stored; and the
    writer has not slept when a buffer was ready at the call. *)
Definition tally (w0 : world) (size c : Z) (w : world) : Prop :=
  let spent : Z :=
    match at_label w with
    | L_inc | L_reset | L_wrap => 1
    | L_copy | L_add | L_idle => if overflows w0 size then 1 else 0
    | _ => 0
    end in
  ready w = ready w0 + c - spent /\
  (ready w0 <> 0 -> naps (log w) = naps (log w0) /\ at_label w <> L_sleep).

(** The states of the first session of a program: [open_dart_output]
    succeeded on the initial program state, and some schedule ran from
    there. *)
Definition opened (w : world) : Prop :=
  exists os rate, open_dart_output os rate initial = (0, w).

Definition reachable (w : world) : Prop :=
  exists w0 es, opened w0 /\ run es w0 = Some w.

(** The same, under a schedule in which [ready--] and [ready++] never
    overlap. *)
Definition reachable_calmly (w : world) : Prop :=
  exists w0 es, opened w0 /\ calm es w0 = true /\ run es w0 = Some w.

(** Every state a program can be in, in its first session or a later one:
    the statics start at their initialisers; from then on the program opens
    and closes the device and calls [write_dart_output], and the writer
    thread and the callback run. *)
Inductive alive : world -> Prop :=
| alive_initial : alive initial
| alive_open os rate w : alive w -> alive (open_dart_output os rate w).2
| alive_close w : alive w -> alive (close_dart_output w)
| alive_step e w w' : alive w -> step e w = Some w' -> alive w'.

(** *** The mixer's queue and the bytes of a slot *)

(** The slot the writer fills: [next], or the one after it between
    [pmixWrite] and [next++]. *)
Definition front (w : world) : Z :=
  match at_label w with
  | L_dec | L_store | L_inc => next w + 1
  | _ => next w
  end.

(** The mixer holds the slots that come just before the one being filled, in
    the order of the ring, oldest first. *)
Definition queued_in_order (w : world) : Prop :=
  forall (i : nat) (s : Z), playing w !! i = Some s ->
    s = (front w + Z.of_nat i - Z.of_nat (length (playing w))) mod BUFFERCOUNT.

(** The bytes a log has copied since its last [pmixWrite], on top of [acc]. *)
Fixpoint filled (acc : Z) (l : list os_call) : Z :=
  match l with
  | [] => acc
  | Mix_write _ _ :: l' => filled 0 l'
  | Mem_copy _ _ n :: l' => filled (acc + n) l'
  | _ :: l' => filled acc l'
  end.

(** Every [memcpy] of a log starts at the offset where the bytes copied since
    the last [pmixWrite] end. *)
Fixpoint appended (acc : Z) (l : list os_call) : Prop :=
  match l with
  | [] => True
  | Mix_write _ _ :: l' => appended 0 l'
  | Mem_copy _ offset n :: l' => offset = acc /\ appended (acc + n) l'
  | _ :: l' => appended acc l'
  end.

(** The slot a log handed to the mixer last, [prev] when it handed over
    none: [pmixWrite] with a count submits the slots from [first] on. *)
Fixpoint last_submitted (prev : option Z) (l : list os_call) : option Z :=
  match l with
  | [] => prev
  | Mix_write first count :: l' => last_submitted (Some (first + count - 1)) l'
  | _ :: l' => last_submitted prev l'
  end.

(** Every [pmixWrite] of a log starts at the slot after the one submitted
    last, and every [memcpy] goes into that slot. *)
Fixpoint ring_order (prev : option Z) (l : list os_call) : Prop :=
  match l with
  | [] => True
  | Mix_write first count :: l' =>
      (forall p, prev = Some p -> first = rotate p) /\
      ring_order (Some (first + count - 1)) l'
  | Mem_copy slot _ _ :: l' =>
      (forall p, prev = Some p -> slot = rotate p) /\ ring_order prev l'
  | _ :: l' => ring_order prev l'
  end.

(** The calls of a schedule pass sizes an [int] holds and that are not
    negative. *)
Definition call_sizes (es : list event) : bool :=
  forallb (fun e => match e with
                    | Call n => (0 <=? n) && (n <? 2 ^ 31)
                    | _ => true
                    end) es.

(** What the writer knows about the bytes of the current slot, label by
    label. *)
Definition accounted (w : world) : Prop :=
  let F := filled 0 (log w) in
  appended 0 (log w) /\ 0 <= bsize w <= 32768 /\ 0 <= idx w < 2 ^ 31 /\
  length (buflen w) = Z.to_nat BUFFERCOUNT /\
  (at_label w <> L_idle -> 0 <= output_size w < 2 ^ 31) /\
  match at_label w with
  | L_submit => idx w = F /\ buflen w !! Z.to_nat (next w) = Some (idx w)
  | L_dec | L_store | L_inc | L_reset => F = 0
  | L_wrap => F = 0 /\ idx w = 0
  | L_copy => idx w = F /\ idx w + output_size w < 2 ^ 31
  | L_add => F = idx w + output_size w /\ idx w + output_size w < 2 ^ 31
  | _ => idx w = F
  end.

(** *** The buffer size *)

Lemma land_bit b i : 0 <= i -> truthy (Z.land b (Z.shiftl 1 i)) = Z.testbit b i.
Proof.
  intros Hi. rewrite Z.shiftl_1_l. unfold truthy.
  pose proof (Z.pow_pos_nonneg 2 i ltac:(lia) Hi) as Hpow.
  destruct (Z.testbit b i) eqn:Hb.
  - replace (Z.land b (2 ^ i)) with (2 ^ i).
    + destruct (Z.eqb_spec (2 ^ i) 0); [lia|done].
    + apply Z.bits_inj'. intros n Hn.
      rewrite Z.land_spec, Z.pow2_bits_eqb by lia.
      destruct (Z.eqb_spec i n) as [<-|]; [rewrite Hb|rewrite andb_false_r]; done.
  - replace (Z.land b (2 ^ i)) with 0; [done|].
    apply Z.bits_inj'. intros n Hn.
    rewrite Z.land_spec, Z.pow2_bits_eqb, Z.bits_0 by lia.
    destruct (Z.eqb_spec i n) as [<-|]; [rewrite Hb|rewrite andb_false_r]; done.
Qed.

Lemma quarter_second_bytes rate :
  0 <= rate < 2 ^ 32 ->
  uint32 (Z.shiftl (uint32 (Z.shiftl (uint32 (Z.shiftr rate 2)) 1)) 1) = rate / 4 * 4.
Proof.
  intros Hr. change (2 ^ 32) with 4294967296 in Hr.
  rewrite Z.shiftr_div_pow2, !Z.shiftl_mul_pow2 by lia.
  change (2 ^ 2) with 4. change (2 ^ 1) with 2.
  unfold uint32. change (2 ^ 32) with 4294967296.
  Z.div_mod_to_equations. lia.
Qed.

Lemma pow2_log2_in k low :
  0 <= k -> 2 ^ k <= low < 2 ^ (k + 1) -> 2 ^ Z.log2 low = 2 ^ k.
Proof. intros Hk Hlow. f_equal. apply Z.log2_unique; [done|]. exact Hlow. Qed.

Lemma scan_bits_15 b :
  scan_bits 5 15 b =
    if Z.testbit b 15 then 15 else if Z.testbit b 14 then 14
    else if Z.testbit b 13 then 13 else if Z.testbit b 12 then 12 else 11.
Proof.
  cbn [scan_bits].
  change (15 - 1) with 14. change (14 - 1) with 13.
  change (13 - 1) with 12. change (12 - 1) with 11.
  change (15 >=? 12) with true. change (14 >=? 12) with true.
  change (13 >=? 12) with true. change (12 >=? 12) with true.
  change (11 >=? 12) with false. cbv iota.
  rewrite !land_bit by lia. reflexivity.
Qed.

(** The size is decided by bits 15 to 12 of the byte count alone. *)
Lemma buffer_size_low_bits rate :
  0 <= rate < 2 ^ 32 ->
  buffer_size rate = Z.max 2048 (2 ^ Z.log2 ((rate / 4 * 4) mod 65536)).
Proof.
  intros Hr. unfold buffer_size.
  rewrite quarter_second_bytes by done.
  set (b := rate / 4 * 4).
  assert (Hlow : 0 <= b mod 65536 < 65536) by (apply Z.mod_pos_bound; lia).
  rewrite scan_bits_15, !Z.testbit_eqb by lia.
  change (2 ^ 15) with 32768. change (2 ^ 14) with 16384.
  change (2 ^ 13) with 8192. change (2 ^ 12) with 4096.
  destruct (Z.eqb_spec ((b / 32768) mod 2) 1) as [H15|H15].
  { rewrite (pow2_log2_in 15) by (simpl; Z.div_mod_to_equations; lia). reflexivity. }
  destruct (Z.eqb_spec ((b / 16384) mod 2) 1) as [H14|H14].
  { rewrite (pow2_log2_in 14) by (simpl; Z.div_mod_to_equations; lia). reflexivity. }
  destruct (Z.eqb_spec ((b / 8192) mod 2) 1) as [H13|H13].
  { rewrite (pow2_log2_in 13) by (simpl; Z.div_mod_to_equations; lia). reflexivity. }
  destruct (Z.eqb_spec ((b / 4096) mod 2) 1) as [H12|H12].
  { rewrite (pow2_log2_in 12) by (simpl; Z.div_mod_to_equations; lia). reflexivity. }
  assert (Hsmall : b mod 65536 < 4096) by (Z.div_mod_to_equations; lia).
  change (uint32 (Z.shiftl 1 11)) with 2048.
  change (2048 >? 65536) with false. cbv iota.
  destruct (Z.le_gt_cases 2048 (b mod 65536)) as [Hge|Hlt].
  - rewrite (pow2_log2_in 11) by (simpl; lia). reflexivity.
  - destruct (Z.eq_dec (b mod 65536) 0) as [->|Hnz]; [reflexivity|].
    pose proof (Z.log2_spec (b mod 65536) ltac:(lia)). lia.
Qed.

(** C5, as the code has it: for a rate whose quarter of a second of 16-bit
    stereo audio is fewer than 65536 bytes, the slot size is that byte count
    rounded down to a power of two, but not less than 2048: it is the byte
    count rounded down when that is 2048 or more, where it agrees with the
    design document's rule, and 2048 below.  The size then lies between 2048
    and 32768, so the 64 KiB cap is not reached. *)
Theorem buffer_size_rounds_within_range rate :
  0 <= rate < 2 ^ 32 ->
  let bytes := rate / 4 * 4 in
  bytes < 65536 ->
  buffer_size rate = Z.max 2048 (2 ^ Z.log2 bytes) /\
  (2048 <= bytes ->
     buffer_size rate = 2 ^ Z.log2 bytes /\ buffer_size rate = buffer_size_spec rate) /\
  (bytes < 2048 -> buffer_size rate = 2048) /\
  2048 <= buffer_size rate <= 32768.
Proof.
  intros Hr bytes Hsmall. pose proof (buffer_size_low_bits rate Hr) as Hb.
  fold bytes in Hb.
  assert (0 <= bytes) by (subst bytes; Z.div_mod_to_equations; lia).
  rewrite Z.mod_small in Hb by lia.
  assert (Hpow : 0 < 2 ^ Z.log2 bytes <= 32768).
  { split; [apply Z.pow_pos_nonneg; [lia|apply Z.log2_nonneg]|].
    change 32768 with (2 ^ 15). apply Z.pow_le_mono_r; [lia|].
    destruct (Z.eq_dec bytes 0) as [->|]; [simpl; lia|].
    apply Z.lt_succ_r, Z.log2_lt_pow2; simpl; lia. }
  split; [done|]. split; [|split; [|lia]].
  - intros Hin.
    assert (Heq : buffer_size rate = 2 ^ Z.log2 bytes).
    { rewrite Hb.
      pose proof (Z.log2_le_pow2 bytes 11 ltac:(lia)) as [Hle _].
      specialize (Hle ltac:(simpl; lia)).
      pose proof (Z.pow_le_mono_r 2 11 (Z.log2 bytes) ltac:(lia) Hle).
      change (2 ^ 11) with 2048 in *. lia. }
    split; [done|].
    unfold buffer_size_spec. fold bytes. rewrite Heq. lia.
  - intros Hlt. rewrite Hb.
    destruct (Z.eq_dec bytes 0) as [->|]; [reflexivity|].
    pose proof (Z.log2_spec bytes ltac:(lia)). lia.
Qed.

(** *** Closing *)

Lemma close_dart_output_cases w :
  close_dart_output w =
    let w1 := emit [Print_shutdown] w in
    match marker w, truthy (DeviceID w) with
    | true, true =>
        set_DeviceID 0 (emit [Mci_close (DeviceID w)]
          (set_marker false (emit [Mci_buffer_deallocate (DeviceID w)] w1)))
    | true, false => set_marker false (emit [Mci_buffer_deallocate (DeviceID w)] w1)
    | false, true => set_DeviceID 0 (emit [Mci_close (DeviceID w)] w1)
    | false, false => w1
    end.
Proof.
  unfold close_dart_output. cbn [marker emit].
  destruct (marker w); cbn [DeviceID emit set_marker];
    destruct (truthy (DeviceID w)); reflexivity.
Qed.

Lemma close_dart_output_clears w :
  marker (close_dart_output w) = false /\ DeviceID (close_dart_output w) = 0.
Proof.
  rewrite close_dart_output_cases. cbv zeta.
  destruct (marker w) eqn:Hm, (truthy (DeviceID w)) eqn:Hid; simpl; split;
    try done; unfold truthy in Hid; by destruct (Z.eqb_spec (DeviceID w) 0).
Qed.

(** A failed open holds nothing afterwards: no buffers were allocated, and a
    device that had been opened has been closed again. *)
Lemma open_dart_output_failure os rate ret w :
  open_dart_output os rate initial = (ret, w) -> ret <> 0 ->
  marker w = false /\ playing w = [] /\
  (forall id, mutex_ok os = true -> amp_device os = Some id ->
     last (log w) = Some (Mci_close id)).
Proof.
  unfold open_dart_output.
  destruct (mutex_ok os); simpl; [|by intros [= <- <-]].
  destruct (amp_device os) as [id|]; simpl; [|by intros [= <- <-]].
  destruct (mixsetup_ok os); simpl;
    [destruct (buffers_ok os); simpl|]; intros [= <- <-] Hret; try done.
  all: repeat split; try done; by intros ? _ [= <-].
Qed.

Lemma close_dart_output_again w :
  close_dart_output (close_dart_output w) = emit [Print_shutdown] (close_dart_output w).
Proof.
  destruct (close_dart_output_clears w) as [Hm Hd].
  rewrite (close_dart_output_cases (close_dart_output w)), Hm, Hd. reflexivity.
Qed.


Ltac step_cases H :=
  match type of H with
  | step ?e ?w = Some _ =>
      let Hl := fresh "Hl" in
      let Hq := fresh "Hq" in
      let Hcb := fresh "Hcb" in
      destruct e as [?| |? ?|]; simpl in H;
      [ destruct (at_label w) eqn:Hl; try discriminate H
      | unfold writer_step in H; destruct (at_label w) eqn:Hl; try discriminate H;
        match type of H with
        | context [callback w] => destruct (callback w) eqn:Hcb; try discriminate H
        | _ => idtac
        end
      | destruct (playing w) eqn:Hq; try discriminate H;
        destruct (callback w) eqn:Hcb; try discriminate H;
        unfold OS2_Dart_UpdateBuffers in H; destruct (at_label w) eqn:Hl
      | destruct (callback w) eqn:Hcb; try discriminate H;
        unfold OS2_Dart_UpdateBuffers_store in H; destruct (at_label w) eqn:Hl ];
      repeat match type of H with
             | context [if ?b then _ else _] => destruct b eqn:?
             end;
      injection H as <-
  end.

Lemma sint16_tiny z : - 8 <= z <= 8 -> sint16 z = z.
Proof. intros Hz. apply sint16_small. lia. Qed.

Lemma opened_state w :
  opened w ->
  ready w = 1 /\ playing w = [0; 1] /\ next w = 2 /\ idx w = 0 /\
  at_label w = L_idle /\ marker w = true /\ callback w = None.
Proof.
  intros (os & rate & Hopen). revert Hopen.
  unfold open_dart_output.
  destruct (mutex_ok os); simpl; [|discriminate].
  destruct (amp_device os) as [id|]; simpl; [|discriminate].
  destruct (mixsetup_ok os); simpl; [|discriminate].
  destruct (buffers_ok os); simpl; [|discriminate].
  intros [= <-]. simpl. done.
Qed.

Lemma opened_indexed w : opened w -> indexed w.
Proof.
  intros Ho. destruct (opened_state w Ho) as (_ & _ & Hn & _ & Hl & _).
  unfold indexed, BUFFERCOUNT. rewrite Hn, Hl. simpl. lia.
Qed.

Lemma opened_sane w : opened w -> sane (BUFFERCOUNT - 1) w.
Proof.
  intros Ho. destruct (opened_state w Ho) as (Hr & Hp & Hn & _ & Hl & _ & Hcb).
  unfold sane, pending, BUFFERCOUNT.
  rewrite Hr, Hp, Hl, Hcb. simpl. split_and!; try done; lia.
Qed.

Lemma settled_sane w :
  at_label w = L_idle -> settled w ->
  sane (ready w + Z.of_nat (length (playing w))) w.
Proof.
  intros Hl (Hr & Hsum & Hcb). unfold sane, pending. rewrite Hl. simpl.
  split_and!; try done; lia.
Qed.

Lemma step_indexed e w w' : indexed w -> step e w = Some w' -> indexed w'.
Proof.
  unfold indexed, BUFFERCOUNT. intros Hs Hstep.
  step_cases Hstep; norm_tests; unfold BUFFERCOUNT in *;
    simpl; rewrite ?Hl in *; simpl in *;
    rewrite ?sint16_tiny by lia; lia.
Qed.

Lemma run_indexed es w w' : indexed w -> run es w = Some w' -> indexed w'.
Proof.
  revert w. induction es as [|e es IH]; simpl; intros w Hs Hrun.
  - by injection Hrun as <-.
  - destruct (step e w) as [w1|] eqn:Hstep; [|discriminate].
    eauto using step_indexed.
Qed.

Lemma reachable_indexed w : reachable w -> indexed w.
Proof.
  intros (w0 & es & Ho & Hrun).
  eapply run_indexed; [|done]. by apply opened_indexed.
Qed.

Lemma open_dart_output_keeps os rate w :
  next (open_dart_output os rate w).2 = next w /\
  at_label (open_dart_output os rate w).2 = at_label w.
Proof.
  unfold open_dart_output.
  destruct (mutex_ok os), (amp_device os) as [id|], (mixsetup_ok os),
    (buffers_ok os); done.
Qed.

Lemma close_dart_output_keeps w :
  next (close_dart_output w) = next w /\
  at_label (close_dart_output w) = at_label w.
Proof.
  rewrite close_dart_output_cases. cbv zeta.
  destruct (marker w), (truthy (DeviceID w)); done.
Qed.

Lemma alive_indexed w : alive w -> indexed w.
Proof.
  induction 1 as [|os rate w _ IH|w _ IH|e w w' _ IH Hstep].
  - unfold indexed, BUFFERCOUNT. simpl. lia.
  - destruct (open_dart_output_keeps os rate w) as [Hn Hl].
    unfold indexed in *. by rewrite Hn, Hl.
  - destruct (close_dart_output_keeps w) as [Hn Hl].
    unfold indexed in *. by rewrite Hn, Hl.
  - by apply (step_indexed e w w').
Qed.

Lemma alive_run es w w' : alive w -> run es w = Some w' -> alive w'.
Proof.
  revert w. induction es as [|e es IH]; simpl; intros w Ha Hrun.
  - by injection Hrun as <-.
  - destruct (step e w) as [w1|] eqn:Hstep; [|discriminate].
    apply (IH w1); [|done]. by apply (alive_step e w w1).
Qed.

Lemma reachable_alive w : reachable w -> alive w.
Proof.
  intros (w0 & es & (os & rate & Hopen) & Hrun).
  apply (alive_run es w0); [|done].
  replace w0 with (open_dart_output os rate initial).2 by (by rewrite Hopen).
  apply alive_open, alive_initial.
Qed.

Lemma uncounted_nonneg es : 0 <= uncounted es.
Proof.
  induction es as [|[ | |s f| ] es IH]; simpl; try lia.
  destruct (write_completed s f); lia.
Qed.

Lemma completions_nonneg es : 0 <= completions es.
Proof. induction es as [|[ | |s f| ] es IH]; simpl; lia. Qed.

Lemma sint16_short z : - 32768 <= z <= 32767 -> sint16 z = z.
Proof. intros Hz. apply sint16_small. lia. Qed.

(** As long as [ready--] and [ready++] do not overlap, an event keeps the
    count of buffers. *)
Lemma step_sane t e w w' :
  sane t w -> racing w = false -> racing w' = false -> step e w = Some w' ->
  sane (t - uncounted [e]) w'.
Proof.
  unfold sane, pending, racing.
  intros (Ht & Hr & Harm & Hsum & Hcall & Hload) Hrw Hrw' Hstep.
  step_cases Hstep; norm_tests;
    destruct (callback w) as [cv|] eqn:Hcv;
    simpl in *; rewrite ?Hl, ?Hq, ?Hcv in *; simpl in *;
    try discriminate;
    try (destruct (Hcall _ eq_refl) as [-> Hne]);
    try (specialize (Hload eq_refl));
    try (specialize (Harm eq_refl));
    try match goal with H : write_completed _ _ = _ |- _ => rewrite H end;
    try (destruct (playing w) as [|p ps] eqn:Hp; [done|]);
    rewrite ?length_app in *; simpl in *.
  all: try injection Hq as <- <-.
  all: rewrite ?sint16_short by lia.
  all: split_and!; try done; try lia.
  all: try (intros v [= <-]; split; [lia|done]).
Qed.

Lemma calm_cons e es w w' :
  calm (e :: es) w = true -> step e w = Some w' ->
  racing w = false /\ racing w' = false /\ calm es w' = true.
Proof.
  simpl. intros Hc Hstep. rewrite Hstep in Hc.
  apply andb_true_iff in Hc as [Hw Hc]. apply negb_true_iff in Hw.
  split; [done|]. split; [|done].
  destruct es; simpl in Hc; apply andb_true_iff in Hc as [Hw' _];
    by apply negb_true_iff in Hw'.
Qed.

Lemma uncounted_cons e es : uncounted (e :: es) = uncounted [e] + uncounted es.
Proof. destruct e; simpl; lia. Qed.

Lemma completions_cons e es :
  completions (e :: es) = completions [e] + completions es.
Proof. destruct e; simpl; lia. Qed.

Lemma run_sane t es w w' :
  sane t w -> calm es w = true -> run es w = Some w' ->
  sane (t - uncounted es) w'.
Proof.
  revert t w. induction es as [|e es IH]; intros t w Hs Hcalm Hrun.
  - simpl in Hrun. injection Hrun as <-. simpl. by rewrite Z.sub_0_r.
  - simpl in Hrun. destruct (step e w) as [w1|] eqn:Hstep; [|discriminate].
    destruct (calm_cons e es w w1 Hcalm Hstep) as (Hw & Hw1 & Hes).
    rewrite uncounted_cons, Z.sub_add_distr.
    apply (IH _ w1); [|done|done]. by apply (step_sane t e w w1).
Qed.

Lemma reachable_calmly_sane w :
  reachable_calmly w -> exists t, t <= BUFFERCOUNT - 1 /\ sane t w.
Proof.
  intros (w0 & es & Ho & Hcalm & Hrun). exists (BUFFERCOUNT - 1 - uncounted es).
  split; [pose proof (uncounted_nonneg es); lia|].
  eapply run_sane; [|done|done]. by apply opened_sane.
Qed.

Lemma reachable_calmly_settled w : reachable_calmly w -> settled w.
Proof.
  intros Hcalmly.
  destruct (reachable_calmly_sane w Hcalmly) as (t & Ht & _ & Hr & _ & Hsum & Hcb & _).
  unfold settled, pending, BUFFERCOUNT in *.
  split_and!; try done. destruct (at_label w); lia.
Qed.

Lemma reachable_calmly_reachable w : reachable_calmly w -> reachable w.
Proof. intros (w0 & es & Ho & _ & Hrun). by exists w0, es. Qed.

Lemma sleeps_snoc k : sleeps k ++ [Dos_sleep 20] = sleeps (S k).
Proof. unfold sleeps. simpl. symmetry. apply repeat_cons. Qed.

(** Field equations of the state [w], used as rewrite rules. *)
Ltac use_fields w :=
  repeat match goal with
         | H : _ /\ _ |- _ => destruct H
         | H : exists _, _ |- _ => destruct H
         end;
  repeat match goal with
         | H : ?f w = _ |- _ => rewrite !H in *; clear H
         end.

Lemma sleeps_none (l : list os_call) : l = l ++ sleeps 0.
Proof. symmetry. apply app_nil_r. Qed.

Ltac close_phase :=
  repeat match goal with
         | |- _ /\ _ => split
         | |- exists _, _ => eexists
         end;
  try (rewrite <- ?app_assoc, ?sleeps_snoc; simpl; reflexivity);
  try apply sleeps_none;
  try done;
  try (intros; lia);
  try (rewrite ?sint16_tiny by lia; lia);
  try (unfold rotate, BUFFERCOUNT in *; Z.div_mod_to_equations; lia).

(** One event other than a new call moves the call along. *)
Lemma step_phase w0 size c e w w' :
  indexed w0 -> at_label w0 = L_idle -> 0 <= c ->
  indexed w -> phase w0 size c w ->
  is_call e = false -> step e w = Some w' ->
  phase w0 size (c + completions [e]) w'.
Proof.
  intros Hn0 Hl0 Hc Hs Hph Hcall Hstep.
  unfold indexed in Hn0. rewrite Hl0 in Hn0. simpl in Hn0.
  unfold indexed in Hs.
  step_cases Hstep; try discriminate Hcall; norm_tests;
    unfold phase in Hph |- *; simpl in Hph |- *; rewrite Hl in Hph; rewrite ?Hl.
  all: unfold agrees in *; simpl in *.
  all: try (unfold overflows in *; destruct (_ >? _) eqn:Hov in Hph).
  all: use_fields w.
  all: try (unfold overflows in *; rewrite ?Hov).
  all: try match goal with H : Z.gtb _ _ = _ |- _ => rewrite H end.
  all: unfold BUFFERCOUNT in *; simpl in *.
  all: close_phase.
Qed.

Lemma run_phase w0 size es c w w' :
  indexed w0 -> at_label w0 = L_idle -> 0 <= c ->
  indexed w -> phase w0 size c w ->
  existsb is_call es = false -> run es w = Some w' ->
  phase w0 size (c + completions es) w'.
Proof.
  intros Hs0 Hl0. revert c w.
  induction es as [|e es IH]; intros c w Hc Hs Hph Hcall Hrun;
    simpl in Hcall, Hrun.
  - injection Hrun as <-. simpl. by rewrite Z.add_0_r.
  - apply orb_false_iff in Hcall as [He Hes].
    destruct (step e w) as [w1|] eqn:Hstep; [|discriminate].
    pose proof (step_phase w0 size c e w w1 Hs0 Hl0 Hc Hs Hph He Hstep) as Hph1.
    pose proof (completions_nonneg [e]).
    rewrite completions_cons, Z.add_assoc.
    apply (IH (c + completions [e]) w1); eauto using step_indexed. lia.
Qed.

Lemma write_dart_output_done es size w0 ret w1 :
  write_dart_output es size w0 = Some (ret, w1) <->
  ret = 0 /\ run (Call size :: es) w0 = Some w1 /\ at_label w1 = L_idle.
Proof.
  unfold write_dart_output.
  destruct (run (Call size :: es) w0) as [w'|]; [|by split; [|intros (_ & ? & _)]].
  destruct (at_label w') eqn:Hl; split;
    try (intros [= <- <-]; done); try discriminate;
    intros (-> & [= ->] & Hl'); congruence.
Qed.

Lemma call_begins w0 size :
  at_label w0 = L_idle ->
  step (Call size) w0 = Some (goto L_check (set_output_size size w0)).
Proof. intros Hl0. simpl. by rewrite Hl0. Qed.

(** What a whole call does, from the state [w0] in which it is made to the
    state [w1] in which it has returned, under a schedule [es] of writer
    statements and steps of the callback. *)
Lemma call_effect w0 size es w1 :
  indexed w0 -> at_label w0 = L_idle ->
  existsb is_call es = false ->
  run (Call size :: es) w0 = Some w1 -> at_label w1 = L_idle ->
  if overflows w0 size
  then (ready w0 = 0 -> 1 <= completions es) /\
       exists k,
         agrees w1
           (log w0 ++ sleeps k
              ++ [Mix_write (next w0) 1; Mem_copy (rotate (next w0)) 0 size])
           (rotate (next w0)) (sint32 (0 + size))
           (<[Z.to_nat (next w0) := uint32 (idx w0)]> (buflen w0))
  else agrees w1 (log w0 ++ [Mem_copy (next w0) (idx w0) size]) (next w0)
         (sint32 (idx w0 + size)) (buflen w0).
Proof.
  intros Hs0 Hl0 Hcall Hrun Hl1. simpl in Hrun. rewrite Hl0 in Hrun.
  set (ws := goto L_check (set_output_size size w0)) in Hrun.
  assert (Hsw : indexed ws).
  { apply (step_indexed (Call size) w0); [done|]. by apply call_begins. }
  assert (Hph : phase w0 size 0 ws).
  { unfold phase, agrees. simpl. repeat split; lia. }
  pose proof (run_phase w0 size es 0 ws w1 Hs0 Hl0 ltac:(lia) Hsw Hph Hcall Hrun)
    as (_ & _ & Hend).
  rewrite Hl1 in Hend. exact Hend.
Qed.

Lemma naps_app l1 l2 : naps (l1 ++ l2) = (naps l1 + naps l2)%nat.
Proof.
  induction l1 as [|c l1 IH]; simpl; [done|].
  destruct c; simpl; by rewrite ?IH.
Qed.

Lemma naps_sleeps k : naps (sleeps k) = k.
Proof. induction k as [|k IH]; simpl; [done|]. by f_equal. Qed.

(** One event other than a new call, in a schedule in which [ready--] and
    [ready++] do not overlap, keeps the count of [ready] during a call. *)
Lemma step_tally t w0 size c e w w' :
  0 <= ready w0 -> 0 <= c ->
  sane t w -> racing w = false -> racing w' = false ->
  phase w0 size c w -> tally w0 size c w ->
  is_call e = false -> step e w = Some w' ->
  tally w0 size (c + completions [e]) w'.
Proof.
  unfold sane, pending, racing.
  intros Hr0 Hc (Ht & Hr & Harm & Hsum & Hcb & Hload) Hrw Hrw' Hph Hta Hcall Hstep.
  step_cases Hstep; try discriminate Hcall; norm_tests;
    destruct (callback w) as [cv|] eqn:Hcv;
    unfold phase, agrees in Hph; unfold tally in Hta |- *;
    simpl in *; rewrite ?Hl, ?Hcv in *; simpl in *;
    try discriminate;
    try (destruct (Hcb _ eq_refl) as [-> Hne]);
    try (specialize (Hload eq_refl));
    try (specialize (Harm eq_refl));
    try (destruct (playing w) as [|p ps] eqn:Hp; [done|]);
    rewrite ?length_app in *; simpl in *.
  all: destruct Hta as [Hrd Hnap].
  all: try (unfold overflows in *; destruct (_ >? _) eqn:Hov in Hph).
  all: destruct_and?.
  all: try discriminate.
  all: repeat match goal with
              | H : idx _ = idx _ |- _ => rewrite H in *; clear H
              | H : bsize _ = bsize _ |- _ => rewrite H in *; clear H
              | H : output_size _ = _ |- _ => rewrite H in *; clear H
              end.
  all: unfold overflows in *.
  all: repeat match goal with
              | H : Z.gtb _ _ = _ |- _ => rewrite H in *
              end.
  all: try discriminate.
  all: rewrite ?sint16_short by lia.
  all: rewrite ?naps_app; simpl.
  all: split; [try lia|].
  all: try (intros Hne0; destruct (Hnap Hne0) as [Hk Hsl]; split; [|done]; lia).
  all: try (intros Hne0; destruct (Hnap Hne0) as [Hk Hsl]; done).
  all: try (intros Hne0; lia).
Qed.

Lemma run_tally t w0 size es c w w' :
  indexed w0 -> at_label w0 = L_idle -> 0 <= ready w0 -> 0 <= c ->
  sane t w -> indexed w -> calm es w = true ->
  phase w0 size c w -> tally w0 size c w ->
  existsb is_call es = false -> run es w = Some w' ->
  tally w0 size (c + completions es) w'.
Proof.
  intros Hn0 Hl0 Hr0. revert t c w.
  induction es as [|e es IH]; intros t c w Hc Hs Hn Hcalm Hph Hta Hcall Hrun;
    simpl in Hcall, Hrun.
  - injection Hrun as <-. simpl. by rewrite Z.add_0_r.
  - apply orb_false_iff in Hcall as [He Hes].
    destruct (step e w) as [w1|] eqn:Hstep; [|discriminate].
    destruct (calm_cons e es w w1 Hcalm Hstep) as (Hw & Hw1 & Hcalm1).
    pose proof (completions_nonneg [e]).
    rewrite completions_cons, Z.add_assoc.
    apply (IH (t - uncounted [e]) (c + completions [e]) w1); try done.
    + lia.
    + by apply (step_sane t e w w1).
    + by apply (step_indexed e w w1).
    + by apply (step_phase w0 size c e w w1).
    + by apply (step_tally t w0 size c e w w1).
Qed.

(** The count of ready buffers over a whole call, under a schedule in which
    [ready--] and [ready++] do not overlap. *)
Lemma call_tally t w0 size es w1 :
  sane t w0 -> indexed w0 -> at_label w0 = L_idle ->
  existsb is_call es = false -> calm (Call size :: es) w0 = true ->
  run (Call size :: es) w0 = Some w1 -> at_label w1 = L_idle ->
  ready w1 = ready w0 + completions es - (if overflows w0 size then 1 else 0) /\
  (ready w0 <> 0 -> naps (log w1) = naps (log w0)).
Proof.
  intros Hs0 Hn0 Hl0 Hcall Hcalm Hrun Hl1.
  pose proof (call_begins w0 size Hl0) as Hstep.
  destruct (calm_cons _ _ _ _ Hcalm Hstep) as (Hw0 & Hws & Hcalm').
  simpl in Hrun. rewrite Hl0 in Hrun.
  set (ws := goto L_check (set_output_size size w0)) in *.
  assert (Hsw : sane (t - uncounted [Call size]) ws)
    by (by apply (step_sane t (Call size) w0 ws)).
  assert (Hnw : indexed ws) by (by apply (step_indexed (Call size) w0)).
  assert (Hph : phase w0 size 0 ws).
  { unfold phase, agrees. simpl. repeat split; lia. }
  assert (Hta : tally w0 size 0 ws).
  { unfold tally. simpl. split; [lia|done]. }
  destruct Hs0 as (_ & Hr0 & _).
  pose proof (run_tally _ w0 size es 0 ws w1 Hn0 Hl0 Hr0 ltac:(lia) Hsw Hnw
                Hcalm' Hph Hta Hcall Hrun) as [Hrd Hnap].
  rewrite Hl1 in Hrd. split; [lia|]. intros Hne. by destruct (Hnap Hne).
Qed.

Lemma run_cons e es w w' : step e w = Some w' -> run (e :: es) w = run es w'.
Proof. intros H. simpl. by rewrite H. Qed.

(** Runs the first event of the schedule in the goal: the state is known up
    to the tests [rewrite] settles with the equations at hand. *)
Ltac first_event :=
  erewrite run_cons;
  [| unfold step, writer_step;
     cbn [at_label goto emit set_buflen set_playing set_ready set_next set_idx
          set_output_size set_loaded set_callback ready next idx bsize
          output_size log playing buflen loaded callback];
     repeat match goal with
            | H : _ = _ |- _ => rewrite H
            end;
     reflexivity ].

(** With a buffer ready and the callback not holding the mutex, eleven
    statements rotate and return; while the current slot has room, three
    statements copy and return. *)
Lemma rotation_returns w0 size :
  at_label w0 = L_idle -> overflows w0 size = true -> ready w0 <> 0 ->
  callback w0 = None ->
  exists w1, run (Call size :: repeat Writer 11) w0 = Some w1 /\ at_label w1 = L_idle.
Proof.
  intros Hl0 Hov Hr Hcb. unfold overflows in Hov.
  assert (Ht : truthy (ready w0) = true).
  { unfold truthy. by destruct (Z.eqb_spec (ready w0) 0). }
  cbn [repeat]. do 9 first_event.
  destruct (sint16 (next w0 + 1) =? BUFFERCOUNT) eqn:Hw; do 3 first_event;
    eexists; (split; [reflexivity|done]).
Qed.

Lemma append_returns w0 size :
  at_label w0 = L_idle -> overflows w0 size = false ->
  exists w1, run (Call size :: repeat Writer 3) w0 = Some w1 /\ at_label w1 = L_idle.
Proof.
  intros Hl0 Hov. unfold overflows in Hov.
  cbn [repeat]. do 4 first_event.
  eexists; (split; [reflexivity|done]).
Qed.

(** Without wrap-around the test of line 164 is the plain comparison. *)
Lemma overflows_plain w size :
  0 <= idx w -> 0 <= size -> idx w + size < 2 ^ 31 ->
  overflows w size = (idx w + size >? bsize w).
Proof.
  intros Hi Hn Hsum. unfold overflows.
  rewrite sint32_small by lia. unfold uint32. rewrite Z.mod_small by lia. done.
Qed.

Lemma copies_of_app l1 l2 : copies_of (l1 ++ l2) = copies_of l1 ++ copies_of l2.
Proof.
  induction l1 as [|c l1 IH]; simpl; [done|].
  destruct c; simpl; by rewrite ?IH.
Qed.

Lemma copies_of_sleeps k : copies_of (sleeps k) = [].
Proof. induction k as [|k IH]; simpl; done. Qed.

(** C4, as the code has it: a call whose bytes do not fit behind the fill
    offset, made in any state the program can be in between two calls.
    Whatever the schedule under which it runs to its return, the writer
    sleeps some number of times, then hands the current buffer to the mixer
    with the fill offset as its length, whether or not the buffer is full,
    moves to the next of the four slots, and copies all of the caller's bytes
    to offset zero of that slot; when the ready count was zero at the call, a
    completion has been counted before the return.  When no update of the
    ready count has been lost before the call and [ready--] and [ready++] do
    not overlap during it, the ready count ends one below its value at the
    call plus the completions counted, and the writer does not sleep when a
    buffer was ready at the call.  With a buffer ready and the callback not
    running, eleven statements suffice. *)
Theorem write_dart_output_rotates w0 size :
  alive w0 -> at_label w0 = L_idle ->
  - 2 ^ 31 <= size < 2 ^ 31 ->
  overflows w0 size = true ->
  (forall es ret w1,
     existsb is_call es = false ->
     write_dart_output es size w0 = Some (ret, w1) ->
     ret = 0 /\
     (exists k : nat,
        log w1 = log w0 ++ sleeps k
                   ++ [Mix_write (next w0) 1; Mem_copy (rotate (next w0)) 0 size]) /\
     (ready w0 = 0 -> 1 <= completions es) /\
     buflen w1 = <[Z.to_nat (next w0) := uint32 (idx w0)]> (buflen w0) /\
     next w1 = (next w0 + 1) mod BUFFERCOUNT /\
     idx w1 = size /\
     (settled w0 -> calm (Call size :: es) w0 = true ->
        ready w1 = ready w0 + completions es - 1 /\
        (ready w0 <> 0 ->
           log w1 = log w0
                      ++ [Mix_write (next w0) 1; Mem_copy (rotate (next w0)) 0 size]))) /\
  (ready w0 <> 0 -> callback w0 = None ->
     exists w1, write_dart_output (repeat Writer 11) size w0 = Some (0, w1)).
Proof.
  intros Halive Hl0 Hsize Hov.
  pose proof (alive_indexed w0 Halive) as Hn0.
  split.
  2: { intros Hr Hcb.
       destruct (rotation_returns w0 size Hl0 Hov Hr Hcb) as (w1 & Hrun & Hl1).
       exists w1. by apply write_dart_output_done. }
  intros es ret w1 Hcall Hdone.
  apply write_dart_output_done in Hdone as (-> & Hrun & Hl1). split; [done|].
  pose proof (call_effect w0 size es w1 Hn0 Hl0 Hcall Hrun Hl1) as Heff.
  rewrite Hov in Heff. destruct Heff as (Hwoken & k & Hlog & Hnx & Hix & Hbl).
  rewrite Z.add_0_l, sint32_small in Hix by done.
  split_and!; try done; [by exists k|].
  intros Hsettled Hcalm.
  pose proof (settled_sane w0 Hl0 Hsettled) as Hs0.
  destruct (call_tally _ w0 size es w1 Hs0 Hn0 Hl0 Hcall Hcalm Hrun Hl1)
    as [Hrd Hnap].
  rewrite Hov in Hrd. split; [done|]. intros Hne.
  specialize (Hnap Hne). rewrite Hlog, !naps_app, naps_sleeps in Hnap.
  assert (k = O) as -> by lia. exact Hlog.
Qed.

(** C10: one call, made in any state the program can be in between two
    calls, makes one [memcpy], of all [size] bytes, into one slot: at the
    fill offset of the current slot when they fit behind it, at offset zero
    of the next slot otherwise.  The copy ends within the [bsize] bytes of
    the slot exactly when [size <= bsize]; a larger payload runs past the end
    of the slot. *)
Theorem write_dart_output_single_copy w0 size es ret w1 :
  alive w0 -> at_label w0 = L_idle ->
  0 <= idx w0 < 2 ^ 31 -> 0 <= size < 2 ^ 31 ->
  existsb is_call es = false ->
  write_dart_output es size w0 = Some (ret, w1) ->
  exists new slot offset,
    log w1 = log w0 ++ new /\
    copies_of new = [(slot, offset, size)] /\
    (if overflows w0 size
     then slot = rotate (next w0) /\ offset = 0
     else slot = next w0 /\ offset = idx w0) /\
    (offset + size <= bsize w0 <-> size <= bsize w0) /\
    (bsize w0 < size -> bsize w0 < offset + size).
Proof.
  intros Halive Hl0 Hidx Hsize Hcall Hdone.
  apply write_dart_output_done in Hdone as (_ & Hrun & Hl1).
  pose proof (alive_indexed w0 Halive) as Hs0.
  pose proof (call_effect w0 size es w1 Hs0 Hl0 Hcall Hrun Hl1) as Heff.
  destruct (overflows w0 size) eqn:Hov.
  - destruct Heff as (_ & k & Hlog & _).
    eexists _, (rotate (next w0)), 0. split; [exact Hlog|].
    rewrite copies_of_app, copies_of_sleeps. simpl.
    repeat split; try done; lia.
  - destruct Heff as (Hlog & _).
    eexists _, (next w0), (idx w0). split; [exact Hlog|].
    simpl. unfold overflows in Hov.
    rewrite Z.gtb_ltb in Hov. apply Z.ltb_ge in Hov.
    unfold uint32, sint32 in Hov.
    change (2 ^ 31) with 2147483648 in *. change (2 ^ 32) with 4294967296 in *.
    repeat split; try done; try lia.
    intros _. revert Hov. Z.div_mod_to_equations. lia.
Qed.

(** C6, as the code has it: from the state the first [open_dart_output] of
    a program leaves, under every schedule of calls, writer statements and
    steps of the callback in which [ready--] and [ready++] do not overlap, the
    ready count and the number of buffers handed to the mixer and not yet
    counted back add up to [BUFFERCOUNT - 1], one buffer being the one the
    writer fills, less the buffers DART reported with flags the callback does
    not count; only between [pmixWrite] and the end of the [ready--] after it
    is the sum one more. *)
Theorem ready_plus_playing_conserved os rate w0 es w :
  open_dart_output os rate initial = (0, w0) ->
  calm es w0 = true ->
  run es w0 = Some w ->
  ready w + Z.of_nat (length (playing w)) =
    match at_label w with
    | L_dec | L_store => BUFFERCOUNT
    | _ => BUFFERCOUNT - 1
    end - uncounted es.
Proof.
  intros Hopen Hcalm Hrun.
  assert (Ho : opened w0) by (by exists os, rate).
  pose proof (run_sane _ es w0 w (opened_sane w0 Ho) Hcalm Hrun)
    as (_ & _ & _ & Hsum & _).
  unfold pending, BUFFERCOUNT in *. destruct (at_label w); lia.
Qed.

(** *** The mixer's queue *)

Lemma opened_queued w : opened w -> queued_in_order w.
Proof.
  intros Ho. destruct (opened_state w Ho) as (_ & Hp & Hn & _ & Hl & _).
  unfold queued_in_order, front. rewrite Hp, Hn, Hl.
  intros [|[|i]] s [=]; subst; reflexivity.
Qed.

Lemma step_queued e w w' :
  indexed w -> queued_in_order w -> step e w = Some w' -> queued_in_order w'.
Proof.
  unfold indexed, queued_in_order, front, BUFFERCOUNT. intros Hs Hord Hstep.
  step_cases Hstep; norm_tests; unfold BUFFERCOUNT in *;
    simpl in *; rewrite ?Hl, ?Hq in *; simpl in *;
    try match goal with
        | |- context [tail (playing ?x)] =>
            destruct (playing x) eqn:Hq; simpl in *
        end;
    intros i s Hi; try done.
  all: try (apply lookup_app_Some in Hi as [Hi|[Hge Hi]];
            [|apply list_lookup_singleton_Some in Hi as [Hz <-]]).
  all: try (pose proof (Hord (S i) s Hi) as Hx; simpl in Hx).
  all: try (pose proof (Hord i s Hi) as Hx).
  all: rewrite ?length_app; simpl length; rewrite ?sint16_tiny by lia.
  all: try (rewrite Hx; clear Hx).
  all: Z.div_mod_to_equations; lia.
Qed.

Lemma run_queued es w w' :
  indexed w -> queued_in_order w -> run es w = Some w' -> queued_in_order w'.
Proof.
  revert w. induction es as [|e es IH]; simpl; intros w Hs Hord Hrun.
  - by injection Hrun as <-.
  - destruct (step e w) as [w1|] eqn:Hstep; [|discriminate].
    eauto using step_indexed, step_queued.
Qed.

Lemma reachable_queued w : reachable w -> queued_in_order w.
Proof.
  intros (w0 & es & Ho & Hrun).
  eapply run_queued; [| |done]; [by apply opened_indexed|by apply opened_queued].
Qed.

(** X10: the slot the writer touches is not one the mixer holds.  In every
    state of the first session of a program, under any schedule of calls,
    writer statements and steps of the callback, the mixer's queue consists
    of the slots that precede the current one in the ring, oldest first.  In
    the states reached without an overlap of [ready--] and [ready++],
    whenever [next] names the current slot, in particular when its length is
    set and when the caller's bytes are copied into it, slot [next] is not in
    the mixer's queue. *)
Theorem current_slot_not_queued w :
  reachable w ->
  queued_in_order w /\
  (reachable_calmly w ->
   match at_label w with
   | L_dec | L_store | L_inc | L_reset | L_wrap => True
   | _ => next w ∉ playing w
   end).
Proof.
  intros Hreach.
  pose proof (reachable_queued w Hreach) as Hord.
  pose proof (reachable_indexed w Hreach) as Hnext.
  split; [done|]. intros Hcalmly.
  destruct (reachable_calmly_sane w Hcalmly) as (t & Ht & _ & Hr & _ & Hsum & _).
  assert (Hout : pending w = 0 -> bumped (at_label w) = false ->
                 front w = next w -> next w ∉ playing w).
  { intros Hp Hb Hf Hin. apply list_elem_of_lookup in Hin as [i Hi].
    pose proof (lookup_lt_Some _ _ _ Hi) as Hlt.
    apply Hord in Hi. rewrite Hf in Hi. unfold indexed in Hnext.
    rewrite Hb in Hnext.
    unfold BUFFERCOUNT in *. revert Hi. Z.div_mod_to_equations. lia. }
  unfold pending, front in Hout.
  destruct (at_label w); try done; by apply Hout.
Qed.

Lemma open_dart_output_playing os rate w :
  playing (open_dart_output os rate w).2 = playing w \/
  playing (open_dart_output os rate w).2 = playing w ++ [0; 1].
Proof.
  unfold open_dart_output.
  destruct (mutex_ok os), (amp_device os) as [id|], (mixsetup_ok os),
    (buffers_ok os); simpl; auto.
Qed.

Lemma close_dart_output_playing w : playing (close_dart_output w) = playing w.
Proof.
  rewrite close_dart_output_cases. cbv zeta.
  destruct (marker w), (truthy (DeviceID w)); done.
Qed.

Lemma step_playing e w w' :
  indexed w -> Forall (fun s => 0 <= s < BUFFERCOUNT) (playing w) ->
  step e w = Some w' -> Forall (fun s => 0 <= s < BUFFERCOUNT) (playing w').
Proof.
  unfold indexed. intros Hn Hall Hstep.
  step_cases Hstep; simpl in *; rewrite ?Hl, ?Hq in *; simpl in *; try done;
    try (apply Forall_app; split; [done|]; by apply Forall_singleton);
    try (by apply Forall_cons in Hall as [_ Hall]);
    try (destruct (playing w); simpl; [done|];
         by apply Forall_cons in Hall as [_ Hall]).
Qed.

Lemma alive_playing w : alive w -> Forall (fun s => 0 <= s < BUFFERCOUNT) (playing w).
Proof.
  induction 1 as [|os rate w _ IH|w _ IH|e w w' Ha IH Hstep].
  - simpl. done.
  - destruct (open_dart_output_playing os rate w) as [->| ->]; [done|].
    apply Forall_app. split; [done|]. unfold BUFFERCOUNT. repeat constructor; lia.
  - by rewrite close_dart_output_playing.
  - apply (step_playing e w w'); [by apply alive_indexed|done|done].
Qed.

(** X11: no slot is with the mixer twice.  In every state the program can
    be in, in its first session or a later one, each slot handed to
    [pmixWrite] and not yet counted back is an index of [MixBuffers].  In the
    states of the first session reached without an overlap of [ready--] and
    [ready++] these slots are pairwise different and at most [BUFFERCOUNT] in
    number. *)
Theorem playing_no_duplicates w :
  alive w ->
  (forall s, s ∈ playing w -> 0 <= s < BUFFERCOUNT) /\
  (reachable_calmly w ->
   NoDup (playing w) /\ Z.of_nat (length (playing w)) <= BUFFERCOUNT).
Proof.
  intros Halive. split.
  - intros s Hin. pose proof (alive_playing w Halive) as Hall.
    rewrite Forall_forall in Hall. by apply Hall.
  - intros Hcalmly.
    pose proof (reachable_queued w (reachable_calmly_reachable w Hcalmly)) as Hord.
    destruct (reachable_calmly_sane w Hcalmly) as (t & Ht & _ & Hr & _ & Hsum & _).
    assert (Hn : Z.of_nat (length (playing w)) <= BUFFERCOUNT).
    { unfold pending, BUFFERCOUNT in *. destruct (at_label w); lia. }
    split; [|done].
    apply NoDup_alt. intros i j s Hi Hj.
    pose proof (lookup_lt_Some _ _ _ Hi). pose proof (lookup_lt_Some _ _ _ Hj).
    apply Hord in Hi. apply Hord in Hj. rewrite Hi in Hj.
    unfold BUFFERCOUNT in *. revert Hj. Z.div_mod_to_equations. lia.
Qed.

Lemma step_buflen e w w' :
  step e w = Some w' -> length (buflen w') = length (buflen w).
Proof.
  intros Hstep. step_cases Hstep; simpl; rewrite ?length_insert; done.
Qed.

Lemma run_buflen es w w' :
  run es w = Some w' -> length (buflen w') = length (buflen w).
Proof.
  revert w. induction es as [|e es IH]; simpl; intros w Hrun.
  - by injection Hrun as <-.
  - destruct (step e w) as [w1|] eqn:Hstep; [|discriminate].
    rewrite (IH _ Hrun). by eapply step_buflen.
Qed.

Lemma opened_buflen w :
  opened w ->
  buflen w = replicate (Z.to_nat BUFFERCOUNT) (bsize w) /\
  exists rate, bsize w = buffer_size rate.
Proof.
  intros (os & rate & Hopen). revert Hopen.
  unfold open_dart_output.
  destruct (mutex_ok os); simpl; [|discriminate].
  destruct (amp_device os) as [id|]; simpl; [|discriminate].
  destruct (mixsetup_ok os); simpl; [|discriminate].
  destruct (buffers_ok os); simpl; [|discriminate].
  intros [= <-]. simpl. split; [done|by exists rate].
Qed.

Lemma open_dart_output_buflen os rate w :
  length (buflen w) = Z.to_nat BUFFERCOUNT ->
  length (buflen (open_dart_output os rate w).2) = Z.to_nat BUFFERCOUNT.
Proof.
  unfold open_dart_output.
  destruct (mutex_ok os), (amp_device os) as [id|], (mixsetup_ok os),
    (buffers_ok os); simpl; done.
Qed.

Lemma close_dart_output_buflen w : buflen (close_dart_output w) = buflen w.
Proof.
  rewrite close_dart_output_cases. cbv zeta.
  destruct (marker w), (truthy (DeviceID w)); done.
Qed.

Lemma alive_buflen w : alive w -> length (buflen w) = Z.to_nat BUFFERCOUNT.
Proof.
  induction 1 as [|os rate w _ IH|w _ IH|e w w' Ha IH Hstep].
  - reflexivity.
  - by apply open_dart_output_buflen.
  - by rewrite close_dart_output_buflen.
  - by rewrite (step_buflen e w w' Hstep).
Qed.

(** X12: the counters stay in range.  In every state the program can be
    in, in its first session or a later one, there are [BUFFERCOUNT] buffer
    lengths, and [next] is an index of [MixBuffers], except between [next++]
    and the wrap test that follows it, where it may be [BUFFERCOUNT] and is
    not used as an index.  In the states of the first session reached
    without an overlap of [ready--] and [ready++], whatever flags the
    completions carried, the ready count lies between 0 and [BUFFERCOUNT], so
    the [short] has not wrapped, and together with the buffers the mixer
    holds it does not exceed [BUFFERCOUNT]. *)
Theorem counters_in_range w :
  alive w ->
  length (buflen w) = Z.to_nat BUFFERCOUNT /\
  match at_label w with
  | L_reset | L_wrap => 1 <= next w <= BUFFERCOUNT
  | _ => 0 <= next w < BUFFERCOUNT /\ is_Some (buflen w !! Z.to_nat (next w))
  end /\
  (reachable_calmly w ->
   0 <= ready w <= BUFFERCOUNT /\
   ready w + Z.of_nat (length (playing w)) <= BUFFERCOUNT).
Proof.
  intros Halive.
  pose proof (alive_indexed w Halive) as Hnext.
  pose proof (alive_buflen w Halive) as Hlen.
  split; [done|]. split.
  - unfold indexed, bumped in Hnext.
    destruct (at_label w); try done;
      (split; [done|]); apply lookup_lt_is_Some; rewrite Hlen;
      unfold BUFFERCOUNT in *; lia.
  - intros Hcalmly.
    destruct (reachable_calmly_sane w Hcalmly) as (t & Ht & _ & Hr & _ & Hsum & _).
    unfold pending, BUFFERCOUNT in *. destruct (at_label w); lia.
Qed.

(** *** The bytes of a slot *)

Lemma filled_snoc acc l c :
  filled acc (l ++ [c]) =
    match c with
    | Mix_write _ _ => 0
    | Mem_copy _ _ n => filled acc l + n
    | _ => filled acc l
    end.
Proof.
  revert acc. induction l as [|c' l IH]; intros acc; simpl; [by destruct c|].
  destruct c'; apply IH.
Qed.

Lemma appended_snoc acc l c :
  appended acc (l ++ [c]) <->
  appended acc l /\
  match c with Mem_copy _ offset _ => offset = filled acc l | _ => True end.
Proof.
  revert acc. induction l as [|c' l IH]; intros acc; simpl.
  - destruct c; tauto.
  - destruct c'; rewrite ?IH; tauto.
Qed.

Lemma buffer_size_bounds rate : 2048 <= buffer_size rate <= 32768.
Proof.
  unfold buffer_size. rewrite scan_bits_15.
  repeat match goal with
         | |- context [Z.testbit ?b ?i] => destruct (Z.testbit b i)
         end; vm_compute; split; discriminate.
Qed.

Lemma opened_accounted w : opened w -> accounted w.
Proof.
  intros Ho.
  destruct (opened_state w Ho) as (_ & _ & _ & Hi & Hl & _).
  destruct (opened_buflen w Ho) as (Hb & rate & Hsize).
  pose proof (buffer_size_bounds rate).
  destruct Ho as (os & rate' & Hopen). revert Hopen.
  unfold open_dart_output.
  destruct (mutex_ok os); simpl; [|discriminate].
  destruct (amp_device os) as [id|]; simpl; [|discriminate].
  destruct (mixsetup_ok os); simpl; [|discriminate].
  destruct (buffers_ok os); simpl; [|discriminate].
  intros [= Hw]. unfold accounted. rewrite Hl, Hi, Hb, Hsize, <- Hw. simpl.
  rewrite ?length_replicate. split_and!; try done; lia.
Qed.

Lemma step_accounted e w w' :
  indexed w -> accounted w ->
  match e with Call n => 0 <= n < 2 ^ 31 | _ => True end ->
  step e w = Some w' -> accounted w'.
Proof.
  unfold indexed, accounted, BUFFERCOUNT. intros Hs Ha He Hstep.
  step_cases Hstep; norm_tests; simpl in *; rewrite ?Hl in *; simpl in *.
  all: rewrite ?filled_snoc, ?appended_snoc, ?length_insert.
  all: destruct_and?.
  all: repeat match goal with
              | H : Z.gtb _ _ = true |- _ => rewrite Z.gtb_ltb in H; apply Z.ltb_lt in H
              | H : Z.gtb _ _ = false |- _ => rewrite Z.gtb_ltb in H; apply Z.ltb_ge in H
              | H : ?l <> L_idle -> _ |- _ =>
                  let Hn := fresh in
                  assert (Hn : l <> L_idle) by discriminate;
                  specialize (H Hn); clear Hn
              end.
  all: destruct_and?; split_and!; try done; try lia.
  all: try (intros _; lia).
  all: try (rewrite sint32_small by lia; lia).
  all: try (rewrite list_lookup_insert_eq by lia; f_equal;
            unfold uint32; apply Z.mod_small; lia).
  all: unfold uint32, sint32 in *;
    change (2 ^ 32) with 4294967296 in *; change (2 ^ 31) with 2147483648 in *;
    Z.div_mod_to_equations; lia.
Qed.

Lemma run_accounted es w w' :
  indexed w -> accounted w -> call_sizes es = true ->
  run es w = Some w' -> accounted w'.
Proof.
  revert w. induction es as [|e es IH]; simpl; intros w Hs Ha Hsz Hrun.
  - by injection Hrun as <-.
  - apply andb_true_iff in Hsz as [He Hes].
    destruct (step e w) as [w1|] eqn:Hstep; [|discriminate].
    apply (IH w1); [by eapply step_indexed| |done|done].
    eapply step_accounted; [done|done| |done].
    destruct e; [|done..]. apply andb_true_iff in He as [Hlo Hhi]. lia.
Qed.

(** X13: the fill offset counts the bytes put into the current slot.  After
    the first successful open of a program, from the initial values of the
    statics, and under any schedule whose calls pass sizes that are not
    negative, every [memcpy] starts at the offset where the bytes copied
    since the last [pmixWrite] end; outside a call [idx] is the number of
    these bytes; and the length a slot carries when it is handed to the mixer
    is the number of bytes copied into it. *)
Theorem idx_counts_copied_bytes w0 es w :
  opened w0 -> call_sizes es = true -> run es w0 = Some w ->
  appended 0 (log w) /\
  (at_label w = L_idle -> idx w = filled 0 (log w)) /\
  (at_label w = L_submit ->
     buflen w !! Z.to_nat (next w) = Some (filled 0 (log w))).
Proof.
  intros Ho Hsz Hrun.
  pose proof (run_accounted es w0 w (opened_indexed w0 Ho) (opened_accounted w0 Ho)
                Hsz Hrun)
    as (Happ & _ & _ & _ & _ & Hlabel).
  split; [done|]. split; intros Hl; rewrite Hl in Hlabel; [done|].
  destruct Hlabel as [<- ?]. done.
Qed.

(** X14: how [open_dart_output] ends.  It returns 0 when the mutex, the
    device, the mixer setup and the buffers have all been obtained, and -1
    otherwise.  When it returns 0 the device id is stored, the slot size is
    the one computed from the rate, each of the four buffer lengths is the
    slot size, and slots 0 and 1 have been cleared and handed to the mixer.
    On no path does it assign [next], [ready] or the fill offset of
    [write_dart_output]: they have their initial values only at the first
    open of a program. *)
Theorem open_dart_output_outcome os rate w :
  let res := open_dart_output os rate w in
  (res.1 = 0 <->
     mutex_ok os = true /\ is_Some (amp_device os) /\
     mixsetup_ok os = true /\ buffers_ok os = true) /\
  (res.1 <> 0 -> res.1 = -1) /\
  next res.2 = next w /\ ready res.2 = ready w /\ idx res.2 = idx w /\
  (mutex_ok os = false -> res.2 = emit [Create_mutex] w) /\
  (res.1 = 0 ->
     amp_device os = Some (DeviceID res.2) /\ marker res.2 = true /\
     bsize res.2 = buffer_size rate /\
     buflen res.2 = replicate (Z.to_nat BUFFERCOUNT) (buffer_size rate) /\
     playing res.2 = playing w ++ [0; 1] /\
     exists id,
       log res.2 = log w ++ [Create_mutex; Mci_open; Mci_mixsetup id;
                             Mci_buffer_allocate id BUFFERCOUNT (buffer_size rate);
                             Mem_set 0 (buffer_size rate);
                             Mem_set 1 (buffer_size rate); Mix_write 0 2]).
Proof.
  intros res. subst res. unfold open_dart_output.
  destruct (mutex_ok os), (amp_device os) as [id|], (mixsetup_ok os),
    (buffers_ok os); simpl; split_and!; try done.
  all: try (split; [done|]; intros (? & [? ?] & ? & ?); done).
  intros _. split_and!; try done.
  exists id. rewrite <- !app_assoc. reflexivity.
Qed.

(** *** The order of the slots *)

Lemma last_submitted_snoc prev l c :
  last_submitted prev (l ++ [c]) =
    match c with
    | Mix_write first count => Some (first + count - 1)
    | _ => last_submitted prev l
    end.
Proof.
  revert prev. induction l as [|c' l IH]; intros prev; simpl; [by destruct c|].
  destruct c'; apply IH.
Qed.

Lemma ring_order_snoc prev l c :
  ring_order prev (l ++ [c]) <->
  ring_order prev l /\
  match c with
  | Mix_write slot _ | Mem_copy slot _ _ =>
      forall p, last_submitted prev l = Some p -> slot = rotate p
  | _ => True
  end.
Proof.
  revert prev. induction l as [|c' l IH]; intros prev; simpl.
  - destruct c; tauto.
  - destruct c'; rewrite ?IH; tauto.
Qed.

Lemma opened_ring_order w :
  opened w ->
  ring_order None (log w) /\
  last_submitted None (log w) = Some ((front w - 1) mod BUFFERCOUNT).
Proof.
  intros Ho. destruct (opened_state w Ho) as (_ & _ & Hn & _ & Hl & _).
  unfold front. rewrite Hl, Hn.
  destruct Ho as (os & rate & Hopen). revert Hopen.
  unfold open_dart_output.
  destruct (mutex_ok os); simpl; [|discriminate].
  destruct (amp_device os) as [id|]; simpl; [|discriminate].
  destruct (mixsetup_ok os); simpl; [|discriminate].
  destruct (buffers_ok os); simpl; [|discriminate].
  intros [= <-]. simpl. split; [|reflexivity]. split; [done|done].
Qed.

Lemma step_ring_order e w w' :
  indexed w ->
  ring_order None (log w) /\
  last_submitted None (log w) = Some ((front w - 1) mod BUFFERCOUNT) ->
  step e w = Some w' ->
  ring_order None (log w') /\
  last_submitted None (log w') = Some ((front w' - 1) mod BUFFERCOUNT).
Proof.
  unfold indexed, front, rotate, BUFFERCOUNT. intros Hs [Hord Hlast] Hstep.
  step_cases Hstep; norm_tests; unfold BUFFERCOUNT in *;
    simpl in *; rewrite ?Hl in *; simpl in *.
  all: rewrite ?last_submitted_snoc, ?ring_order_snoc, ?Hlast.
  all: rewrite ?sint16_tiny by lia.
  all: split_and?; try done.
  all: try (intros p [= <-]).
  all: try f_equal.
  all: unfold rotate, BUFFERCOUNT; Z.div_mod_to_equations; lia.
Qed.

Lemma run_ring_order es w w' :
  indexed w ->
  ring_order None (log w) /\
  last_submitted None (log w) = Some ((front w - 1) mod BUFFERCOUNT) ->
  run es w = Some w' ->
  ring_order None (log w') /\
  last_submitted None (log w') = Some ((front w' - 1) mod BUFFERCOUNT).
Proof.
  revert w. induction es as [|e es IH]; simpl; intros w Hs Hord Hrun.
  - by injection Hrun as <-.
  - destruct (step e w) as [w1|] eqn:Hstep; [|discriminate].
    eauto using step_indexed, step_ring_order.
Qed.

(** X15: the slots are used in the order of the ring.  In every state of
    the first session of a program, from the initial values of the statics,
    each [pmixWrite] of the log has handed over the slot after the one handed
    over before it, and each [memcpy] has gone into the slot after the one
    handed over last; the slot handed over last is the one before the slot
    being filled, so what is written reaches the mixer in the order of the
    calls. *)
Theorem slots_in_ring_order w :
  reachable w ->
  ring_order None (log w) /\
  last_submitted None (log w) = Some ((front w - 1) mod BUFFERCOUNT).
Proof.
  intros (w0 & es & Ho & Hrun).
  eapply run_ring_order; [| |done];
    [by apply opened_indexed|by apply opened_ring_order].
Qed.

(** *** Closing after playing, and sizes below zero *)

Lemma step_device e w w' :
  step e w = Some w' -> marker w' = marker w /\ DeviceID w' = DeviceID w.
Proof. intros Hstep. step_cases Hstep; done. Qed.

Lemma run_device es w w' :
  run es w = Some w' -> marker w' = marker w /\ DeviceID w' = DeviceID w.
Proof.
  revert w. induction es as [|e es IH]; simpl; intros w Hrun.
  - by injection Hrun as <-.
  - destruct (step e w) as [w1|] eqn:Hstep; [|discriminate].
    destruct (IH _ Hrun) as [-> ->]. by eapply step_device.
Qed.

Lemma opened_device os rate w w0 :
  open_dart_output os rate w = (0, w0) ->
  exists id, amp_device os = Some id /\ DeviceID w0 = id /\ marker w0 = true.
Proof.
  unfold open_dart_output.
  destruct (mutex_ok os); simpl; [|discriminate].
  destruct (amp_device os) as [id|]; simpl; [|discriminate].
  destruct (mixsetup_ok os); simpl; [|discriminate].
  destruct (buffers_ok os); simpl; [|discriminate].
  intros [= <-]. by exists id.
Qed.

(** X16: open, play, close.  After an [open_dart_output] that returned 0,
    whatever calls, writer statements and completions have happened since,
    [close_dart_output] prints its message, frees the buffers of the device
    that was opened and closes that device, in this order, and clears the
    marker and [DeviceID].  The device is closed only if its id is not 0: the
    id doubles as the flag that a device is open. *)
Theorem close_dart_output_releases os rate w w0 es w1 :
  open_dart_output os rate w = (0, w0) ->
  run es w0 = Some w1 ->
  exists id,
    amp_device os = Some id /\
    log (close_dart_output w1)
    = log w1 ++ [Print_shutdown; Mci_buffer_deallocate id]
        ++ (if id =? 0 then [] else [Mci_close id]) /\
    marker (close_dart_output w1) = false /\
    DeviceID (close_dart_output w1) = 0.
Proof.
  intros Hopen Hrun.
  destruct (opened_device os rate w w0 Hopen) as (id & Hid & Hdev & Hm).
  destruct (run_device es w0 w1 Hrun) as [Hm1 Hdev1].
  rewrite Hm in Hm1. rewrite Hdev in Hdev1.
  exists id. split; [done|].
  destruct (close_dart_output_clears w1) as [-> ->].
  split; [|done]. rewrite close_dart_output_cases, Hm1, Hdev1. unfold truthy.
  destruct (id =? 0); simpl; by rewrite <- ?app_assoc.
Qed.

(** X17: a size below zero.  The test of line 164 compares as unsigned:
    when [idx + output_size] is negative the sum counts as a number of at
    least 2^31, which no slot size reaches, so the call takes the rotation
    path, waits for a ready buffer and hands the current slot to the mixer,
    however little the slot holds. *)
Theorem negative_size_overflows w size :
  0 <= bsize w < 2 ^ 31 ->
  - 2 ^ 31 <= idx w + size < 0 ->
  overflows w size = true /\
  forall w', at_label w = L_check -> output_size w = size ->
    writer_step w = Some w' -> at_label w' = L_poll.
Proof.
  intros Hb Hsum.
  assert (Hov : overflows w size = true).
  { unfold overflows. rewrite sint32_small by lia.
    unfold uint32. apply Z.gtb_lt.
    change (2 ^ 32) with 4294967296. change (2 ^ 31) with 2147483648 in *.
    Z.div_mod_to_equations. lia. }
  split; [done|]. intros w' Hl Hsz. unfold writer_step, overflows in *.
  rewrite Hl, Hsz, Hov. by intros [= <-].
Qed.

End Protocol.

(** *** A concrete run

    Flag and status values for the examples: [MIX_WRITE_COMPLETE] is 2,
    [MIX_STREAM_ERROR] is 128 and [ERROR_DEVICE_UNDERRUN] is 5626. *)

Definition demo_os : os_outcome :=
  {| mutex_ok := true; amp_device := Some 1; mixsetup_ok := true;
     buffers_ok := true |}.

(** The state [open_dart_output] leaves at 44100 Hz. *)
Definition demo_open : world :=
  Eval vm_compute in (open_dart_output demo_os 44100 initial).2.

(** After a first call with 20000 bytes, which fit into slot 2. *)
Definition demo_first : list event := [Call 20000; Writer; Writer; Writer].

Definition demo_filled : world :=
  Eval vm_compute in default initial (run 2 128 5626 demo_first demo_open).

(** A second call with 20000 bytes does not fit; one completion is counted
    while it runs, and the schedule stops before the writer's [ready--]. *)
Definition demo_second : list event :=
  [Call 20000; Writer; Writer; Mixer 0 2; Callback; Writer; Writer].

Definition demo_submitted : world :=
  Eval vm_compute in
    default initial (run 2 128 5626 (demo_first ++ demo_second) demo_open).

(** The second call run to its return with no completion in between. *)
Definition demo_rotated : world :=
  Eval vm_compute in
    default initial (snd <$> write_dart_output 2 128 5626 (repeat Writer 11) 20000
                               demo_filled).

(** The second call with 40000 bytes instead, more than a slot holds. *)
Definition demo_overrun : world :=
  Eval vm_compute in
    default initial (snd <$> write_dart_output 2 128 5626 (repeat Writer 11) 40000
                               demo_filled).

(** At 1000 Hz a quarter of a second is 1000 bytes, which rounds down to
    512; the code takes 2048. *)
Lemma buffer_size_1000 :
  buffer_size 1000 = 2048 /\ buffer_size_spec 1000 = 512.
Proof. split; reflexivity. Qed.

(** Bits 16 and up of the byte count are not looked at: at 96000 Hz the
    code takes 16 KiB, and at 65536 Hz 2 KiB. *)
Remark buffer_size_96000 :
  buffer_size 96000 = 16384 /\ buffer_size_spec 96000 = 65536 /\
  buffer_size 65536 = 2048 /\ buffer_size_spec 65536 = 65536.
Proof. repeat split; reflexivity. Qed.

Lemma buffer_size_rounds_within_range_witness :
  buffer_size 44100 = Z.max 2048 (2 ^ Z.log2 (44100 / 4 * 4)) /\
  buffer_size 44100 = 32768.
Proof.
  split; [|reflexivity].
  refine (proj1 (buffer_size_rounds_within_range 44100 _ _)).
  - split; [discriminate|reflexivity].
  - reflexivity.
Defined.

Lemma demo_open_opened : opened demo_open.
Proof. exists demo_os, 44100. vm_compute. reflexivity. Defined.

Lemma demo_filled_reachable : reachable 2 128 5626 demo_filled.
Proof.
  exists demo_open, demo_first. split; [|vm_compute; reflexivity].
  exact demo_open_opened.
Defined.

Lemma demo_filled_reachable_calmly : reachable_calmly 2 128 5626 demo_filled.
Proof.
  exists demo_open, demo_first.
  split; [exact demo_open_opened|]. split; vm_compute; reflexivity.
Defined.

Lemma demo_submitted_reachable : reachable 2 128 5626 demo_submitted.
Proof.
  exists demo_open, (demo_first ++ demo_second).
  split; [exact demo_open_opened|vm_compute; reflexivity].
Defined.

Lemma demo_submitted_reachable_calmly : reachable_calmly 2 128 5626 demo_submitted.
Proof.
  exists demo_open, (demo_first ++ demo_second).
  split; [exact demo_open_opened|]. split; vm_compute; reflexivity.
Defined.

(** The state [open_dart_output] establishes: two buffers with the mixer,
    one ready, slot 2 current; the ready count and the mixer's buffers add up
    to three of the four slots.  A buffer DART reports with flags the
    callback does not count leaves the mixer and is not added to the ready
    count: the sum is then two. *)
Lemma ready_plus_playing_after_open :
  open_dart_output demo_os 44100 initial = (0, demo_open) /\
  ready demo_open = 1 /\ playing demo_open = [0; 1] /\ next demo_open = 2 /\
  ready demo_open + Z.of_nat (length (playing demo_open)) = 3 /\
  BUFFERCOUNT = 4 /\
  exists w,
    run 2 128 5626 [Mixer 0 0] demo_open = Some w /\
    ready w + Z.of_nat (length (playing w)) = 2.
Proof. vm_compute. repeat split. eexists. split; reflexivity. Qed.

(** The load and the store of [ready--] with the callback's [ready++] in
    between, and the other way round: in both schedules a buffer is handed
    to the mixer and a completion is counted, after which [ready] and the
    mixer's buffers should add up to three again; they add up to two when the
    increment is overwritten, and to four when the decrement is. *)
Remark ready_update_lost :
  let lost_increment :=
    Call 40000 :: repeat Writer 5 ++ [Mixer 0 2; Callback] ++ repeat Writer 6 in
  let lost_decrement :=
    Call 40000 :: repeat Writer 4 ++ [Mixer 0 2; Writer; Writer; Callback]
      ++ repeat Writer 5 in
  (exists w,
     run 2 128 5626 lost_increment demo_open = Some w /\
     at_label w = L_idle /\ ready w = 0 /\ playing w = [1; 2] /\
     calm 2 128 5626 lost_increment demo_open = false) /\
  (exists w,
     run 2 128 5626 lost_decrement demo_open = Some w /\
     at_label w = L_idle /\ ready w = 2 /\ playing w = [1; 2] /\
     calm 2 128 5626 lost_decrement demo_open = false).
Proof. split; eexists; vm_compute; repeat split. Qed.

Lemma ready_plus_playing_conserved_witness :
  run 2 128 5626 (demo_first ++ demo_second) demo_open = Some demo_submitted /\
  at_label demo_submitted = L_dec /\
  ready demo_submitted + Z.of_nat (length (playing demo_submitted))
  = BUFFERCOUNT - uncounted 2 128 5626 (demo_first ++ demo_second).
Proof.
  assert (Hopen : open_dart_output demo_os 44100 initial = (0, demo_open))
    by (vm_compute; reflexivity).
  assert (Hcalm : calm 2 128 5626 (demo_first ++ demo_second) demo_open = true)
    by (vm_compute; reflexivity).
  assert (Hrun : run 2 128 5626 (demo_first ++ demo_second) demo_open
                 = Some demo_submitted) by (vm_compute; reflexivity).
  split; [exact Hrun|]. split; [reflexivity|].
  exact (ready_plus_playing_conserved 2 128 5626 demo_os 44100 demo_open
           (demo_first ++ demo_second) demo_submitted Hopen Hcalm Hrun).
Defined.

(** The second call of the example: slot 2 holds 20000 of its 32768 bytes
    when it is handed to the mixer, with 20000 as its length, and all 20000
    bytes of the call are copied to offset 0 of slot 3. *)
Lemma write_dart_output_submits_partial :
  write_dart_output 2 128 5626 (repeat Writer 11) 20000 demo_filled
  = Some (0, demo_rotated) /\
  overflows demo_filled 20000 = true /\
  next demo_filled = 2 /\ idx demo_filled = 20000 /\ bsize demo_filled = 32768 /\
  buflen demo_rotated = [32768; 32768; 20000; 32768] /\
  log demo_rotated = log demo_filled ++ [Mix_write 2 1; Mem_copy 3 0 20000].
Proof. vm_compute. repeat split. Qed.

Lemma demo_filled_settled : settled demo_filled.
Proof.
  split; [vm_compute; discriminate|]. split; [vm_compute; discriminate|].
  intros v Hv. discriminate Hv.
Defined.

Lemma write_dart_output_rotates_witness :
  overflows demo_filled 20000 = true /\
  (exists w1,
     write_dart_output 2 128 5626 (repeat Writer 11) 20000 demo_filled
     = Some (0, w1)) /\
  ready demo_rotated
  = ready demo_filled + completions (repeat Writer 11) - 1.
Proof.
  assert (Hov : overflows demo_filled 20000 = true) by (vm_compute; reflexivity).
  assert (Hsize : - 2 ^ 31 <= 20000 < 2 ^ 31) by lia.
  pose proof (write_dart_output_rotates 2 128 5626 demo_filled 20000
                (reachable_alive 2 128 5626 demo_filled demo_filled_reachable)
                eq_refl Hsize Hov) as [Hall Hsome].
  split; [exact Hov|]. split.
  - apply Hsome; [discriminate|reflexivity].
  - assert (Hrun : write_dart_output 2 128 5626 (repeat Writer 11) 20000 demo_filled
                   = Some (0, demo_rotated)) by (vm_compute; reflexivity).
    destruct (Hall (repeat Writer 11) 0 demo_rotated eq_refl Hrun)
      as (_ & _ & _ & _ & _ & _ & Hcalm).
    apply Hcalm; [exact demo_filled_settled|vm_compute; reflexivity].
Defined.

Lemma write_dart_output_single_copy_witness :
  bsize demo_filled = 32768 /\
  exists new slot offset,
    log demo_overrun = log demo_filled ++ new /\
    copies_of new = [(slot, offset, 40000)] /\
    (if overflows demo_filled 40000
     then slot = rotate (next demo_filled) /\ offset = 0
     else slot = next demo_filled /\ offset = idx demo_filled) /\
    (offset + 40000 <= bsize demo_filled <-> 40000 <= bsize demo_filled) /\
    (bsize demo_filled < 40000 -> bsize demo_filled < offset + 40000).
Proof.
  split; [reflexivity|].
  assert (Hrun : write_dart_output 2 128 5626 (repeat Writer 11) 40000 demo_filled
                 = Some (0, demo_overrun)) by (vm_compute; reflexivity).
  refine (write_dart_output_single_copy 2 128 5626 demo_filled 40000
            (repeat Writer 11) 0 demo_overrun
            (reachable_alive 2 128 5626 demo_filled demo_filled_reachable)
            eq_refl _ _ eq_refl Hrun).
  - simpl. lia.
  - lia.
Defined.

(** C8: a close after an open that failed.  When [MCI_MIXSETUP] fails,
    [open_dart_output] closes the device and keeps its id in [DeviceID]; a
    [close_dart_output] after that sends [MCI_CLOSE] for the same id once
    more, to a device that is no longer open. *)
Remark close_after_failed_setup :
  let os := {| mutex_ok := true; amp_device := Some 1; mixsetup_ok := false;
               buffers_ok := true |} in
  let w := (open_dart_output os 44100 initial).2 in
  (open_dart_output os 44100 initial).1 = -1 /\
  log w = [Create_mutex; Mci_open; Mci_mixsetup 1; Mci_close 1] /\
  log (close_dart_output w) = log w ++ [Print_shutdown; Mci_close 1].
Proof. vm_compute. repeat split. Qed.

Lemma current_slot_not_queued_witness :
  playing demo_filled = [0; 1] /\ next demo_filled = 2 /\
  0 = (front demo_filled + Z.of_nat 0 - Z.of_nat (length (playing demo_filled)))
        mod BUFFERCOUNT /\
  next demo_filled ∉ playing demo_filled.
Proof.
  split; [reflexivity|]. split; [reflexivity|].
  pose proof (current_slot_not_queued 2 128 5626 demo_filled demo_filled_reachable)
    as [Hord Hout].
  split; [exact (Hord 0%nat 0 eq_refl)|].
  exact (Hout demo_filled_reachable_calmly).
Defined.

Lemma playing_no_duplicates_witness :
  playing demo_submitted = [1; 2] /\ NoDup (playing demo_submitted).
Proof.
  split; [reflexivity|].
  exact (proj1 (proj2 (playing_no_duplicates 2 128 5626 demo_submitted
                         (reachable_alive 2 128 5626 demo_submitted
                            demo_submitted_reachable))
                  demo_submitted_reachable_calmly)).
Defined.

Lemma counters_in_range_witness :
  ready demo_submitted = 2 /\ 0 <= ready demo_submitted <= BUFFERCOUNT.
Proof.
  split; [reflexivity|].
  exact (proj1 (proj2 (proj2 (counters_in_range 2 128 5626 demo_submitted
                                (reachable_alive 2 128 5626 demo_submitted
                                   demo_submitted_reachable)))
                  demo_submitted_reachable_calmly)).
Defined.

Lemma idx_counts_copied_bytes_witness :
  idx demo_filled = 20000 /\ idx demo_filled = filled 0 (log demo_filled).
Proof.
  split; [reflexivity|].
  refine (proj1 (proj2 (idx_counts_copied_bytes 2 128 5626 demo_open demo_first
                          demo_filled demo_open_opened eq_refl _)) eq_refl).
  vm_compute. reflexivity.
Defined.

Lemma slots_in_ring_order_witness :
  next demo_submitted = 2 /\ at_label demo_submitted = L_dec /\
  last_submitted None (log demo_submitted)
  = Some ((front demo_submitted - 1) mod BUFFERCOUNT).
Proof.
  split; [reflexivity|]. split; [reflexivity|].
  exact (proj2 (slots_in_ring_order 2 128 5626 demo_submitted
                  demo_submitted_reachable)).
Defined.

Lemma close_dart_output_releases_witness :
  exists id,
    amp_device demo_os = Some id /\
    log (close_dart_output demo_filled)
    = log demo_filled ++ [Print_shutdown; Mci_buffer_deallocate id]
        ++ (if id =? 0 then [] else [Mci_close id]) /\
    marker (close_dart_output demo_filled) = false /\
    DeviceID (close_dart_output demo_filled) = 0.
Proof.
  refine (close_dart_output_releases 2 128 5626 demo_os 44100 initial demo_open
            demo_first demo_filled _ _); vm_compute; reflexivity.
Defined.

Lemma negative_size_overflows_witness :
  overflows demo_filled (-20004) = true.
Proof.
  refine (proj1 (negative_size_overflows demo_filled (-20004) _ _)).
  - vm_compute. split; [discriminate|reflexivity].
  - vm_compute. split; [discriminate|reflexivity].
Defined.

End Dart.

(** ** The ALSA driver ([out_alsa.c]) *)

Module Alsa.

(** Calls into the ALSA library and the C library.  A write records where in
    the caller's buffer it starts, the number of frames offered and the value
    [snd_pcm_writei] returned; a state query records whether the answer was
    [SND_PCM_STATE_XRUN].  The conversions between bytes and frames compute
    from the stream's format and are functions below, not entries of the
    log. *)
Inductive alsa_call :=
| Snd_pcm_open
| Snd_pcm_configure                          (* the [snd_pcm_hw_params_*] and [sw_params] calls *)
| Snd_pcm_writei (offset frames result : Z)
| Snd_pcm_state (is_xrun : bool)
| Snd_pcm_prepare (result : Z)
| Snd_pcm_start
| Snd_pcm_close (handle : Z)
| Print_prepare_failed
| Print_shutdown.

(** The driver's statics: [pcm] ([None] for [NULL]) and [alsa_first_time]. *)
Record alsa := {
  pcm : option Z;
  alsa_first_time : bool;
  log : list alsa_call
}.

Definition initial : alsa :=
  {| pcm := None; alsa_first_time := true; log := [] |}.

Definition emit (cs : list alsa_call) (a : alsa) : alsa :=
  {| pcm := pcm a; alsa_first_time := alsa_first_time a; log := log a ++ cs |}.

Definition set_first_time (b : bool) (a : alsa) : alsa :=
  {| pcm := pcm a; alsa_first_time := b; log := log a |}.

Definition set_pcm (h : option Z) (a : alsa) : alsa :=
  {| pcm := h; alsa_first_time := alsa_first_time a; log := log a |}.

(** The stream is opened with [SND_PCM_FORMAT_S16] and two channels: a frame
    is four bytes. *)
Definition frame_bytes : Z := 4.

Definition snd_pcm_bytes_to_frames (bytes : Z) : Z := Z.quot bytes frame_bytes.
Definition snd_pcm_frames_to_bytes (frames : Z) : Z := frames * frame_bytes.

(** [close_alsa_output] *)
Definition close_alsa_output (a : alsa) : alsa :=
  match pcm a with
  | None => a
  | Some h => set_pcm None (emit [Print_shutdown; Snd_pcm_close h] a)
  end.

(** What ALSA answers during [open_alsa_output]: the handle [snd_pcm_open]
    stores, whether each configuration call succeeds, and the rate
    [snd_pcm_hw_params_set_rate_near] settles on. *)
Record open_outcome := {
  opened_handle : option Z;
  params_any_ok : bool;
  access_ok : bool;
  format_ok : bool;
  channels_ok : bool;
  rate_near : option Z;
  buffer_time_ok : bool;
  period_time_ok : bool;
  hw_params_ok : bool;
  sw_params_ok : bool
}.

(** [open_alsa_output]: the return value, [*rate] afterwards, the state. *)
Definition open_alsa_output (os : open_outcome) (rate : Z) (a : alsa)
  : Z * Z * alsa :=
  let a := emit [Snd_pcm_open] a in
  match opened_handle os with
  | None => (-1, rate, a)
  | Some h =>
      let a := emit [Snd_pcm_configure] (set_pcm (Some h) a) in
      let fail rate := (-1, rate, close_alsa_output a) in
      if negb (params_any_ok os) then fail rate
      else if negb (access_ok os) then fail rate
      else if negb (format_ok os) then fail rate
      else if negb (channels_ok os) then fail rate
      else
        match rate_near os with
        | None => fail rate
        | Some rate =>
            if negb (buffer_time_ok os) then fail rate
            else if negb (period_time_ok os) then fail rate
            else if negb (hw_params_ok os) then fail rate
            else if negb (sw_params_ok os) then fail rate
            else (0, rate, a)
        end
  end.

(** What ALSA answers to one pass of the loop of [write_alsa_output]: the
    value of [snd_pcm_writei], and, for a failed write, whether
    [snd_pcm_state] is [SND_PCM_STATE_XRUN] and what [snd_pcm_prepare]
    returns. *)
Record reply := {
  writei_ret : Z;
  xrun : bool;
  prepare_ret : Z
}.

(** The loop [while (output_size > 0)]: [offset] is how far [output_data]
    has moved into the caller's buffer.  [None]: the replies are used up and
    the loop is still running. *)
Fixpoint write_loop (os : list reply) (a : alsa) (offset output_size : Z)
  : option (Z * alsa) :=
  if output_size <=? 0 then Some (0, a)
  else
    match os with
    | [] => None
    | r :: os' =>
        let frames := snd_pcm_bytes_to_frames output_size in
        let err := sint32 (writei_ret r) in
        let a := emit [Snd_pcm_writei offset frames err] a in
        if err <? 0 then
          let a := emit [Snd_pcm_state (xrun r)] a in
          if xrun r then
            let err := sint32 (prepare_ret r) in
            let a := emit [Snd_pcm_prepare err] a in
            let a := if err <? 0 then emit [Print_prepare_failed] a else a in
            let a := set_first_time true a in
            write_loop os' a offset output_size
          else Some (err, a)
        else
          let output_size := sint32 (output_size - snd_pcm_frames_to_bytes err) in
          let offset := offset + snd_pcm_frames_to_bytes err in
          let a :=
            if alsa_first_time a
            then emit [Snd_pcm_start] (set_first_time false a)
            else a in
          write_loop os' a offset output_size
    end.

Definition write_alsa_output (os : list reply) (a : alsa) (output_size : Z)
  : option (Z * alsa) :=
  write_loop os a 0 output_size.

Definition pause_alsa_output (a : alsa) : alsa := a.
Definition resume_alsa_output (a : alsa) : alsa := a.

(** The bytes the successful writes of a log delivered. *)
Fixpoint accepted (l : list alsa_call) : Z :=
  match l with
  | [] => 0
  | Snd_pcm_writei _ _ result :: l' =>
      (if result <? 0 then 0 else snd_pcm_frames_to_bytes result) + accepted l'
  | _ :: l' => accepted l'
  end.

(** Every write of the log starts at the byte that follows those already
    delivered, [start] being the first byte not delivered before the log. *)
Fixpoint in_order (start : Z) (l : list alsa_call) : Prop :=
  match l with
  | [] => True
  | Snd_pcm_writei offset _ result :: l' =>
      offset = start /\
      in_order (start + (if result <? 0 then 0 else snd_pcm_frames_to_bytes result)) l'
  | _ :: l' => in_order start l'
  end.

(** ALSA never reports more frames written than it was offered. *)
Definition honest (c : alsa_call) : Prop :=
  match c with
  | Snd_pcm_writei _ frames result => result <= frames
  | _ => True
  end.

(** A call that neither opens nor closes a stream. *)
Definition keeps_stream (c : alsa_call) : Prop :=
  match c with
  | Snd_pcm_open | Snd_pcm_close _ => False
  | _ => True
  end.

(** Every write of a log offers frames that lie within the [size] bytes of
    the caller's buffer. *)
Fixpoint within (size : Z) (l : list alsa_call) : Prop :=
  match l with
  | [] => True
  | Snd_pcm_writei offset frames _ :: l' =>
      0 <= offset /\ offset + snd_pcm_frames_to_bytes frames <= size /\
      within size l'
  | _ :: l' => within size l'
  end.

(** *** Underrun recovery and delivery *)

Lemma frames_fit size result :
  0 < size < 2 ^ 31 -> 0 <= result <= snd_pcm_bytes_to_frames size ->
  sint32 (size - snd_pcm_frames_to_bytes result) = size - snd_pcm_frames_to_bytes result
  /\ 0 <= size - snd_pcm_frames_to_bytes result < 2 ^ 31.
Proof.
  unfold snd_pcm_bytes_to_frames, snd_pcm_frames_to_bytes, frame_bytes.
  intros Hsize Hres. rewrite Z.quot_div_nonneg in Hres by lia.
  assert (0 <= size - result * 4 < 2 ^ 31) by (Z.div_mod_to_equations; lia).
  split; [apply sint32_small|]; lia.
Qed.

(** What a finished loop has logged: the writes are in order, and when the
    loop ends with 0 the successful ones add up to the size asked for. *)
Lemma write_loop_delivers os : forall a offset size ret a',
  size < 2 ^ 31 ->
  write_loop os a offset size = Some (ret, a') ->
  exists new,
    log a' = log a ++ new /\
    (Forall honest new ->
       in_order offset new /\ (ret = 0 -> accepted new = Z.max 0 size)).
Proof.
  assert (Hdone : forall (a a' : alsa) offset size ret,
            size <= 0 -> Some (0, a) = Some (ret, a') ->
            exists new, log a' = log a ++ new /\
              (Forall honest new ->
                 in_order offset new /\ (ret = 0 -> accepted new = Z.max 0 size))).
  { intros a a' offset size ret Hle [= <- <-]. exists []. rewrite app_nil_r.
    simpl. split; [done|]. intros _; split; [done|lia]. }
  induction os as [|r os IH]; intros a offset size ret a' Hsize; simpl;
    destruct (Z.leb_spec size 0) as [Hle|Hgt]; intros Hrun; eauto.
  - discriminate.
  - revert Hrun.
    set (err := sint32 (writei_ret r)).
    set (frames := snd_pcm_bytes_to_frames size).
    destruct (Z.ltb_spec err 0) as [Hneg|Hpos]; [destruct (xrun r)|]; intros Hrun.
    + (* underrun: prepare, then the same bytes again *)
      destruct (IH _ _ _ _ _ Hsize Hrun) as (new & Hlog & Hnew).
      destruct (sint32 (prepare_ret r) <? 0); simpl in Hlog;
        rewrite <- !app_assoc in Hlog; simpl in Hlog;
        (eexists; split; [exact Hlog|]);
        intros Hall; repeat (apply Forall_cons in Hall as [_ Hall]);
        destruct (Hnew Hall) as [Hord Hacc]; simpl;
        destruct (Z.ltb_spec err 0); try lia;
        rewrite Z.add_0_r; repeat split; try done; lia.
    + (* any other error is returned *)
      injection Hrun as <- <-. simpl. eexists.
      split; [by rewrite <- app_assoc|].
      intros _. simpl. destruct (Z.ltb_spec err 0); lia.
    + (* [err] frames were taken *)
      assert (Hrest : sint32 (size - snd_pcm_frames_to_bytes err) < 2 ^ 31).
      { unfold sint32.
        pose proof (Z.mod_pos_bound (size - snd_pcm_frames_to_bytes err + 2 ^ 31)
                      (2 ^ 32) ltac:(lia)). lia. }
      destruct (IH _ _ _ _ _ Hrest Hrun) as (new & Hlog & Hnew).
      destruct (alsa_first_time a); simpl in Hlog;
          rewrite <- ?app_assoc in Hlog; simpl in Hlog;
          (eexists; split; [exact Hlog|]);
          intros Hall; apply Forall_cons in Hall as [Hhon Hall];
          try (apply Forall_cons in Hall as [_ Hall]);
          destruct (Hnew Hall) as [Hord Hacc]; simpl in Hhon |- *;
          destruct (frames_fit size err ltac:(lia) ltac:(lia)) as [Heq Hrange];
          rewrite Heq in Hacc;
          destruct (Z.ltb_spec err 0); try lia;
          (split; [by split|]); intros Hret; specialize (Hacc Hret); lia.
Qed.

(** A stream that takes what it is offered: one write of whole frames. *)
Lemma write_loop_accepts a offset frames xr pr :
  0 < frames < 2 ^ 29 ->
  exists a' new,
    write_loop [{| writei_ret := frames; xrun := xr; prepare_ret := pr |}]
      a offset (snd_pcm_frames_to_bytes frames) = Some (0, a') /\
    log a' = log a ++ new /\
    accepted new = snd_pcm_frames_to_bytes frames.
Proof.
  intros Hf. unfold snd_pcm_frames_to_bytes, frame_bytes.
  cbn [write_loop writei_ret]. unfold snd_pcm_frames_to_bytes, frame_bytes.
  rewrite sint32_small by lia.
  destruct (Z.leb_spec (frames * 4) 0); [lia|].
  destruct (Z.ltb_spec frames 0); [lia|].
  replace (frames * 4 - frames * 4) with 0 by lia.
  change (sint32 0 <=? 0) with true. cbv iota.
  cbn [alsa_first_time emit set_first_time].
  destruct (alsa_first_time a);
    (eexists _, _; split; [reflexivity|]);
    (split; [simpl; rewrite <- ?app_assoc; reflexivity|]);
    simpl; destruct (Z.ltb_spec frames 0);
    unfold snd_pcm_frames_to_bytes, frame_bytes; lia.
Qed.

(** C2: one pass of the loop with bytes left to write.  When the write fails
    and the stream is in the underrun state, the stream is prepared again and
    the loop goes on with the same offset and the same size: the same bytes
    are offered again.  Any other failure ends the call with the negative value
    of [snd_pcm_writei].  A call that returns 0 has written its input in order
    and completely, given that ALSA never reports more frames than offered; and
    a stream that takes the frames it is offered lets the call return 0. *)
Theorem write_alsa_output_recovers_or_reports a size :
  0 < size < 2 ^ 31 ->
  (forall r os offset,
     sint32 (writei_ret r) < 0 -> xrun r = true ->
     exists a1,
       write_loop (r :: os) a offset size = write_loop os a1 offset size /\
       pcm a1 = pcm a /\ alsa_first_time a1 = true /\
       exists msg,
         log a1 = log a ++ [Snd_pcm_writei offset (snd_pcm_bytes_to_frames size)
                              (sint32 (writei_ret r));
                            Snd_pcm_state true;
                            Snd_pcm_prepare (sint32 (prepare_ret r))] ++ msg /\
         accepted msg = 0) /\
  (forall r os offset,
     sint32 (writei_ret r) < 0 -> xrun r = false ->
     exists a1,
       write_loop (r :: os) a offset size = Some (sint32 (writei_ret r), a1) /\
       pcm a1 = pcm a) /\
  (forall os a',
     write_alsa_output os a size = Some (0, a') ->
     exists new,
       log a' = log a ++ new /\
       (Forall honest new -> in_order 0 new /\ accepted new = size)) /\
  (forall frames xr pr,
     size = snd_pcm_frames_to_bytes frames ->
     exists a',
       write_alsa_output [{| writei_ret := frames; xrun := xr; prepare_ret := pr |}]
         a size = Some (0, a')).
Proof.
  intros Hsize. repeat split.
  - intros r os offset Herr Hx. cbn [write_loop].
    destruct (Z.leb_spec size 0); [lia|].
    destruct (Z.ltb_spec (sint32 (writei_ret r)) 0); [|lia].
    rewrite Hx. eexists. split; [reflexivity|].
    destruct (sint32 (prepare_ret r) <? 0); simpl;
      rewrite <- ?app_assoc; simpl; repeat split; eauto.
  - intros r os offset Herr Hx. cbn [write_loop].
    destruct (Z.leb_spec size 0); [lia|].
    destruct (Z.ltb_spec (sint32 (writei_ret r)) 0); [|lia].
    rewrite Hx. eauto.
  - intros os a' Hrun.
    destruct (write_loop_delivers os a 0 size 0 a' ltac:(lia) Hrun)
      as (new & Hlog & Hnew).
    exists new. split; [done|]. intros Hall.
    destruct (Hnew Hall) as [Hord Hacc]. split; [done|].
    rewrite Hacc by done. lia.
  - intros frames xr pr ->.
    unfold snd_pcm_frames_to_bytes, frame_bytes in Hsize.
    destruct (write_loop_accepts a 0 frames xr pr ltac:(lia)) as (a' & _ & Hrun & _).
    by exists a'.
Qed.

Lemma accepted_whole_frames l : accepted l mod frame_bytes = 0.
Proof.
  unfold frame_bytes.
  induction l as [|c l IH]; simpl; [done|].
  destruct c; try done.
  unfold snd_pcm_frames_to_bytes, frame_bytes.
  destruct (result <? 0); Z.div_mod_to_equations; lia.
Qed.

(** X18: a size that is not a whole number of frames: the call cannot
    return 0 unless ALSA reports more frames than it was offered. *)
Remark write_alsa_output_partial_frame os a size a' :
  0 < size < 2 ^ 31 -> size mod frame_bytes <> 0 ->
  write_alsa_output os a size = Some (0, a') ->
  exists new, log a' = log a ++ new /\ ~ Forall honest new.
Proof.
  intros Hsize Hpart Hrun.
  destruct (write_loop_delivers os a 0 size 0 a' ltac:(lia) Hrun)
    as (new & Hlog & Hnew).
  exists new. split; [done|]. intros Hall.
  destruct (Hnew Hall) as [_ Hacc]. specialize (Hacc eq_refl).
  pose proof (accepted_whole_frames new) as Hframes.
  rewrite Hacc in Hframes. rewrite Z.max_r in Hframes by lia. done.
Qed.

(** An underrun on the first write of eight bytes ([-32] is [-EPIPE]): the
    stream is prepared and the same two frames, from the same offset, are
    written again. *)
Example write_alsa_output_underrun :
  write_alsa_output
    [ {| writei_ret := -32; xrun := true; prepare_ret := 0 |};
      {| writei_ret := 2; xrun := false; prepare_ret := 0 |} ]
    {| pcm := Some 7; alsa_first_time := false; log := [] |} 8
  = Some (0, {| pcm := Some 7; alsa_first_time := false;
                log := [ Snd_pcm_writei 0 2 (-32); Snd_pcm_state true;
                         Snd_pcm_prepare 0;
                         Snd_pcm_writei 0 2 2; Snd_pcm_start ] |}).
Proof. vm_compute. reflexivity. Qed.

Lemma write_alsa_output_recovers_or_reports_witness :
  let a := {| pcm := Some 7; alsa_first_time := true; log := [] |} in
  0 < 8 < 2 ^ 31 /\
  exists a1,
    write_loop ({| writei_ret := -32; xrun := false; prepare_ret := 0 |} :: []) a 0 8
    = Some (sint32 (-32), a1) /\ pcm a1 = Some 7.
Proof.
  intros a. split; [lia|].
  destruct (write_alsa_output_recovers_or_reports a 8 ltac:(lia))
    as (_ & Hfail & _ & _).
  exact (Hfail {| writei_ret := -32; xrun := false; prepare_ret := 0 |} [] 0
           eq_refl eq_refl).
Defined.

(** *** What a call returns, and when the stream is started *)

Lemma write_loop_result os : forall a offset size v a',
  write_loop os a offset size = Some (v, a') ->
  v <= 0 /\ pcm a' = pcm a /\
  (size <= 0 -> v = 0 /\ a' = a) /\
  (v < 0 ->
     0 < size /\
     exists before off frames,
       log a' = before ++ [Snd_pcm_writei off frames v; Snd_pcm_state false]).
Proof.
  induction os as [|r os IH]; intros a offset size v a'; simpl;
    destruct (Z.leb_spec size 0) as [Hle|Hgt]; intros Hrun;
    try (injection Hrun as <- <-; split_and!; try done; lia);
    try discriminate.
  revert Hrun.
  destruct (Z.ltb_spec (sint32 (writei_ret r)) 0) as [Hneg|Hpos];
    [destruct (xrun r)|]; intros Hrun.
  - apply IH in Hrun as (Hv & Hpcm & _ & Hlast).
    split; [done|]. split; [by destruct (sint32 (prepare_ret r) <? 0)|].
    split; [lia|]. intros Hlt. destruct (Hlast Hlt) as [_ Hl]. by split.
  - injection Hrun as <- <-. simpl. split; [lia|]. split; [done|].
    split; [lia|]. intros _. split; [done|].
    eexists _, _, _. rewrite <- app_assoc. reflexivity.
  - apply IH in Hrun as (Hv & Hpcm & _ & Hlast).
    split; [done|]. split; [by destruct (alsa_first_time a)|].
    split; [lia|]. intros Hlt. split; [done|]. by destruct (Hlast Hlt).
Qed.

(** X19: what [write_alsa_output] returns.  The value is never positive,
    and the call leaves [pcm] as it is.  With a size that is zero or negative
    it returns 0 at once and touches nothing.  A negative value is the value
    of a failed [snd_pcm_writei]; the log then ends with that write and the
    [snd_pcm_state] query after it, whose answer was not the underrun state:
    no [snd_pcm_prepare], no further write and no close follows. *)
Theorem write_alsa_output_returns os a size v a' :
  write_alsa_output os a size = Some (v, a') ->
  v <= 0 /\ pcm a' = pcm a /\
  (size <= 0 -> v = 0 /\ a' = a) /\
  (v < 0 ->
     0 < size /\
     exists before off frames,
       log a' = before ++ [Snd_pcm_writei off frames v; Snd_pcm_state false]).
Proof.
  unfold write_alsa_output. intros Hrun.
  destruct (write_loop_result os a 0 size v a' Hrun) as (Hv & Hpcm & Hnone & Hneg).
  split; [exact Hv|]. split; [exact Hpcm|]. split; [exact Hnone|].
  intros Hlt. destruct (Hneg Hlt) as (Hsize & before & off & frames & Hlast).
  split; [exact Hsize|]. by exists before, off, frames.
Qed.

Lemma write_loop_start os : forall a offset size v a',
  write_loop os a offset size = Some (v, a') ->
  exists new,
    log a' = log a ++ new /\
    (v = 0 -> (0 < size \/ alsa_first_time a = false) -> alsa_first_time a' = false) /\
    (v = 0 -> 0 < size -> alsa_first_time a = true -> Snd_pcm_start ∈ new) /\
    (alsa_first_time a = false -> (forall e, Snd_pcm_prepare e ∉ new) ->
       (Snd_pcm_start ∉ new) /\ alsa_first_time a' = false).
Proof.
  induction os as [|r os IH]; intros a offset size v a'; simpl;
    destruct (Z.leb_spec size 0) as [Hle|Hgt]; intros Hrun;
    try discriminate.
  1,2: injection Hrun as <- <-; exists []; rewrite app_nil_r;
       split_and!; try done; try lia;
       [intros _ [?|?]; [lia|done] | intros; split; [apply not_elem_of_nil|done]].
  revert Hrun.
  destruct (Z.ltb_spec (sint32 (writei_ret r)) 0) as [Hneg|Hpos];
    [destruct (xrun r)|]; intros Hrun.
  - apply IH in Hrun as (new & Hlog & Hoff & Hstart & _).
    destruct (sint32 (prepare_ret r) <? 0); simpl in *;
      rewrite <- ?app_assoc in Hlog; simpl in Hlog;
      (eexists; split; [exact Hlog|]); (split; [|split]);
      [ intros Hv _; apply Hoff; [done|by left]
      | intros Hv _ _; repeat apply list_elem_of_further; by apply Hstart
      | intros _ Hno; exfalso; apply (Hno (sint32 (prepare_ret r)));
        do 2 apply list_elem_of_further; apply list_elem_of_here
      | intros Hv _; apply Hoff; [done|by left]
      | intros Hv _ _; repeat apply list_elem_of_further; by apply Hstart
      | intros _ Hno; exfalso; apply (Hno (sint32 (prepare_ret r)));
        do 2 apply list_elem_of_further; apply list_elem_of_here ].
  - injection Hrun as <- <-. simpl. eexists.
    split; [by rewrite <- app_assoc|]. split_and!.
    + lia.
    + lia.
    + intros Hf _. split; [|done].
      intros Hin.
      repeat (apply elem_of_cons in Hin as [Hin|Hin]; [discriminate|]).
      by apply elem_of_nil in Hin.
  - apply IH in Hrun as (new & Hlog & Hoff & _ & Hnone).
    destruct (alsa_first_time a) eqn:Hft; simpl in *;
      rewrite <- ?app_assoc in Hlog; simpl in Hlog;
      (eexists; split; [exact Hlog|]); split_and!.
    + intros Hv _. apply Hoff; [done|by right].
    + intros _ _ _. apply list_elem_of_further, list_elem_of_here.
    + done.
    + intros Hv _. apply Hoff; [done|by right].
    + done.
    + intros _ Hno. destruct Hnone as [Hout Hoff']; [done| |].
      * intros e Hin. apply (Hno e). by apply list_elem_of_further.
      * split; [|done]. intros Hin.
        apply elem_of_cons in Hin as [?|Hin]; [discriminate|done].
Qed.

(** X20: when the stream is started.  A call with bytes to write that
    returns 0 leaves [alsa_first_time] at 0; if the flag was set when the call
    was made, as it is at program start and after an underrun,
    [snd_pcm_start] has been called.  If the flag was clear and no underrun
    was recovered from during the call, [snd_pcm_start] has not been
    called. *)
Theorem write_alsa_output_starts_stream os a size a' :
  0 < size ->
  write_alsa_output os a size = Some (0, a') ->
  alsa_first_time a' = false /\
  exists new,
    log a' = log a ++ new /\
    (alsa_first_time a = true -> Snd_pcm_start ∈ new) /\
    (alsa_first_time a = false -> (forall e, Snd_pcm_prepare e ∉ new) ->
       Snd_pcm_start ∉ new).
Proof.
  intros Hsize Hrun.
  apply write_loop_start in Hrun as (new & Hlog & Hoff & Hstart & Hnone).
  split; [apply Hoff; [done|by left]|].
  exists new. split; [done|]. split; [by apply Hstart|].
  intros Hf Hno. by destruct (Hnone Hf Hno).
Qed.

(** Closes a failure case of [open_alsa_output]. *)
Ltac open_failed :=
  split_and!; try done; eauto;
  try (split; [done|]; intros H; destruct_and?;
       repeat match goal with
              | H : is_Some None |- _ => destruct H as [? [=]]
              end; done);
  try (intros ? [= <-] _; split_and!; eauto; rewrite <- ?app_assoc; done).

(** X21: how [open_alsa_output] ends.  It returns 0 when [snd_pcm_open]
    and every configuration call succeed, and -1 otherwise.  When it returns
    0, [pcm] is the handle opened and [*rate] the rate ALSA settled on.  When
    [snd_pcm_open] fails nothing else is called and [*rate] is as before.
    When a later call fails the stream is closed again, once, and [pcm] is
    [NULL]; [*rate] is then the caller's value or, if the rate had been
    negotiated before the failure, the negotiated one.  On no path is
    [alsa_first_time] assigned. *)
Theorem open_alsa_output_outcome os rate a :
  let res := open_alsa_output os rate a in
  (res.1.1 = 0 <->
     is_Some (opened_handle os) /\ params_any_ok os = true /\
     access_ok os = true /\ format_ok os = true /\ channels_ok os = true /\
     is_Some (rate_near os) /\ buffer_time_ok os = true /\
     period_time_ok os = true /\ hw_params_ok os = true /\
     sw_params_ok os = true) /\
  (res.1.1 <> 0 -> res.1.1 = -1) /\
  alsa_first_time res.2 = alsa_first_time a /\
  (res.1.1 = 0 ->
     pcm res.2 = opened_handle os /\ rate_near os = Some res.1.2 /\
     log res.2 = log a ++ [Snd_pcm_open; Snd_pcm_configure]) /\
  (opened_handle os = None ->
     res.1.2 = rate /\ res.2 = emit [Snd_pcm_open] a) /\
  (forall h, opened_handle os = Some h -> res.1.1 <> 0 ->
     pcm res.2 = None /\
     (res.1.2 = rate \/ rate_near os = Some res.1.2) /\
     log res.2 = log a ++ [Snd_pcm_open; Snd_pcm_configure;
                           Print_shutdown; Snd_pcm_close h]).
Proof.
  intros res. subst res. unfold open_alsa_output, close_alsa_output.
  destruct (opened_handle os) as [h|]; simpl; [|open_failed].
  destruct (params_any_ok os); simpl; [|open_failed].
  destruct (access_ok os); simpl; [|open_failed].
  destruct (format_ok os); simpl; [|open_failed].
  destruct (channels_ok os); simpl; [|open_failed].
  destruct (rate_near os) as [rate'|]; simpl; [|open_failed].
  destruct (buffer_time_ok os); simpl; [|open_failed].
  destruct (period_time_ok os); simpl; [|open_failed].
  destruct (hw_params_ok os); simpl; [|open_failed].
  destruct (sw_params_ok os); simpl; [|open_failed].
  split_and!; try done.
  - intros _. split_and!; try done. by rewrite <- app_assoc.
Qed.

Lemma write_alsa_output_returns_witness :
  let a := {| pcm := Some 7; alsa_first_time := false; log := [] |} in
  let a' := {| pcm := Some 7; alsa_first_time := false;
               log := [Snd_pcm_writei 0 2 (-5); Snd_pcm_state false] |} in
  write_alsa_output [{| writei_ret := -5; xrun := false; prepare_ret := 0 |}] a 8
  = Some (-5, a') /\
  -5 <= 0 /\ pcm a' = pcm a.
Proof.
  intros a a'. split; [reflexivity|].
  destruct (write_alsa_output_returns
              [{| writei_ret := -5; xrun := false; prepare_ret := 0 |}] a 8 (-5) a'
              eq_refl) as (Hv & Hpcm & _).
  split; [exact Hv|exact Hpcm].
Defined.

Lemma write_alsa_output_starts_stream_witness :
  let a := {| pcm := Some 7; alsa_first_time := true; log := [] |} in
  let a' := {| pcm := Some 7; alsa_first_time := false;
               log := [Snd_pcm_writei 0 2 2; Snd_pcm_start] |} in
  write_alsa_output [{| writei_ret := 2; xrun := false; prepare_ret := 0 |}] a 8
  = Some (0, a') /\
  alsa_first_time a' = false.
Proof.
  intros a a'. split; [reflexivity|].
  exact (proj1 (write_alsa_output_starts_stream
                  [{| writei_ret := 2; xrun := false; prepare_ret := 0 |}] a 8 a'
                  ltac:(lia) eq_refl)).
Defined.

(** *** Staying inside the caller's buffer *)

Lemma write_loop_within os : forall a offset left v a',
  left < 2 ^ 31 ->
  write_loop os a offset left = Some (v, a') ->
  exists new,
    log a' = log a ++ new /\
    (Forall honest new -> 0 <= offset -> within (offset + left) new).
Proof.
  induction os as [|r os IH]; intros a offset left v a' Hleft; simpl;
    destruct (Z.leb_spec left 0) as [Hle|Hgt]; intros Hrun;
    try discriminate.
  1,2: injection Hrun as <- <-; exists []; by rewrite app_nil_r.
  revert Hrun.
  set (err := sint32 (writei_ret r)).
  assert (Hoffer : 0 <= offset ->
            0 <= offset /\
            offset + snd_pcm_frames_to_bytes (snd_pcm_bytes_to_frames left)
            <= offset + left).
  { intros Ho. split; [done|].
    unfold snd_pcm_bytes_to_frames, snd_pcm_frames_to_bytes, frame_bytes.
    rewrite Z.quot_div_nonneg by lia. Z.div_mod_to_equations. lia. }
  destruct (Z.ltb_spec err 0) as [Hneg|Hpos]; [destruct (xrun r)|]; intros Hrun.
  - destruct (IH _ _ _ _ _ Hleft Hrun) as (new & Hlog & Hnew).
    destruct (sint32 (prepare_ret r) <? 0); simpl in Hlog;
      rewrite <- !app_assoc in Hlog; simpl in Hlog;
      (eexists; split; [exact Hlog|]);
      intros Hall Ho; repeat (apply Forall_cons in Hall as [_ Hall]);
      simpl; destruct (Hoffer Ho); split_and!; try done; by apply Hnew.
  - injection Hrun as <- <-. simpl. eexists.
    split; [by rewrite <- app_assoc|].
    intros _ Ho. simpl. destruct (Hoffer Ho). done.
  - assert (Hrest : sint32 (left - snd_pcm_frames_to_bytes err) < 2 ^ 31).
    { unfold sint32.
      pose proof (Z.mod_pos_bound (left - snd_pcm_frames_to_bytes err + 2 ^ 31)
                    (2 ^ 32) ltac:(lia)). lia. }
    destruct (IH _ _ _ _ _ Hrest Hrun) as (new & Hlog & Hnew).
    destruct (alsa_first_time a); simpl in Hlog;
      rewrite <- ?app_assoc in Hlog; simpl in Hlog;
      (eexists; split; [exact Hlog|]);
      intros Hall Ho; apply Forall_cons in Hall as [Hhon Hall];
      try (apply Forall_cons in Hall as [_ Hall]);
      simpl in Hhon |- *;
      destruct (frames_fit left err ltac:(lia) ltac:(lia)) as [Heq Hrange];
      rewrite Heq in Hnew; destruct (Hoffer Ho);
      (split; [done|]); (split; [done|]);
      (replace (offset + left)
         with (offset + snd_pcm_frames_to_bytes err
               + (left - snd_pcm_frames_to_bytes err)) by lia);
      (apply Hnew; [done|]);
      unfold snd_pcm_frames_to_bytes, frame_bytes; lia.
Qed.

(** X22: [write_alsa_output] stays inside the caller's buffer.  As long as
    ALSA never reports more frames written than it was offered, every
    [snd_pcm_writei] of a call starts at an offset that is not negative and
    offers frames that end within the [output_size] bytes the caller
    passed. *)
Theorem write_alsa_output_stays_in_buffer os a size v a' :
  0 < size < 2 ^ 31 ->
  write_alsa_output os a size = Some (v, a') ->
  exists new,
    log a' = log a ++ new /\ (Forall honest new -> within size new).
Proof.
  intros Hsize Hrun.
  destruct (write_loop_within os a 0 size v a' ltac:(lia) Hrun)
    as (new & Hlog & Hnew).
  exists new. split; [done|]. intros Hall. by apply Hnew.
Qed.

Lemma write_alsa_output_stays_in_buffer_witness :
  let a := {| pcm := Some 7; alsa_first_time := false; log := [] |} in
  let a' := {| pcm := Some 7; alsa_first_time := false;
               log := [Snd_pcm_writei 0 2 1; Snd_pcm_writei 4 1 1;
                       Snd_pcm_writei 8 0 (-5); Snd_pcm_state false] |} in
  exists new, log a' = log a ++ new /\ (Forall honest new -> within 10 new).
Proof.
  intros a a'.
  exact (write_alsa_output_stays_in_buffer
           [{| writei_ret := 1; xrun := false; prepare_ret := 0 |};
            {| writei_ret := 1; xrun := false; prepare_ret := 0 |};
            {| writei_ret := -5; xrun := false; prepare_ret := 0 |}]
           a 10 (-5) a' ltac:(lia) eq_refl).
Defined.

Lemma write_alsa_output_partial_frame_witness :
  let a := {| pcm := Some 7; alsa_first_time := false; log := [] |} in
  let a' := {| pcm := Some 7; alsa_first_time := false;
               log := [Snd_pcm_writei 0 1 2] |} in
  write_alsa_output [{| writei_ret := 2; xrun := false; prepare_ret := 0 |}] a 6
  = Some (0, a') /\
  exists new, log a' = log a ++ new /\ ~ Forall honest new.
Proof.
  intros a a'. split; [reflexivity|].
  exact (write_alsa_output_partial_frame
           [{| writei_ret := 2; xrun := false; prepare_ret := 0 |}] a 6 a'
           ltac:(lia) ltac:(vm_compute; discriminate) eq_refl).
Defined.

(** *** A whole session *)

Lemma write_loop_calls os : forall a offset size v a',
  write_loop os a offset size = Some (v, a') ->
  exists new, log a' = log a ++ new /\ Forall keeps_stream new.
Proof.
  induction os as [|r os IH]; intros a offset size v a'; simpl;
    destruct (Z.leb_spec size 0) as [Hle|Hgt]; intros Hrun;
    try discriminate.
  1,2: injection Hrun as <- <-; exists []; by rewrite app_nil_r.
  revert Hrun.
  destruct (Z.ltb_spec (sint32 (writei_ret r)) 0) as [Hneg|Hpos];
    [destruct (xrun r)|]; intros Hrun.
  - apply IH in Hrun as (new & Hlog & Hall).
    destruct (sint32 (prepare_ret r) <? 0); simpl in Hlog;
      rewrite <- !app_assoc in Hlog; simpl in Hlog;
      (eexists; split; [exact Hlog|]); by repeat constructor.
  - injection Hrun as <- <-. simpl. eexists.
    split; [by rewrite <- app_assoc|]. by repeat constructor.
  - apply IH in Hrun as (new & Hlog & Hall).
    destruct (alsa_first_time a); simpl in Hlog;
      rewrite <- ?app_assoc in Hlog; simpl in Hlog;
      (eexists; split; [exact Hlog|]); by repeat constructor.
Qed.

(** X23: open, write, close.  After an [open_alsa_output] that returned 0,
    a [write_alsa_output], whatever it returns, neither opens nor closes a
    stream and leaves [pcm] alone.  A [close_alsa_output] after it therefore
    closes the handle that was opened, once, and sets [pcm] to [NULL]. *)
Theorem alsa_session_closes_handle os rate a rate' a1 rs size v a2 :
  open_alsa_output os rate a = (0, rate', a1) ->
  write_alsa_output rs a1 size = Some (v, a2) ->
  exists h new,
    opened_handle os = Some h /\ pcm a2 = Some h /\
    Forall keeps_stream new /\
    log (close_alsa_output a2)
    = log a ++ [Snd_pcm_open; Snd_pcm_configure] ++ new
        ++ [Print_shutdown; Snd_pcm_close h] /\
    pcm (close_alsa_output a2) = None.
Proof.
  intros Hopen Hwrite.
  assert (Ha1 : exists h, opened_handle os = Some h /\ pcm a1 = Some h /\
                  log a1 = log a ++ [Snd_pcm_open; Snd_pcm_configure]).
  { revert Hopen. unfold open_alsa_output, close_alsa_output.
    destruct (opened_handle os) as [h|]; simpl; [|discriminate].
    destruct (params_any_ok os); simpl; [|discriminate].
    destruct (access_ok os); simpl; [|discriminate].
    destruct (format_ok os); simpl; [|discriminate].
    destruct (channels_ok os); simpl; [|discriminate].
    destruct (rate_near os) as [r|]; simpl; [|discriminate].
    destruct (buffer_time_ok os); simpl; [|discriminate].
    destruct (period_time_ok os); simpl; [|discriminate].
    destruct (hw_params_ok os); simpl; [|discriminate].
    destruct (sw_params_ok os); simpl; [|discriminate].
    intros [= _ <-]. exists h. simpl. by rewrite <- app_assoc. }
  destruct Ha1 as (h & Hh & Hpcm & Hlog1).
  destruct (write_loop_result rs a1 0 size v a2 Hwrite) as (_ & Hkeep & _).
  destruct (write_loop_calls rs a1 0 size v a2 Hwrite) as (new & Hlog2 & Hall).
  exists h, new. rewrite Hpcm in Hkeep.
  unfold close_alsa_output. rewrite Hkeep. simpl.
  rewrite Hlog2, Hlog1, <- !app_assoc. done.
Qed.

Lemma alsa_session_closes_handle_witness :
  let os := {| opened_handle := Some 7; params_any_ok := true; access_ok := true;
               format_ok := true; channels_ok := true; rate_near := Some 44100;
               buffer_time_ok := true; period_time_ok := true;
               hw_params_ok := true; sw_params_ok := true |} in
  let a1 := {| pcm := Some 7; alsa_first_time := true;
               log := [Snd_pcm_open; Snd_pcm_configure] |} in
  let a2 := {| pcm := Some 7; alsa_first_time := false;
               log := [Snd_pcm_open; Snd_pcm_configure;
                       Snd_pcm_writei 0 2 2; Snd_pcm_start] |} in
  exists h new,
    opened_handle os = Some h /\ pcm a2 = Some h /\
    Forall keeps_stream new /\
    log (close_alsa_output a2)
    = log initial ++ [Snd_pcm_open; Snd_pcm_configure] ++ new
        ++ [Print_shutdown; Snd_pcm_close h] /\
    pcm (close_alsa_output a2) = None.
Proof.
  intros os a1 a2.
  exact (alsa_session_closes_handle os 48000 initial 44100 a1
           [{| writei_ret := 2; xrun := false; prepare_ret := 0 |}] 8 0 a2
           eq_refl eq_refl).
Defined.

End Alsa.

(** ** Closing twice *)

(** X24: [close_alsa_output] does nothing when [pcm] is [NULL], as it is
    before any open and after a failed one; otherwise it closes the stream once
    and sets [pcm] to [NULL], so that closing again does nothing.
    [close_dart_output] clears the marker and [DeviceID], so that closing
    again, or closing before any open, only prints its message; an
    [open_dart_output] that fails in the first session of a program has
    allocated no buffers and has itself closed the device it opened.  That
    open leaves [DeviceID] set, and the close that follows it is not covered
    here. *)
Theorem close_is_idempotent (a : Alsa.alsa) (w : Dart.world) :
  (Alsa.pcm a = None -> Alsa.close_alsa_output a = a) /\
  (forall h, Alsa.pcm a = Some h ->
     Alsa.close_alsa_output a =
       Alsa.set_pcm None (Alsa.emit [Alsa.Print_shutdown; Alsa.Snd_pcm_close h] a)) /\
  Alsa.pcm (Alsa.close_alsa_output a) = None /\
  Alsa.close_alsa_output (Alsa.close_alsa_output a) = Alsa.close_alsa_output a /\
  Alsa.close_alsa_output Alsa.initial = Alsa.initial /\
  (forall os rate ret rate' a',
     Alsa.open_alsa_output os rate Alsa.initial = (ret, rate', a') ->
     ret <> 0 -> Alsa.close_alsa_output a' = a') /\
  (forall os rate ret w',
     Dart.open_dart_output os rate Dart.initial = (ret, w') -> ret <> 0 ->
     Dart.marker w' = false /\
     (forall id, Dart.mutex_ok os = true -> Dart.amp_device os = Some id ->
        last (Dart.log w') = Some (Dart.Mci_close id))) /\
  Dart.marker (Dart.close_dart_output w) = false /\
  Dart.DeviceID (Dart.close_dart_output w) = 0 /\
  Dart.close_dart_output (Dart.close_dart_output w) =
    Dart.emit [Dart.Print_shutdown] (Dart.close_dart_output w) /\
  Dart.close_dart_output Dart.initial = Dart.emit [Dart.Print_shutdown] Dart.initial.
Proof.
  assert (Hnull : forall b, Alsa.pcm b = None -> Alsa.close_alsa_output b = b).
  { intros b Hb. unfold Alsa.close_alsa_output. by rewrite Hb. }
  assert (Hclosed : Alsa.pcm (Alsa.close_alsa_output a) = None).
  { unfold Alsa.close_alsa_output. by destruct (Alsa.pcm a) eqn:Hp. }
  repeat match goal with |- _ /\ _ => split end.
  - apply Hnull.
  - intros h Hp. unfold Alsa.close_alsa_output. by rewrite Hp.
  - exact Hclosed.
  - by apply Hnull.
  - reflexivity.
  - intros os rate ret rate' a' Hopen Hret. apply Hnull. revert Hopen.
    unfold Alsa.open_alsa_output.
    destruct (Alsa.opened_handle os) as [h|]; [|by intros [= <- <- <-]].
    destruct (Alsa.params_any_ok os), (Alsa.access_ok os), (Alsa.format_ok os),
      (Alsa.channels_ok os), (Alsa.rate_near os) as [r|];
      try destruct (Alsa.buffer_time_ok os), (Alsa.period_time_ok os),
        (Alsa.hw_params_ok os), (Alsa.sw_params_ok os);
      simpl; intros [= <- <- <-]; done.
  - intros os rate ret w' Hopen Hret.
    destruct (Dart.open_dart_output_failure os rate ret w' Hopen Hret)
      as (Hm & _ & Hclosed'). by split.
  - apply Dart.close_dart_output_clears.
  - apply Dart.close_dart_output_clears.
  - apply Dart.close_dart_output_again.
  - reflexivity.
Qed.

Lemma close_is_idempotent_witness :
  let a := {| Alsa.pcm := Some 7; Alsa.alsa_first_time := false; Alsa.log := [] |} in
  Alsa.close_alsa_output a =
    {| Alsa.pcm := None; Alsa.alsa_first_time := false;
       Alsa.log := [Alsa.Print_shutdown; Alsa.Snd_pcm_close 7] |} /\
  Dart.log (Dart.close_dart_output (Dart.close_dart_output Dart.demo_filled)) =
    Dart.log Dart.demo_filled
      ++ [Dart.Print_shutdown; Dart.Mci_buffer_deallocate 1; Dart.Mci_close 1;
          Dart.Print_shutdown].
Proof.
  intros a. split.
  - exact (proj1 (proj2 (close_is_idempotent a Dart.demo_filled)) 7 eq_refl).
  - vm_compute. reflexivity.
Defined.
